(** * A distributed document store: coordinator and storage nodes

    Shallow embedding of the naming server (coordinator) and the storage
    server (node) of the repository, the properties of its specification
    settled against it, and further properties that the code itself
    shows.

    Conventions of the embedding:
    - a C [int] is a [Z], without wrap-around; the one counter that only
      grows, [next_request_id], is kept below [INT_MAX] by hypothesis
      where a theorem follows it over a history;
    - a NUL-terminated [char] buffer is a [string]; names and payloads are
      taken to fit the fixed buffers of [struct Message]; where a handler
      copies into a smaller buffer, or reads a file through a line
      buffer, the theorems on it bound the sizes by hypothesis (module
      [Buffers]);
    - an intrusive linked list is a [list], head first;
    - a [char **] array is a [list string] read with [!!!] and written
      with [<[i:=x]>];
    - the file system is a finite map from path to content; opening for
      reading succeeds iff the path is present; opening for writing,
      like [rename] of a present file, succeeds in a directory that
      exists, which the map does not record: the theorems on files that
      a handler writes into a directory other than that of a present
      file take names without folder part, whose directory is made at
      start-up (module [Buffers]);
    - each handler is one atomic step on the shared state (the source
      guards each table with a mutex). *)

From Stdlib Require Import ZArith Ascii String List Bool Lia.
From stdpp Require Import base option list gmap strings pretty.
From Equations Require Import Equations.
From Equations.Prop Require Import Logic.

Local Open Scope Z_scope.

(** ** common/protocol.h *)

Module Protocol.

Definition RESP_SUCCESS : Z := 200.
Definition RESP_SS_INFO : Z := 201.
Definition RESP_DATA : Z := 202.
Definition RESP_ACK : Z := 203.

Definition ERR_FILE_NOT_FOUND : Z := 404.
Definition ERR_PERMISSION_DENIED : Z := 403.
Definition ERR_FILE_LOCKED : Z := 423.
Definition ERR_FILE_EXISTS : Z := 409.
Definition ERR_INVALID_REQUEST : Z := 400.
Definition ERR_SERVER_ERROR : Z := 500.
Definition ERR_SS_UNAVAILABLE : Z := 503.
Definition ERR_SENTENCE_OUT_OF_RANGE : Z := 422.
Definition ERR_WORD_OUT_OF_RANGE : Z := 421.
Definition ERR_REQUEST_NOT_FOUND : Z := 428.

Definition MAX_DATA : nat := 4096.

End Protocol.

(** ** storage_server/sentence_parser.c

    The same four functions are repeated verbatim in
    storage_server/storage_server.c (lines 296-475). *)

Module SentenceParser.

(** [isspace] of the C locale: space, \t, \n, \v, \f, \r. *)
Definition isspace (c : ascii) : bool :=
  let n := nat_of_ascii c in
  (Nat.eqb n 32 || (Nat.leb 9 n && Nat.leb n 13))%bool.

(** [c == '.' || c == '!' || c == '?'] *)
Definition is_delimiter (c : ascii) : bool :=
  (Ascii.eqb c "." || Ascii.eqb c "!" || Ascii.eqb c "?")%bool.

(** The [while (len > 0 && isspace(sentence[len - 1])) len--] loop, run
    on the reversed character list: what is left is the trimmed sentence,
    last character first. *)
Fixpoint trim_trailing (rev_chars : list ascii) : list ascii :=
  match rev_chars with
  | c :: rest => if isspace c then trim_trailing rest else rev_chars
  | [] => []
  end.

Definition sentence_has_delimiter (sentence : string) : bool :=
  match trim_trailing (rev (list_ascii_of_string sentence)) with
  | [] => false                               (* len == 0 *)
  | last :: before =>
      if negb (is_delimiter last) then false
      else match before with
           | second_last :: _ => negb (is_delimiter second_last)
           | [] => true
           end
  end.

(** First pass of [parse_sentences]: the counting loop, returning
    [( *sentence_count, in_sentence)] at the end of the string. *)
Fixpoint count_loop (p : string) (count : nat) (in_sentence : bool)
  : nat * bool :=
  match p with
  | EmptyString => (count, in_sentence)
  | String c rest =>
      if is_delimiter c then count_loop rest (S count) false
      else if (negb in_sentence && negb (isspace c))%bool
           then count_loop rest count true
           else count_loop rest count in_sentence
  end.

Definition count_sentences (content : string) : nat :=
  let '(count, in_sentence) := count_loop content 0%nat false in
  if in_sentence then S count else count.

(** Second pass: the extraction loop
    [while ( *p && idx < *sentence_count)].  [cur] holds the characters
    between [start] and [p]; [skipping] is true while the inner loop
    [while ( *p && isspace( *p)) p++] that follows a delimiter is
    running.  The result is the sentences stored, the text from [start]
    to the end of the string, and the final [idx]. *)
Fixpoint extract_loop (p : string) (skipping : bool) (cur : string)
    (idx count : nat) : list string * string * nat :=
  match p with
  | EmptyString => ([], cur, idx)
  | String c rest =>
      if (skipping && isspace c)%bool then
        extract_loop rest true EmptyString idx count
      else if Nat.ltb idx count then
        if is_delimiter c then
          let '(out, start, idx') :=
            extract_loop rest true EmptyString (S idx) count in
          ((cur +:+ String c EmptyString) :: out, start, idx')
        else extract_loop rest false (cur +:+ String c EmptyString) idx count
      else ([], cur +:+ String c rest, idx)
  end.

Fixpoint all_space (s : string) : bool :=
  match s with
  | EmptyString => true
  | String c rest => (isspace c && all_space rest)%bool
  end.

(** [parse_sentences]: the array of sentences; the [NULL] result, which
    comes with [*sentence_count = 0], is the empty list. *)
Definition parse_sentences (content : string) : list string :=
  if all_space content then []
  else
    let count := count_sentences content in
    if Nat.eqb count 0 then []
    else
      let '(out, start, idx) :=
        extract_loop content false EmptyString 0%nat count in
      if (Nat.ltb idx count && negb (String.eqb start EmptyString))%bool
      then out ++ [start] else out.

(** [strtok(copy, " \t\n")] iterated to exhaustion: the maximal runs of
    characters other than space, tab and newline. *)
Definition is_tok_sep (c : ascii) : bool :=
  (Ascii.eqb c " " || Ascii.eqb c "009" || Ascii.eqb c "010")%bool.

Fixpoint strtok_loop (s : string) (cur : string) : list string :=
  match s with
  | EmptyString =>
      if String.eqb cur EmptyString then [] else [cur]
  | String c rest =>
      if is_tok_sep c then
        if String.eqb cur EmptyString then strtok_loop rest EmptyString
        else cur :: strtok_loop rest EmptyString
      else strtok_loop rest (cur +:+ String c EmptyString)
  end.

Definition parse_words (sentence : string) : list string :=
  strtok_loop sentence EmptyString.

(** [rebuild_sentence]: the words joined by single spaces. *)
Fixpoint rebuild_sentence (words : list string) : string :=
  match words with
  | [] => EmptyString
  | [w] => w
  | w :: rest => w +:+ " " +:+ rebuild_sentence rest
  end.

End SentenceParser.

Import SentenceParser.

(** ** storage_server/lock_manager.c

    The sentence-lock table; storage_server.c carries the same three
    functions (lines 477-550) with the holder field named [locked_by].
    The [locked_at] time stamp is never read and is left out. *)

Module LockManager.

Record SentenceLock := mkSentenceLock {
  filename : string;
  sentence_num : Z;
  username : string
}.

Definition same_sentence (file : string) (num : Z) (l : SentenceLock) : bool :=
  (String.eqb (filename l) file && Z.eqb (sentence_num l) num)%bool.

Fixpoint find_sentence_lock (locks : list SentenceLock) (file : string)
    (num : Z) : option SentenceLock :=
  match locks with
  | [] => None
  | current :: next =>
      if same_sentence file num current then Some current
      else find_sentence_lock next file num
  end.

(** Returns the C result (1 = lock acquired, 0 = already locked) and the
    new table. *)
Definition add_sentence_lock (locks : list SentenceLock) (file : string)
    (num : Z) (user : string) : Z * list SentenceLock :=
  match find_sentence_lock locks file num with
  | Some _ => (0, locks)
  | None => (1, mkSentenceLock file num user :: locks)
  end.

Fixpoint remove_sentence_lock (locks : list SentenceLock) (file : string)
    (num : Z) (user : string) : list SentenceLock :=
  match locks with
  | [] => []
  | current :: next =>
      if (same_sentence file num current
          && String.eqb (username current) user)%bool
      then next
      else current :: remove_sentence_lock next file num user
  end.

End LockManager.

(** ** storage_server/undo_manager.c (and storage_server.c, lines 552-592) *)

Module UndoManager.

Record UndoState := mkUndoState {
  filename : string;
  undo_performed : Z
}.

Fixpoint get_undo_state (undo_states : list UndoState) (file : string)
    : option UndoState :=
  match undo_states with
  | [] => None
  | current :: next =>
      if String.eqb (filename current) file then Some current
      else get_undo_state next file
  end.

Fixpoint update_undo_state (undo_states : list UndoState) (file : string)
    (flag : Z) : option (list UndoState) :=
  match undo_states with
  | [] => None
  | current :: next =>
      if String.eqb (filename current) file
      then Some (mkUndoState (filename current) flag :: next)
      else option_map (cons current) (update_undo_state next file flag)
  end.

Definition set_undo_state (undo_states : list UndoState) (file : string)
    (flag : Z) : list UndoState :=
  match update_undo_state undo_states file flag with
  | Some updated => updated
  | None => mkUndoState file flag :: undo_states
  end.

End UndoManager.

(** ** State of a storage node *)

Module Node.

Record State := mkState {
  ss_id : string;
  files : gmap string string;               (* the disk: path -> bytes *)
  locks : list LockManager.SentenceLock;
  undo_states : list UndoManager.UndoState
}.

Definition BASE_STORAGE_DIR : string := "../storage/".
Definition BASE_BACKUP_DIR : string := "../backups/".

(** [init_storage]: "%s%s/" *)
Definition storage_dir (st : State) : string :=
  BASE_STORAGE_DIR +:+ ss_id st +:+ "/".
Definition backup_dir (st : State) : string :=
  BASE_BACKUP_DIR +:+ ss_id st +:+ "/".

Definition with_files (st : State) (fs : gmap string string) : State :=
  mkState (ss_id st) fs (locks st) (undo_states st).
Definition with_locks (st : State) (l : list LockManager.SentenceLock) : State :=
  mkState (ss_id st) (files st) l (undo_states st).
Definition with_undo_states (st : State) (u : list UndoManager.UndoState)
    : State :=
  mkState (ss_id st) (files st) (locks st) u.

Definition file_exists (fs : gmap string string) (path : string) : bool :=
  bool_decide (is_Some (fs !! path)).

(** [fopen(src,"r"); fopen(dst,"w"); if (src && dst) copy]: nothing is
    copied when the source cannot be opened, but the destination has been
    created (or truncated) by then. *)
Definition copy_file (src dst : string) (fs : gmap string string)
    : gmap string string :=
  match fs !! src with
  | Some bytes => <[dst := bytes]> fs
  | None => <[dst := EmptyString]> fs
  end.

(** [rename(old, new)]: fails, changing nothing, when [old] is missing. *)
Definition rename (old new : string) (fs : gmap string string)
    : gmap string string :=
  match fs !! old with
  | Some bytes => <[new := bytes]> (delete old fs)
  | None => fs
  end.

(** A reply frame: the fields of [struct Message] a handler sets.
    [word_index = None]: the field goes back as it was received. *)
Record Reply := mkReply {
  error_code : Z;
  word_index : option Z;
  data : string
}.

End Node.

(** ** storage_server/storage_server.c: the WRITE and UNDO handlers *)

Module StorageServer.

Import Protocol Node.

(** An edit session: the locals of [case MSG_WRITE] that live across the
    edit loop. *)
Record EditSession := mkEditSession {
  filename : string;
  sentence_num : nat;
  username : string;
  sentences : list string;
  words : list string
}.

(** [strncpy(msg.data, s, sizeof(msg.data) - 1)] *)
Definition strncpy_data (s : string) : string :=
  String.substring 0 (MAX_DATA - 1) s.

Definition strip_cr (line : string) : string :=
  match rev (list_ascii_of_string line) with
  | c :: before =>
      if Ascii.eqb c "013" then string_of_list_ascii (rev before) else line
  | [] => line
  end.

(** The [fgets] loop of lines 717-733: a line that ends in \n loses it,
    a last line without \n loses a final \r, and each line is followed
    by one space.  This is the loop on a file without NUL byte whose
    lines fit [char line[MAX_DATA]] and whose content fits [char
    content[MAX_DATA * 4]] ([Buffers.fits_line_buffer]); a longer line
    comes in pieces of [MAX_DATA - 1] bytes, each followed by a space,
    and [strlen] stops at a NUL byte. *)
Fixpoint read_lines (bytes : string) (line : string) : string :=
  match bytes with
  | EmptyString =>
      if String.eqb line EmptyString then EmptyString
      else strip_cr line +:+ " "
  | String c rest =>
      if Ascii.eqb c "010" then line +:+ " " +:+ read_lines rest EmptyString
      else read_lines rest (line +:+ String c EmptyString)
  end.

Definition read_content (bytes : string) : string :=
  read_lines bytes EmptyString.

Inductive Access :=
| OutOfRange (reply : Reply)
| Granted (sentences : list string).

(** Lines 740-829: which sentence a WRITE may open.  [parsed] is the
    result of [parse_sentences] on the content. *)
Definition check_sentence_access (parsed : list string) (num : Z) : Access :=
  let sentence_count := Z.of_nat (length parsed) in
  if sentence_count =? 0 then
    if negb (num =? 0) then
      OutOfRange (mkReply ERR_SENTENCE_OUT_OF_RANGE (Some 0)
                    "File is empty. Only sentence 0 is accessible.")
    else Granted [EmptyString]
  else if num <? 0 then
    OutOfRange (mkReply ERR_SENTENCE_OUT_OF_RANGE (Some (sentence_count - 1))
                  "Invalid sentence number. Must be non-negative.")
  else if num =? sentence_count then
    if ((sentence_count >? 0)
        && negb (sentence_has_delimiter
                   (parsed !!! Z.to_nat (sentence_count - 1))))%bool
    then
      OutOfRange (mkReply ERR_SENTENCE_OUT_OF_RANGE (Some (sentence_count - 1))
        ("Cannot access sentence " +:+ pretty num +:+ ". Previous sentence "
         +:+ pretty (sentence_count - 1)
         +:+ " must end with a single delimiter (., !, ?)."))
    else Granted (parsed ++ [EmptyString])
  else if num >? sentence_count then
    OutOfRange (mkReply ERR_SENTENCE_OUT_OF_RANGE (Some sentence_count)
      ("Cannot skip sentences. File has " +:+ pretty sentence_count
       +:+ " sentence(s). Can access 0 to " +:+ pretty sentence_count +:+ "."))
  else Granted parsed.

Inductive OpenResult :=
| Refused (reply : Reply) (st : State)
| Opened (reply : Reply) (es : EditSession) (st : State).

(** [case MSG_WRITE], lines 687-869: everything before the edit loop. *)
Definition handle_write (st : State) (msg_filename : string)
    (msg_sentence_num : Z) (msg_username : string) : OpenResult :=
  let filepath := storage_dir st +:+ msg_filename in
  match files st !! filepath with
  | None => Refused (mkReply ERR_FILE_NOT_FOUND None "File not found") st
  | Some bytes =>
      let content := read_content bytes in
      match check_sentence_access (parse_sentences content) msg_sentence_num with
      | OutOfRange reply => Refused reply st
      | Granted sentences =>
          let '(acquired, locks') :=
            LockManager.add_sentence_lock (locks st) msg_filename
              msg_sentence_num msg_username in
          if acquired =? 0 then
            let holder :=
              match LockManager.find_sentence_lock (locks st) msg_filename
                      msg_sentence_num with
              | Some lock => LockManager.username lock
              | None => EmptyString
              end in
            Refused (mkReply ERR_FILE_LOCKED None holder) st
          else
            let current_sentence := sentences !!! Z.to_nat msg_sentence_num in
            Opened (mkReply RESP_SUCCESS None (strncpy_data current_sentence))
              (mkEditSession msg_filename (Z.to_nat msg_sentence_num)
                 msg_username sentences (parse_words current_sentence))
              (with_locks st locks')
      end
  end.

(** [for (i = count - 1; i >= pos; i--) a[i + k] = a[i]], as [n = count -
    pos] iterations counted down; iteration [m] has [i = pos + m]. *)
Fixpoint shift_right (a : list string) (pos k n : nat) : list string :=
  match n with
  | O => a
  | S m => shift_right (<[(pos + m + k)%nat := a !!! (pos + m)%nat]> a) pos k m
  end.

(** [for (; i < ...; i++) a[pos + i] = tokens[i]] from a given [i]. *)
Fixpoint store_from (a : list string) (pos i : nat) (tokens : list string)
    : list string :=
  match tokens with
  | [] => a
  | t :: rest => store_from (<[(pos + i)%nat := t]> a) pos (S i) rest
  end.

(** Lines 1021-1034: [strtok] on a copy of the payload, at most 256 tokens
    ([char *tokens[256]]). *)
Definition tokenize_payload (payload : string) : list string :=
  take 256 (strtok_loop (strncpy_data payload) EmptyString).

(** Lines 1046-1059: [realloc], shift, store. *)
Definition insert_words (words : list string) (insert_pos : nat)
    (tokens : list string) : list string :=
  let tokens_to_insert := length tokens in
  let grown := words ++ replicate tokens_to_insert EmptyString in
  let shifted :=
    shift_right grown insert_pos tokens_to_insert (length words - insert_pos) in
  store_from shifted insert_pos 0 tokens.

(** Lines 1081-1099: the split sentences take the place of the current
    one. *)
Definition splice_sentences (sentences : list string) (num : nat)
    (split : list string) : list string :=
  let split_count := length split in
  let old_sentence_count := length sentences in
  let replaced := <[num := split !!! 0%nat]> sentences in
  let grown := replaced ++ replicate (split_count - 1) EmptyString in
  let shifted :=
    shift_right grown (S num) (split_count - 1) (old_sentence_count - S num) in
  store_from shifted num 1 (tail split).

(** One update frame of the edit loop (lines 996-1141). *)
Definition handle_update (es : EditSession) (word_idx : Z) (payload : string)
    : Reply * EditSession :=
  let word_count := Z.of_nat (length (words es)) in
  if ((word_idx <? 0) || (word_idx >? word_count))%bool then
    (mkReply ERR_WORD_OUT_OF_RANGE (Some word_count)
       ("Word index must be between 0 and " +:+ pretty word_count
        +:+ ". Current word count: " +:+ pretty word_count), es)
  else
    let tokens := tokenize_payload payload in
    match tokens with
    | [] => (mkReply RESP_SUCCESS None
               (strncpy_data (rebuild_sentence (words es))), es)
    | _ :: _ =>
        let words' := insert_words (words es) (Z.to_nat word_idx) tokens in
        let updated_sentence := rebuild_sentence words' in
        let split := parse_sentences updated_sentence in
        if Nat.ltb 1 (length split) then
          let sentences' :=
            splice_sentences (sentences es) (sentence_num es) split in
          let current := sentences' !!! sentence_num es in
          let words'' := parse_words current in
          (mkReply RESP_SUCCESS (Some (Z.of_nat (length words'')))
             (strncpy_data current),
           mkEditSession (filename es) (sentence_num es) (username es)
             sentences' words'')
        else
          (mkReply RESP_SUCCESS (Some (Z.of_nat (length words')))
             (strncpy_data updated_sentence),
           mkEditSession (filename es) (sentence_num es) (username es)
             (sentences es) words')
    end.

(** Lines 925-938 and 960-965: the sentences on one line, a space after
    every non-empty sentence but the last. *)
Fixpoint join_sentences (sentences : list string) : string :=
  match sentences with
  | [] => EmptyString
  | sent :: rest =>
      sent +:+ (if (negb (bool_decide (rest = []))
                    && negb (String.eqb sent EmptyString))%bool
                then " " else EmptyString)
      +:+ join_sentences rest
  end.

(** The ETIRW frame (lines 883-994) and the lock release that follows
    the loop (line 1145), where every [fopen] for writing succeeds: the
    file of the session is present, so that its directory takes the
    temporary file, and its name has no folder part
    ([Buffers.plain_name]), so that the two copies go to the backup
    directory made at start-up.  No directory is made under the backup
    directory by storage_server.c: for a name with a folder part the
    source writes neither copy.  The sidecar is copied with [fgets] and
    [fputs], which is the identity on a file without NUL byte
    ([Buffers.no_nul]). *)
Definition handle_etirw (st : State) (es : EditSession) : Reply * State :=
  let filepath := storage_dir st +:+ filename es in
  let backup_path := backup_dir st +:+ filename es +:+ ".backup" in
  let temp_path := storage_dir st +:+ filename es +:+ ".tmp" in
  let final_backup_path := backup_dir st +:+ filename es in
  let sentences' :=
    <[sentence_num es := rebuild_sentence (words es)]> (sentences es) in
  let full_content := join_sentences sentences' in
  let fs1 :=
    match files st !! filepath with
    | Some bytes => <[backup_path := bytes]> (files st)
    | None => files st
    end in
  let fs2 := <[temp_path := full_content +:+ String "010" EmptyString]> fs1 in
  let fs3 := rename temp_path filepath fs2 in
  let undo' := UndoManager.set_undo_state (undo_states st) (filename es) 0 in
  let fs4 :=
    match fs3 !! filepath with
    | Some bytes =>
        <[final_backup_path := String.substring 0 (MAX_DATA * 10) bytes]> fs3
    | None => fs3
    end in
  let locks' :=
    LockManager.remove_sentence_lock (locks st) (filename es)
      (Z.of_nat (sentence_num es)) (username es) in
  (mkReply RESP_SUCCESS None (strncpy_data full_content),
   mkState (ss_id st) fs4 locks' undo').

(** The session drops ([recv_message] fails): only the lock goes. *)
Definition handle_disconnect (st : State) (es : EditSession) : State :=
  with_locks st
    (LockManager.remove_sentence_lock (locks st) (filename es)
       (Z.of_nat (sentence_num es)) (username es)).

(** [case MSG_UNDO], lines 1288-1386. *)
Definition handle_undo (st : State) (msg_filename : string) : Reply * State :=
  let filepath := storage_dir st +:+ msg_filename in
  let backup_path := backup_dir st +:+ msg_filename +:+ ".backup" in
  if negb (file_exists (files st) filepath) then
    (mkReply ERR_FILE_NOT_FOUND None "File not found", st)
  else if negb (file_exists (files st) backup_path) then
    (mkReply ERR_SERVER_ERROR None
       "No backup available. File has not been modified yet.", st)
  else
    let consecutive :=
      match UndoManager.get_undo_state (undo_states st) msg_filename with
      | Some undo_state => UndoManager.undo_performed undo_state =? 1
      | None => false
      end in
    if consecutive then
      (mkReply ERR_PERMISSION_DENIED None
         "Cannot perform consecutive UNDO. Please modify the file first before undoing again.",
       st)
    else
      let temp_backup := backup_dir st +:+ msg_filename +:+ ".tmp_backup" in
      let fs1 := copy_file filepath temp_backup (files st) in
      match fs1 !! backup_path with
      | None =>
          (mkReply ERR_SERVER_ERROR None "Failed to restore from backup",
           with_files st (<[filepath := EmptyString]> fs1))
      | Some bytes =>
          let fs2 := <[filepath := bytes]> fs1 in
          let fs3 := rename temp_backup backup_path fs2 in
          (mkReply RESP_SUCCESS None "File reverted to previous version",
           mkState (ss_id st) fs3 (locks st)
             (UndoManager.set_undo_state (undo_states st) msg_filename 1))
      end.

End StorageServer.

(** ** storage_server/storage_server_modular.c: the second node program

    Its WRITE handler opens a session like storage_server.c does (lines
    634-785 repeat the checks of [StorageServer.handle_write]); the edit
    loop and the UNDO handler differ. *)

Module StorageServerModular.

Import Protocol Node.
Import StorageServer (EditSession, mkEditSession, filename, sentence_num,
                      username, sentences, words, shift_right).

(** [for (i = word_idx; i < word_count - 1; i++) words[i] = words[i + 1]],
    as [n] iterations from [i]. *)
Fixpoint shift_left (a : list string) (i n : nat) : list string :=
  match n with
  | O => a
  | S m => shift_left (<[i := a !!! S i]> a) (S i) m
  end.

(** Lines 878-888: an empty payload deletes the word at [word_idx]. *)
Definition delete_word (words : list string) (word_idx : nat) : list string :=
  if Nat.ltb word_idx (length words) then
    take (length words - 1)
      (shift_left words word_idx (length words - 1 - word_idx))
  else words.

(** Lines 890-902: the payload goes in whole, as one word.  The loop
    [for (i = word_count - 1; i > word_idx; i--) words[i] = words[i - 1]]
    runs over the grown array; with [j = i - 1] it is [shift_right] by
    one. *)
Definition insert_word (words : list string) (word_idx : nat)
    (payload : string) : list string :=
  let grown := words ++ [EmptyString] in
  let shifted := shift_right grown word_idx 1 (length words - word_idx) in
  <[word_idx := payload]> shifted.

(** One update frame of the edit loop (lines 865-908).  The reply keeps
    the payload it came with in [data]. *)
Definition handle_update (es : EditSession) (word_idx : Z) (payload : string)
    : Reply * EditSession :=
  let word_count := Z.of_nat (length (words es)) in
  if ((word_idx <? 0) || (word_idx >? word_count))%bool then
    (mkReply ERR_WORD_OUT_OF_RANGE (Some word_count)
       ("Invalid word index. Can insert at 0 to " +:+ pretty word_count), es)
  else
    let words' :=
      if Nat.eqb (String.length payload) 0
      then delete_word (words es) (Z.to_nat word_idx)
      else insert_word (words es) (Z.to_nat word_idx) payload in
    (mkReply RESP_SUCCESS (Some (Z.of_nat (length words'))) payload,
     mkEditSession (filename es) (sentence_num es) (username es)
       (sentences es) words').

(** Lines 826-831: a space after every sentence but the last. *)
Fixpoint join_sentences (sentences : list string) : string :=
  match sentences with
  | [] => EmptyString
  | [sent] => sent
  | sent :: rest => sent +:+ " " +:+ join_sentences rest
  end.

(** The ETIRW frame (lines 798-864). *)
Definition handle_etirw (st : State) (es : EditSession) : Reply * State :=
  let filepath := storage_dir st +:+ filename es in
  let backup_path := backup_dir st +:+ filename es +:+ ".backup" in
  let final_backup_path := backup_dir st +:+ filename es in
  let sentences' :=
    <[sentence_num es := rebuild_sentence (words es)]> (sentences es) in
  let fs1 := copy_file filepath backup_path (files st) in
  let fs2 := <[filepath := join_sentences sentences']> fs1 in
  let locks' :=
    LockManager.remove_sentence_lock (locks st) (filename es)
      (Z.of_nat (sentence_num es)) (username es) in
  let undo' := UndoManager.set_undo_state (undo_states st) (filename es) 0 in
  let fs3 :=
    match fs2 !! filepath with
    | Some bytes =>
        <[final_backup_path := String.substring 0 (MAX_DATA * 10) bytes]> fs2
    | None => fs2
    end in
  (mkReply RESP_SUCCESS None "Changes saved",
   mkState (ss_id st) fs3 locks' undo').

(** [case MSG_UNDO], lines 575-632. *)
Definition handle_undo (st : State) (msg_filename : string) : Reply * State :=
  let consecutive :=
    match UndoManager.get_undo_state (undo_states st) msg_filename with
    | Some undo => negb (UndoManager.undo_performed undo =? 0)
    | None => false
    end in
  if consecutive then
    (mkReply ERR_INVALID_REQUEST None "Cannot undo twice consecutively", st)
  else
    let filepath := storage_dir st +:+ msg_filename in
    let backup_path := backup_dir st +:+ msg_filename +:+ ".backup" in
    match files st !! backup_path with
    | None =>
        (mkReply ERR_FILE_NOT_FOUND None "No backup available to undo", st)
    | Some bytes =>
        (mkReply RESP_SUCCESS None "Undo successful",
         mkState (ss_id st) (<[filepath := bytes]> (files st)) (locks st)
           (UndoManager.set_undo_state (undo_states st) msg_filename 1))
    end.

End StorageServerModular.

(** ** naming_server/file_manager.h, access_control.c

    A file record and its ACL and access-request lists; naming_server.c
    repeats the same functions (lines 180-247 and 815-909).  Time stamps,
    cached sizes, folder and checkpoints play no part in what follows and
    are left out. *)

Module AccessControl.

Record AccessControl := mkAccessControl {
  username : string;
  can_read : Z;
  can_write : Z
}.

Record AccessRequestNode := mkAccessRequestNode {
  request_id : Z;
  requester : string;
  access_type : Z;        (* 1=read, 2=write, 3=both *)
  status : Z              (* 0=pending, 1=approved, 2=denied *)
}.

Record FileEntry := mkFileEntry {
  name : string;
  owner : string;
  storage_server_id : string;
  acl : list AccessControl;
  access_requests : list AccessRequestNode
}.

Definition with_acl (entry : FileEntry) (a : list AccessControl) : FileEntry :=
  mkFileEntry (name entry) (owner entry) (storage_server_id entry) a
    (access_requests entry).

Definition with_access_requests (entry : FileEntry)
    (r : list AccessRequestNode) : FileEntry :=
  mkFileEntry (name entry) (owner entry) (storage_server_id entry)
    (acl entry) r.

Definition with_storage_server_id (entry : FileEntry) (id : string)
    : FileEntry :=
  mkFileEntry (name entry) (owner entry) id (acl entry)
    (access_requests entry).

(** A C truth value. *)
Definition c_bool (b : bool) : Z := if b then 1 else 0.

Fixpoint find_acl (l : list AccessControl) (user : string)
    : option AccessControl :=
  match l with
  | [] => None
  | a :: next =>
      if String.eqb (username a) user then Some a else find_acl next user
  end.

Definition check_permission (entry : FileEntry) (user : string)
    (need_write : Z) : Z :=
  if String.eqb (owner entry) user then 1
  else match find_acl (acl entry) user with
       | Some a => if need_write =? 0 then can_read a else can_write a
       | None => 0
       end.

(** The update-in-place loop of [add_access]: [None] when no entry
    carries the name. *)
Fixpoint update_acl (l : list AccessControl) (user : string) (r w : Z)
    : option (list AccessControl) :=
  match l with
  | [] => None
  | a :: next =>
      if String.eqb (username a) user
      then Some (mkAccessControl (username a) r w :: next)
      else option_map (cons a) (update_acl next user r w)
  end.

(** Returns 1 (updated) or 0 (added) and the record. *)
Definition add_access (entry : FileEntry) (user : string) (r w : Z)
    : Z * FileEntry :=
  match update_acl (acl entry) user r w with
  | Some updated => (1, with_acl entry updated)
  | None => (0, with_acl entry (mkAccessControl user r w :: acl entry))
  end.

Fixpoint remove_acl (l : list AccessControl) (user : string)
    : option (list AccessControl) :=
  match l with
  | [] => None
  | a :: next =>
      if String.eqb (username a) user then Some next
      else option_map (cons a) (remove_acl next user)
  end.

(** Returns 1 (removed) or 0 (not found) and the record. *)
Definition remove_access (entry : FileEntry) (user : string) : Z * FileEntry :=
  match remove_acl (acl entry) user with
  | Some rest => (1, with_acl entry rest)
  | None => (0, entry)
  end.

Definition has_pending (l : list AccessRequestNode) (user : string) : bool :=
  existsb (fun req => (String.eqb (requester req) user
                       && (status req =? 0))%bool) l.

(** Returns the id given (or -1), the record and the next free id.
    [next_request_id++] is on a C [int] that starts at 1: the [+ 1] here
    is the source's below [INT_MAX] ([Buffers.counter_in_range]). *)
Definition add_access_request (entry : FileEntry) (user : string)
    (type : Z) (next_request_id : Z) : Z * FileEntry * Z :=
  if has_pending (access_requests entry) user then (-1, entry, next_request_id)
  else
    (next_request_id,
     with_access_requests entry
       (mkAccessRequestNode next_request_id user type 0
          :: access_requests entry),
     next_request_id + 1).

(** The search loop of [respond_to_request]: the first pending request
    with the id gets its status set; its requester and type come back. *)
Fixpoint settle_request (l : list AccessRequestNode) (id approve : Z)
    : option (list AccessRequestNode * AccessRequestNode) :=
  match l with
  | [] => None
  | req :: next =>
      if ((request_id req =? id) && (status req =? 0))%bool then
        Some (mkAccessRequestNode (request_id req) (requester req)
                (access_type req) (if approve =? 0 then 2 else 1) :: next,
              req)
      else
        option_map (fun '(rest, hit) => (req :: rest, hit))
          (settle_request next id approve)
  end.

Definition respond_to_request (entry : FileEntry) (id approve : Z)
    : Z * FileEntry :=
  match settle_request (access_requests entry) id approve with
  | None => (-1, entry)
  | Some (requests', req) =>
      let entry' := with_access_requests entry requests' in
      if approve =? 0 then (0, entry')
      else
        let r := c_bool ((access_type req =? 1) || (access_type req =? 3)) in
        let w := c_bool ((access_type req =? 2) || (access_type req =? 3)) in
        (0, snd (add_access entry' (requester req) r w))
  end.

End AccessControl.

(** ** naming_server/user_session_manager.c (naming_server.c, lines 249-344) *)

Module UserSessionManager.

Record ActiveSession := mkActiveSession {
  username : string;
  client_socket : Z;
  client_ip : string;
  login_time : Z
}.

Fixpoint find_active_session (active_sessions : list ActiveSession)
    (user : string) : option ActiveSession :=
  match active_sessions with
  | [] => None
  | current :: next =>
      if String.eqb (username current) user then Some current
      else find_active_session next user
  end.

(** Returns 1 (added) or 0 (a session exists) and the list; [now] is
    [time(NULL)]. *)
Definition add_active_session (active_sessions : list ActiveSession)
    (user : string) (socket : Z) (ip : string) (now : Z)
    : Z * list ActiveSession :=
  match find_active_session active_sessions user with
  | Some _ => (0, active_sessions)
  | None => (1, mkActiveSession user socket ip now :: active_sessions)
  end.

Fixpoint remove_active_session (active_sessions : list ActiveSession)
    (user : string) : list ActiveSession :=
  match active_sessions with
  | [] => []
  | current :: next =>
      if String.eqb (username current) user then next
      else current :: remove_active_session next user
  end.

(** The user registry keeps names only ([registered_at] is never read). *)
Definition user_exists (registered_users : list string) (user : string)
    : bool :=
  existsb (String.eqb user) registered_users.

Definition register_user (registered_users : list string) (user : string)
    : list string :=
  if user_exists registered_users user then registered_users
  else user :: registered_users.

End UserSessionManager.

(** ** State of the coordinator *)

Module Coordinator.

Record StorageServer := mkStorageServer {
  id : string;
  ip : string;
  nm_port : Z;
  client_port : Z;
  ss_socket : Z;
  is_active : Z;
  failed : Z
}.

(** [struct SSRegistration] *)
Record SSRegistration := mkSSRegistration {
  ss_id : string;
  reg_ip : string;
  reg_nm_port : Z;
  reg_client_port : Z;
  reg_files : list string
}.

(** The registry is the hash table of file_manager.c, keyed by name
    ([add_file] puts a record before an older one of the same name, which
    [lookup_file] then never reaches).  [disk] is the coordinator's own
    directory tree (cache/ and backups/). *)
Record State := mkState {
  file_table : gmap string AccessControl.FileEntry;
  storage_servers : list StorageServer;        (* head first *)
  registered_users : list string;
  active_sessions : list UserSessionManager.ActiveSession;
  next_request_id : Z;
  disk : gmap string string
}.

Definition with_file_table (st : State)
    (t : gmap string AccessControl.FileEntry) : State :=
  mkState t (storage_servers st) (registered_users st) (active_sessions st)
    (next_request_id st) (disk st).

Definition with_storage_servers (st : State) (l : list StorageServer) : State :=
  mkState (file_table st) l (registered_users st) (active_sessions st)
    (next_request_id st) (disk st).

Definition with_disk (st : State) (d : gmap string string) : State :=
  mkState (file_table st) (storage_servers st) (registered_users st)
    (active_sessions st) (next_request_id st) d.

(** A reply frame of the coordinator: result code, [data], and the
    [(ss_ip, ss_port)] pair when the handler fills it. *)
Record Reply := mkReply {
  error_code : Z;
  data : string;
  referral : option (string * Z)
}.

Definition lookup_file (st : State) (filename : string)
    : option AccessControl.FileEntry :=
  file_table st !! filename.

(** [add_file]: a fresh record, no ACL, no requests. *)
Definition add_file (table : gmap string AccessControl.FileEntry)
    (filename file_owner server_id : string)
    : gmap string AccessControl.FileEntry :=
  <[filename := AccessControl.mkFileEntry filename file_owner server_id [] []]>
    table.

(** [sscanf(msg.data, "%s", target_user)]: the first run of non-space
    characters.  On a payload without such a run [sscanf] assigns
    nothing and the source goes on with [target_user] as it is on the
    stack; the empty string returned here stands for no value of the
    source, and the theorems on the target of a request take a payload
    that names a user who fits [char target_user[MAX_USERNAME]]
    ([Buffers.names_user]). *)
Fixpoint scan_word (s : string) (started : bool) : string :=
  match s with
  | EmptyString => EmptyString
  | String c rest =>
      if isspace c then (if started then EmptyString else scan_word rest false)
      else String c (scan_word rest true)
  end.

End Coordinator.

(** ** naming_server/storage_server_manager.c *)

Module StorageServerManager.

Import Coordinator.

(** Get first active storage server (simple selection). *)
Fixpoint get_available_ss (servers : list StorageServer)
    : option StorageServer :=
  match servers with
  | [] => None
  | ss :: next => if is_active ss =? 0 then get_available_ss next else Some ss
  end.

Fixpoint find_ss_by_id (servers : list StorageServer) (server_id : string)
    : option StorageServer :=
  match servers with
  | [] => None
  | ss :: next =>
      if String.eqb (id ss) server_id then Some ss
      else find_ss_by_id next server_id
  end.

(** A server record as both [register_storage_server] bodies fill it. *)
Definition new_storage_server (reg : SSRegistration) : StorageServer :=
  mkStorageServer (ss_id reg) (reg_ip reg) (reg_nm_port reg)
    (reg_client_port reg) (-1) 1 0.

(** Changes the first record with the given id, in place. *)
Fixpoint update_ss (servers : list StorageServer) (server_id : string)
    (f : StorageServer -> StorageServer) : list StorageServer :=
  match servers with
  | [] => []
  | ss :: next =>
      if String.eqb (id ss) server_id then f ss :: next
      else ss :: update_ss next server_id f
  end.

(** The reconnect branch (lines 48-57): address and ports refreshed, the
    record active again; its socket and its place in the list stay. *)
Definition reconnect (reg : SSRegistration) (ss : StorageServer)
    : StorageServer :=
  mkStorageServer (id ss) (reg_ip reg) (reg_nm_port reg) (reg_client_port reg)
    (ss_socket ss) 1 0.

(** Lines 73-96: a known file is given to the reconnecting server, a new
    one is added under the owner "system". *)
Definition adopt_file (server_id : string)
    (table : gmap string AccessControl.FileEntry) (filename : string)
    : gmap string AccessControl.FileEntry :=
  match table !! filename with
  | None => add_file table filename "system" server_id
  | Some existing_file =>
      <[filename := AccessControl.with_storage_server_id existing_file
                      server_id]> table
  end.

(** [register_storage_server] of storage_server_manager.c. *)
Definition register_storage_server (st : State) (reg : SSRegistration)
    : State :=
  match find_ss_by_id (storage_servers st) (ss_id reg) with
  | Some existing_ss =>
      let servers' :=
        update_ss (storage_servers st) (ss_id reg) (reconnect reg) in
      let disk' :=
        foldl (fun d f => delete ("../cache/" +:+ f) d) (disk st)
          (reg_files reg) in
      let table' :=
        foldl (adopt_file (id existing_ss)) (file_table st) (reg_files reg) in
      mkState table' servers' (registered_users st) (active_sessions st)
        (next_request_id st) disk'
  | None =>
      let ss := new_storage_server reg in
      let table' :=
        foldl (fun t f => add_file t f "system" (id ss)) (file_table st)
          (reg_files reg) in
      mkState table' (ss :: storage_servers st) (registered_users st)
        (active_sessions st) (next_request_id st) (disk st)
  end.

End StorageServerManager.

(** ** naming_server/naming_server.c: the coordinator program *)

Module NamingServer.

Import Protocol Coordinator.
Import StorageServerManager (get_available_ss, find_ss_by_id,
                             new_storage_server, update_ss).

(** [register_storage_server] of naming_server.c (lines 602-634): always a
    new record at the head of the list. *)
Definition register_storage_server (st : State) (reg : SSRegistration)
    : State :=
  let ss := new_storage_server reg in
  let table' :=
    foldl (fun t f => add_file t f "system" (id ss)) (file_table st)
      (reg_files reg) in
  mkState table' (ss :: storage_servers st) (registered_users st)
    (active_sessions st) (next_request_id st) (disk st).

(** The [MSG_REGISTER_SS] branch of [handle_client] (lines 972-985): the
    accepted socket becomes the control channel of the first record with
    the id. *)
Definition handle_register_ss (st : State) (reg : SSRegistration)
    (client_socket : Z) : Reply * State :=
  let st' := register_storage_server st reg in
  (mkReply RESP_SUCCESS EmptyString None,
   with_storage_servers st'
     (update_ss (storage_servers st') (ss_id reg)
        (fun ss => mkStorageServer (id ss) (ip ss) (nm_port ss)
                     (client_port ss) client_socket (is_active ss)
                     (failed ss)))).

Inductive Login :=
| Rejected (reply : Reply)       (* the socket is closed *)
| LoggedIn (reply : Reply).

(** The [MSG_REGISTER_CLIENT] branch of [handle_client] (lines 928-971). *)
Definition handle_register_client (format_time : Z -> string) (st : State)
    (msg_username : string) (client_socket : Z) (client_ip : string)
    (now : Z) : Login * State :=
  match UserSessionManager.find_active_session (active_sessions st)
          msg_username with
  | Some existing_session =>
      (Rejected (mkReply ERR_FILE_LOCKED
         ("User '" +:+ msg_username +:+ "' is already logged in from "
          +:+ UserSessionManager.client_ip existing_session +:+ " since "
          +:+ format_time (UserSessionManager.login_time existing_session))
         None), st)
  | None =>
      let users' :=
        UserSessionManager.register_user (registered_users st) msg_username in
      let '(added, sessions') :=
        UserSessionManager.add_active_session (active_sessions st)
          msg_username client_socket client_ip now in
      let st' :=
        mkState (file_table st) (storage_servers st) users'
          sessions' (next_request_id st) (disk st) in
      if added =? 0 then
        (Rejected (mkReply ERR_FILE_LOCKED "Login conflict detected" None), st')
      else
        (LoggedIn (mkReply RESP_SUCCESS
           ("Welcome back, " +:+ msg_username
            +:+ "! Your data is preserved.") None), st')
  end.

(** End of the request loop (lines 1013-1018): [recv_message] fails and
    the session of [client_username] is removed. *)
Definition handle_disconnect (st : State) (client_username : string) : State :=
  mkState (file_table st) (storage_servers st) (registered_users st)
    (UserSessionManager.remove_active_session (active_sessions st)
       client_username)
    (next_request_id st) (disk st).

(** Lines 1048-1081 of [case MSG_CREATE]: the node a new file goes to, or
    the refusal. *)
Definition select_storage_server (st : State) (msg_data : string)
    : Reply + StorageServer :=
  let chosen :=
    if Nat.ltb 0 (String.length msg_data) then
      match find_ss_by_id (storage_servers st) msg_data with
      | None =>
          inl (mkReply ERR_SS_UNAVAILABLE
                 ("Error: Storage server '" +:+ msg_data +:+ "' not found")
                 None)
      | Some ss => inr ss
      end
    else
      match get_available_ss (storage_servers st) with
      | None =>
          inl (mkReply ERR_SS_UNAVAILABLE
                 "Error: No storage server available" None)
      | Some ss => inr ss
      end in
  match chosen with
  | inl reply => inl reply
  | inr ss =>
      if ss_socket ss <? 0 then
        inl (mkReply ERR_SS_UNAVAILABLE
               "Error: Storage server not connected" None)
      else inr ss
  end.

(** [case MSG_CREATE] (lines 1027-1129); [ss_response] is what the chosen
    node answers on its control channel. *)
Definition handle_create (st : State) (client_username msg_filename : string)
    (msg_data : string) (ss_response : Z * string) : Reply * State :=
  match lookup_file st msg_filename with
  | Some _ =>
      (mkReply ERR_FILE_EXISTS
         ("Error: File '" +:+ msg_filename +:+ "' already exists") None, st)
  | None =>
      match select_storage_server st msg_data with
      | inl reply => (reply, st)
      | inr ss =>
          if fst ss_response =? RESP_SUCCESS then
            (mkReply RESP_SUCCESS
               ("File '" +:+ msg_filename +:+ "' created successfully!") None,
             with_file_table st
               (add_file (file_table st) msg_filename client_username (id ss)))
          else (mkReply (fst ss_response) (snd ss_response) None, st)
      end
  end.

(** [case MSG_READ] (lines 1131-1201). *)
Definition handle_read (st : State) (client_username msg_filename : string)
    : Reply * State :=
  match lookup_file st msg_filename with
  | None =>
      (mkReply ERR_FILE_NOT_FOUND
         ("Error: File '" +:+ msg_filename +:+ "' not found") None, st)
  | Some entry =>
      if AccessControl.check_permission entry client_username 0 =? 0 then
        (mkReply ERR_PERMISSION_DENIED
           ("Error: You don't have permission to read '" +:+ msg_filename
            +:+ "'") None, st)
      else
        match find_ss_by_id (storage_servers st)
                (AccessControl.storage_server_id entry) with
        | Some ss =>
            if is_active ss =? 0 then
              (mkReply ERR_SS_UNAVAILABLE "Error: Storage server unavailable"
                 None, st)
            else
              (mkReply RESP_SS_INFO
                 ("Connect to " +:+ ip ss +:+ ":" +:+ pretty (client_port ss))
                 (Some (ip ss, client_port ss)), st)
        | None =>
            (mkReply ERR_SS_UNAVAILABLE "Error: Storage server unavailable"
               None, st)
        end
  end.

(** [case MSG_ADD_ACCESS] (lines 1519-1596). *)
Definition handle_add_access (st : State)
    (client_username msg_filename : string) (msg_flags : Z)
    (msg_data : string) : Reply * State :=
  match lookup_file st msg_filename with
  | None =>
      (mkReply ERR_FILE_NOT_FOUND
         ("Error: File '" +:+ msg_filename +:+ "' not found") None, st)
  | Some entry =>
      if negb (String.eqb (AccessControl.owner entry) client_username) then
        (mkReply ERR_PERMISSION_DENIED
           "Error: Only the owner can grant access" None, st)
      else
        let target_user := scan_word msg_data false in
        if negb (UserSessionManager.user_exists (registered_users st)
                   target_user) then
          (mkReply ERR_INVALID_REQUEST
             ("Error: User '" +:+ target_user +:+ "' not found") None, st)
        else
          let can_read0 := if Z.land msg_flags 1 =? 0 then 0 else 1 in
          let can_write := if Z.land msg_flags 2 =? 0 then 0 else 1 in
          (* Write access implies read access *)
          let can_read := if can_write =? 0 then can_read0 else 1 in
          let '(result, entry') :=
            AccessControl.add_access entry target_user can_read can_write in
          let kind := if can_write =? 0 then "read" else "write" in
          (mkReply RESP_SUCCESS
             (if result =? 0 then
                "Granted " +:+ kind +:+ " access to '" +:+ msg_filename
                +:+ "' for user '" +:+ target_user +:+ "'"
              else
                "Updated access to " +:+ kind +:+ " for user '"
                +:+ target_user +:+ "'") None,
           with_file_table st (<[msg_filename := entry']> (file_table st)))
  end.

(** [case MSG_REM_ACCESS] (lines 1598-1653). *)
Definition handle_rem_access (st : State)
    (client_username msg_filename msg_data : string) : Reply * State :=
  match lookup_file st msg_filename with
  | None =>
      (mkReply ERR_FILE_NOT_FOUND
         ("Error: File '" +:+ msg_filename +:+ "' not found") None, st)
  | Some entry =>
      if negb (String.eqb (AccessControl.owner entry) client_username) then
        (mkReply ERR_PERMISSION_DENIED
           "Error: Only the owner can revoke access" None, st)
      else
        let target_user := scan_word msg_data false in
        (* Prevent owner from removing their own access *)
        if String.eqb target_user client_username then
          (mkReply ERR_INVALID_REQUEST
             "Error: Owner cannot remove their own access" None, st)
        else
          let '(result, entry') :=
            AccessControl.remove_access entry target_user in
          if result =? 1 then
            (mkReply RESP_SUCCESS
               ("Removed all access to '" +:+ msg_filename +:+ "' for user '"
                +:+ target_user +:+ "'") None,
             with_file_table st (<[msg_filename := entry']> (file_table st)))
          else
            (mkReply ERR_INVALID_REQUEST
               ("User '" +:+ target_user +:+ "' did not have access to '"
                +:+ msg_filename +:+ "'") None, st)
  end.

(** [case MSG_REQUESTACCESS] (lines 2431-2466). *)
Definition handle_requestaccess (st : State)
    (client_username msg_filename : string) (msg_flags : Z) : Reply * State :=
  match lookup_file st msg_filename with
  | None => (mkReply ERR_FILE_NOT_FOUND "Error: File not found" None, st)
  | Some entry =>
      (* Can't request access to your own file *)
      if String.eqb (AccessControl.owner entry) client_username then
        (mkReply ERR_INVALID_REQUEST "Error: You already own this file" None,
         st)
      else
        let '(request_id, entry', next') :=
          AccessControl.add_access_request entry client_username msg_flags
            (next_request_id st) in
        if request_id <? 0 then
          (mkReply ERR_FILE_EXISTS
             "Error: You already have a pending request for this file" None,
           st)
        else
          (mkReply RESP_SUCCESS
             ("Access request submitted (ID: " +:+ pretty request_id
              +:+ "). Owner will be notified.") None,
           mkState (<[msg_filename := entry']> (file_table st))
             (storage_servers st) (registered_users st) (active_sessions st)
             next' (disk st))
  end.

(** [case MSG_RESPONDREQUEST] (lines 2498-2532); [msg_flags] is the
    approve flag. *)
Definition handle_respondrequest (st : State)
    (client_username msg_filename : string) (msg_request_id msg_flags : Z)
    : Reply * State :=
  match lookup_file st msg_filename with
  | None => (mkReply ERR_FILE_NOT_FOUND "Error: File not found" None, st)
  | Some entry =>
      if negb (String.eqb (AccessControl.owner entry) client_username) then
        (mkReply ERR_PERMISSION_DENIED
           "Error: Only the file owner can respond to access requests" None,
         st)
      else
        let '(result, entry') :=
          AccessControl.respond_to_request entry msg_request_id msg_flags in
        if result <? 0 then
          (mkReply ERR_REQUEST_NOT_FOUND
             ("Error: Request ID " +:+ pretty msg_request_id
              +:+ " not found or already processed") None, st)
        else
          (mkReply RESP_SUCCESS
             (if msg_flags =? 0 then "Request denied" else "Request approved")
             None,
           with_file_table st (<[msg_filename := entry']> (file_table st)))
  end.

End NamingServer.

(** ** naming_server/naming_server_modular.c: the second coordinator program

    It is built on the manager modules above.  Its login, CREATE and ACL
    handlers repeat those of naming_server.c statement for statement
    (lines 96-135, 185-258, 676-790 and 1471-1560), so the definitions of
    [NamingServer] stand for both; registration of a node and READ
    differ. *)

Module NamingServerModular.

Import Protocol Coordinator.
Import StorageServerManager.

(** The [MSG_REGISTER_SS] branch of [handle_client] (lines 137-150). *)
Definition handle_register_ss (st : State) (reg : SSRegistration)
    (client_socket : Z) : Reply * State :=
  let st' := register_storage_server st reg in
  (mkReply RESP_SUCCESS EmptyString None,
   with_storage_servers st'
     (update_ss (storage_servers st') (ss_id reg)
        (fun ss => mkStorageServer (id ss) (ip ss) (nm_port ss)
                     (client_port ss) client_socket (is_active ss)
                     (failed ss)))).

(** [fread(msg.data, 1, sizeof(msg.data) - 1, f)] *)
Definition fread_data (bytes : string) : string :=
  String.substring 0 (MAX_DATA - 1) bytes.

(** Lines 285-360: the owning node is unknown or inactive.  The source
    also tests [failover_ss != ss]; an active record is never the inactive
    (or missing) owner, so the test adds nothing here.  The source makes
    the directory [./cache] and no directory under it: the cached copy
    is written as here for a name without folder part
    ([Buffers.plain_name]), and not at all for a name in a folder that
    is missing under [./cache]. *)
Definition read_fallback (st : State) (entry : AccessControl.FileEntry)
    (msg_filename : string) : Reply * State :=
  let cache_path := "./cache/" +:+ msg_filename in
  match disk st !! cache_path with
  | Some bytes => (mkReply RESP_SUCCESS (fread_data bytes) None, st)
  | None =>
      let backup_path :=
        "./backups/" +:+ AccessControl.storage_server_id entry +:+ "/"
        +:+ msg_filename in
      match disk st !! backup_path with
      | Some bytes =>
          (mkReply RESP_SUCCESS (fread_data bytes) None,
           with_disk st (<[cache_path := fread_data bytes]> (disk st)))
      | None =>
          match get_available_ss (storage_servers st) with
          | Some failover_ss =>
              (mkReply RESP_SS_INFO
                 ("Failover to " +:+ ip failover_ss +:+ ":"
                  +:+ pretty (client_port failover_ss))
                 (Some (ip failover_ss, client_port failover_ss)),
               with_file_table st
                 (<[msg_filename :=
                      AccessControl.with_storage_server_id entry
                        (id failover_ss)]> (file_table st)))
          | None =>
              (mkReply ERR_SS_UNAVAILABLE
                 "Error: Storage server unavailable and no backup/cache found"
                 None, st)
          end
      end
  end.

(** Is the owning node of the record live? *)
Definition owner_node (st : State) (entry : AccessControl.FileEntry)
    : option StorageServer :=
  match find_ss_by_id (storage_servers st)
          (AccessControl.storage_server_id entry) with
  | Some ss => if is_active ss =? 0 then None else Some ss
  | None => None
  end.

(** [case MSG_READ] (lines 260-373). *)
Definition handle_read (st : State) (client_username msg_filename : string)
    : Reply * State :=
  match lookup_file st msg_filename with
  | None =>
      (mkReply ERR_FILE_NOT_FOUND
         ("Error: File '" +:+ msg_filename +:+ "' not found") None, st)
  | Some entry =>
      if AccessControl.check_permission entry client_username 0 =? 0 then
        (mkReply ERR_PERMISSION_DENIED
           ("Error: You don't have permission to read '" +:+ msg_filename
            +:+ "'") None, st)
      else
        match owner_node st entry with
        | None => read_fallback st entry msg_filename
        | Some ss =>
            (mkReply RESP_SS_INFO
               ("Connect to " +:+ ip ss +:+ ":" +:+ pretty (client_port ss))
               (Some (ip ss, client_port ss)), st)
        end
  end.

End NamingServerModular.

(** ** What the specification says, for comparison with the code *)

Module Spec.

Import Coordinator.

(** "The first currently active node by registration order": the server
    list is kept newest first, so the earliest-registered active node is
    the last active record of the list. *)
Definition first_active_by_registration (servers : list StorageServer)
    : option StorageServer :=
  StorageServerManager.get_available_ss (rev servers).

(** "Write implies read": every ACL entry with [can_write] set has
    [can_read] set. *)
Definition write_implies_read (l : list AccessControl.AccessControl) : Prop :=
  Forall (fun a => AccessControl.can_write a ≠ 0 ->
                   AccessControl.can_read a ≠ 0) l.

(** "The owner never appears in the ACL list." *)
Definition owner_excluded (entry : AccessControl.FileEntry) : Prop :=
  AccessControl.find_acl (AccessControl.acl entry)
    (AccessControl.owner entry) = None.

(** "At most one active session per username." *)
Definition single_session (l : list UserSessionManager.ActiveSession) : Prop :=
  NoDup (map UserSessionManager.username l).

(** The session lists the coordinator can reach: it starts with none, and
    only [add_active_session] and [remove_active_session] touch the list. *)
Inductive sessions_reachable
    : list UserSessionManager.ActiveSession -> Prop :=
| reach_start : sessions_reachable []
| reach_add (l : list UserSessionManager.ActiveSession) (user : string)
    (socket : Z) (ip : string) (now : Z) :
    sessions_reachable l ->
    sessions_reachable
      (snd (UserSessionManager.add_active_session l user socket ip now))
| reach_remove (l : list UserSessionManager.ActiveSession) (user : string) :
    sessions_reachable l ->
    sessions_reachable (UserSessionManager.remove_active_session l user).

(** The number of delimiter characters of a text. *)
Fixpoint count_delimiters (s : string) : nat :=
  match s with
  | EmptyString => 0
  | String c rest =>
      ((if is_delimiter c then 1 else 0) + count_delimiters rest)%nat
  end.

(** "Inserted at [word_index], shifting existing words rightward." *)
Definition inserted_at (words : list string) (pos : nat)
    (tokens : list string) : list string :=
  take pos words ++ tokens ++ drop pos words.

End Spec.

(** ** Concrete states and observations used in the examples *)

Module Scenario.

Import Node StorageServer.

(** The reply of a refused WRITE. *)
Definition refusal (r : OpenResult) : option Reply :=
  match r with
  | Refused reply _ => Some reply
  | Opened _ _ _ => None
  end.

Definition out_of_range (a : Access) : option Reply :=
  match a with
  | OutOfRange reply => Some reply
  | Granted _ => None
  end.

(** A node "SS1" that stores one file. *)
Definition node_with (name bytes : string) : State :=
  mkState "SS1" {[ ("../storage/SS1/" +:+ name)%string := bytes ]} [] [].


(** The node of scenario S5 after a committed edit: the file "notes"
    and its sidecar "notes.backup" exist, and no undo is on record. *)
Definition node_after_edit : State :=
  mkState "SS1"
    {[ "../storage/SS1/notes"%string := "Hello world ."%string;
       "../backups/SS1/notes.backup"%string := "Hello world"%string ]}
    [] [UndoManager.mkUndoState "notes" 0].

(** The coordinator of scenario S1: "alice" owns the file "report" on
    the live node "SS1"; "alice" and "bob" are registered users. *)
Definition coordinator_with_report : Coordinator.State :=
  Coordinator.mkState
    {[ "report"%string :=
         AccessControl.mkFileEntry "report" "alice" "SS1" [] [] ]}
    [Coordinator.mkStorageServer "SS1" "10.0.0.1" 9081 8081 5 1 0]
    ["bob"; "alice"]%string [] 1 ∅.

(** The ACL of a file of the registry. *)
Definition acl_of (st : Coordinator.State) (filename : string)
    : option (list AccessControl.AccessControl) :=
  AccessControl.acl <$> Coordinator.lookup_file st filename.

(** Scenario S6 before the failure detector has any live node to fail
    over to: the file "X" belongs to the node "SS1", which is marked
    failed, and the coordinator holds a cached copy of it. *)
Definition coordinator_node_down : Coordinator.State :=
  Coordinator.mkState
    {[ "X"%string := AccessControl.mkFileEntry "X" "alice" "SS1" [] [] ]}
    [Coordinator.mkStorageServer "SS1" "10.0.0.1" 9081 8081 (-1) 0 1]
    ["alice"%string] [] 1
    {[ "./cache/X"%string := "cached bytes"%string ]}.

Definition empty_coordinator : Coordinator.State :=
  Coordinator.mkState ∅ [] [] [] 1 ∅.

(** Two nodes register, "SS1" first and "SS2" second, with either
    coordinator program. *)
Definition reg_ss1 : Coordinator.SSRegistration :=
  Coordinator.mkSSRegistration "SS1" "10.0.0.1" 9081 8081 [].
Definition reg_ss2 : Coordinator.SSRegistration :=
  Coordinator.mkSSRegistration "SS2" "10.0.0.2" 9082 8082 [].

Definition two_nodes : Coordinator.State :=
  snd (NamingServer.handle_register_ss
         (snd (NamingServer.handle_register_ss empty_coordinator reg_ss1 5))
         reg_ss2 6).

Definition two_nodes_modular : Coordinator.State :=
  snd (NamingServerModular.handle_register_ss
         (snd (NamingServerModular.handle_register_ss empty_coordinator
                 reg_ss1 5))
         reg_ss2 6).

(** The node a CREATE without node id would go to. *)
Definition selected_id (st : Coordinator.State) : option string :=
  match NamingServer.select_storage_server st EmptyString with
  | inr ss => Some (Coordinator.id ss)
  | inl _ => None
  end.

End Scenario.

(** * More of the code

    The modules below embed the rest of the manager files and the
    functions around the handlers above. *)

(** ** naming_server/file_manager.c: the registry as the hash table it is

    [Coordinator.State] keeps the registry as a finite map; this is the
    table itself, with its buckets.  Plain [char] is taken to be signed,
    as on x86. *)

Module FileManager.

Import AccessControl.

Definition HASH_TABLE_SIZE : nat := 1024.

(** Arithmetic on [unsigned int]. *)
Definition wrap32 (z : Z) : Z := z mod 2 ^ 32.

(** [c = *str++] for a signed [char]. *)
Definition char_value (c : ascii) : Z :=
  let n := Z.of_nat (nat_of_ascii c) in
  if n <? 128 then n else n - 256.

Fixpoint hash_loop (str : string) (hash : Z) : Z :=
  match str with
  | EmptyString => hash
  | String c rest =>
      hash_loop rest
        (wrap32 (wrap32 (wrap32 (Z.shiftl hash 5) + hash) + char_value c))
  end.

Definition hash_function (str : string) : nat :=
  Z.to_nat (hash_loop str 5381 mod Z.of_nat HASH_TABLE_SIZE).

(** [init_file_table]: every bucket empty. *)
Definition init_file_table : list (list FileEntry) :=
  replicate HASH_TABLE_SIZE [].

(** [add_file]: a fresh record at the head of its bucket. *)
Definition add_file (table : list (list FileEntry))
    (filename file_owner server_id : string) : list (list FileEntry) :=
  let index := hash_function filename in
  <[index := mkFileEntry filename file_owner server_id [] []
             :: table !!! index]> table.

Fixpoint find_entry (bucket : list FileEntry) (filename : string)
    : option FileEntry :=
  match bucket with
  | [] => None
  | current :: next =>
      if String.eqb (name current) filename then Some current
      else find_entry next filename
  end.

Definition lookup_file (table : list (list FileEntry)) (filename : string)
    : option FileEntry :=
  find_entry (table !!! hash_function filename) filename.

Fixpoint remove_entry (bucket : list FileEntry) (filename : string)
    : option (list FileEntry) :=
  match bucket with
  | [] => None
  | current :: next =>
      if String.eqb (name current) filename then Some next
      else option_map (cons current) (remove_entry next filename)
  end.

(** Returns 1 (deleted) or 0 (no such file) and the table. *)
Definition delete_file_entry (table : list (list FileEntry))
    (filename : string) : Z * list (list FileEntry) :=
  let index := hash_function filename in
  match remove_entry (table !!! index) filename with
  | Some bucket => (1, <[index := bucket]> table)
  | None => (0, table)
  end.

End FileManager.

(** ** naming_server/checkpoint_manager.c

    The functions work on the checkpoint list of one file record;
    [size] is the [info.size] of that record. *)

Module CheckpointManager.

Record CheckpointEntry := mkCheckpointEntry {
  tag : string;
  creator : string;
  created_at : Z;
  size : Z
}.

Fixpoint find_checkpoint (checkpoints : list CheckpointEntry) (t : string)
    : option CheckpointEntry :=
  match checkpoints with
  | [] => None
  | cp :: next =>
      if String.eqb (tag cp) t then Some cp else find_checkpoint next t
  end.

(** Returns 0 (added) or -1 (the tag exists) and the list; [now] is
    [time(NULL)]. *)
Definition add_checkpoint (checkpoints : list CheckpointEntry)
    (t who : string) (now file_size : Z) : Z * list CheckpointEntry :=
  match find_checkpoint checkpoints t with
  | Some _ => (-1, checkpoints)
  | None => (0, mkCheckpointEntry t who now file_size :: checkpoints)
  end.

End CheckpointManager.

(** ** naming_server/search_manager.c: the cache of search results *)

Module SearchManager.

Definition SEARCH_CACHE_SIZE : Z := 50.

Record SearchCacheEntry := mkSearchCacheEntry {
  query : string;
  results : string;
  timestamp : Z
}.

(** [search_cache] and [search_cache_count]. *)
Record Cache := mkCache {
  search_cache : list SearchCacheEntry;
  search_cache_count : Z
}.

Definition init_search_cache : Cache := mkCache [] 0.

(** The update loop of [cache_search_result]: [None] when the query is
    not cached. *)
Fixpoint refresh_entry (l : list SearchCacheEntry) (q r : string) (now : Z)
    : option (list SearchCacheEntry) :=
  match l with
  | [] => None
  | current :: next =>
      if String.eqb (query current) q
      then Some (mkSearchCacheEntry (query current) r now :: next)
      else option_map (cons current) (refresh_entry next q r now)
  end.

(** The scan for the oldest entry (lines 41-56): [i] is the position of
    [current], the result the position of [oldest]. *)
Fixpoint oldest_scan (l : list SearchCacheEntry) (i : nat)
    (oldest_time : Z) (oldest : nat) : nat :=
  match l with
  | [] => oldest
  | current :: next =>
      if timestamp current <? oldest_time
      then oldest_scan next (S i) (timestamp current) i
      else oldest_scan next (S i) oldest_time oldest
  end.

Definition oldest_index (l : list SearchCacheEntry) : nat :=
  match l with
  | [] => 0%nat
  | head :: _ => oldest_scan l 0 (timestamp head) 0
  end.

(** [cache_search_result]; [now] is [time(NULL)].  The source copies
    the query with [strncpy] into [char query[MAX_FILENAME]] and the
    results into [char results[MAX_DATA]], one byte less than the
    buffer each, into memory from [malloc]: the entry holds the two
    strings as here when they are shorter than that
    ([Buffers.fits_cache_entry]). *)
Definition cache_search_result (c : Cache) (q r : string) (now : Z) : Cache :=
  match refresh_entry (search_cache c) q r now with
  | Some l => mkCache l (search_cache_count c)
  | None =>
      let evicted :=
        if search_cache_count c >=? SEARCH_CACHE_SIZE
        then mkCache (delete (oldest_index (search_cache c)) (search_cache c))
               (search_cache_count c - 1)
        else c in
      mkCache (mkSearchCacheEntry q r now :: search_cache evicted)
        (search_cache_count evicted + 1)
  end.

(** The loop of [get_cached_search]: a hit gets a new time stamp. *)
Fixpoint touch_entry (l : list SearchCacheEntry) (q : string) (now : Z)
    : option (string * list SearchCacheEntry) :=
  match l with
  | [] => None
  | current :: next =>
      if String.eqb (query current) q
      then Some (results current,
                 mkSearchCacheEntry (query current) (results current) now
                   :: next)
      else option_map (fun '(r, rest) => (r, current :: rest))
             (touch_entry next q now)
  end.

Definition get_cached_search (c : Cache) (q : string) (now : Z)
    : option string * Cache :=
  match touch_entry (search_cache c) q now with
  | Some (r, l) => (Some r, mkCache l (search_cache_count c))
  | None => (None, c)
  end.

Definition invalidate_search_cache (c : Cache) : Cache := mkCache [] 0.

End SearchManager.

(** ** naming_server/folder_manager.c *)

Module FolderManager.

Definition RESP_SUCCESS : Z := 200.





End FolderManager.

(** ** storage_server/storage_server.c: files of a node (lines 188-272)

    Directories are not part of the file-system map, so the [mkdir] calls
    of [create_file] leave no trace. *)

Module FileOperations.

Import Protocol Node.




End FileOperations.

(** ** storage_server/storage_server_modular.c: opening and dropping a
    WRITE session

    Lines 634-785 open the session as storage_server.c does: the same
    reading loop and the same checks, with shorter texts in two of the
    refusals.  When the connection drops in the edit loop (lines 792-796)
    the loop is left and the arrays are freed (lines 910-923);
    [remove_sentence_lock] is called in the ETIRW branch only. *)

Module StorageServerModularSession.

Import Protocol Node StorageServer.

(** Lines 685-749. *)
Definition check_sentence_access (parsed : list string) (num : Z) : Access :=
  let sentence_count := Z.of_nat (length parsed) in
  if sentence_count =? 0 then
    if negb (num =? 0) then
      OutOfRange (mkReply ERR_SENTENCE_OUT_OF_RANGE (Some 0)
                    "File is empty. Only sentence 0 is accessible.")
    else Granted [EmptyString]
  else if num <? 0 then
    OutOfRange (mkReply ERR_SENTENCE_OUT_OF_RANGE (Some (sentence_count - 1))
                  "Invalid sentence number. Must be non-negative.")
  else if num =? sentence_count then
    if ((sentence_count >? 0)
        && negb (sentence_has_delimiter
                   (parsed !!! Z.to_nat (sentence_count - 1))))%bool
    then
      OutOfRange (mkReply ERR_SENTENCE_OUT_OF_RANGE (Some (sentence_count - 1))
        ("Cannot access sentence " +:+ pretty num
         +:+ ". Previous sentence must end with delimiter."))
    else Granted (parsed ++ [EmptyString])
  else if num >? sentence_count then
    OutOfRange (mkReply ERR_SENTENCE_OUT_OF_RANGE (Some sentence_count)
      ("Cannot skip sentences. Can access 0 to " +:+ pretty sentence_count
       +:+ "."))
  else Granted parsed.

(** [case MSG_WRITE], lines 634-785: everything before the edit loop. *)
Definition handle_write (st : State) (msg_filename : string)
    (msg_sentence_num : Z) (msg_username : string) : OpenResult :=
  let filepath := storage_dir st +:+ msg_filename in
  match files st !! filepath with
  | None => Refused (mkReply ERR_FILE_NOT_FOUND None "File not found") st
  | Some bytes =>
      let content := read_content bytes in
      match check_sentence_access (parse_sentences content) msg_sentence_num with
      | OutOfRange reply => Refused reply st
      | Granted sentences =>
          let '(acquired, locks') :=
            LockManager.add_sentence_lock (locks st) msg_filename
              msg_sentence_num msg_username in
          if acquired =? 0 then
            let holder :=
              match LockManager.find_sentence_lock (locks st) msg_filename
                      msg_sentence_num with
              | Some lock => LockManager.username lock
              | None => EmptyString
              end in
            Refused (mkReply ERR_FILE_LOCKED None holder) st
          else
            let current_sentence := sentences !!! Z.to_nat msg_sentence_num in
            Opened (mkReply RESP_SUCCESS None (strncpy_data current_sentence))
              (mkEditSession msg_filename (Z.to_nat msg_sentence_num)
                 msg_username sentences (parse_words current_sentence))
              (with_locks st locks')
      end
  end.

(** The session drops ([recv_message] fails, lines 792-796): nothing of
    the node changes, the lock of the session included. *)
Definition handle_disconnect (st : State) (es : EditSession) : State := st.

End StorageServerModularSession.

(** ** naming_server/naming_server.c: the referral for WRITE and UNDO

    Lines 1796-1858 and 1860-1905; naming_server_modular.c has the same
    two cases (lines 1002-1083). *)

Module NamingServerReferral.

Import Protocol Coordinator.

(** The two cases differ in their texts only: [denied] and [purpose]. *)
Definition refer_writer (denied purpose : string) (st : State)
    (client_username msg_filename : string) : Reply :=
  match lookup_file st msg_filename with
  | None =>
      mkReply ERR_FILE_NOT_FOUND
        ("Error: File '" +:+ msg_filename +:+ "' not found") None
  | Some entry =>
      if AccessControl.check_permission entry client_username 1 =? 0 then
        mkReply ERR_PERMISSION_DENIED denied None
      else
        match StorageServerManager.find_ss_by_id (storage_servers st)
                (AccessControl.storage_server_id entry) with
        | Some ss =>
            if is_active ss =? 0 then
              mkReply ERR_SS_UNAVAILABLE "Error: Storage server unavailable"
                None
            else
              mkReply RESP_SS_INFO
                ("Connect to " +:+ ip ss +:+ ":" +:+ pretty (client_port ss)
                 +:+ purpose)
                (Some (ip ss, client_port ss))
        | None =>
            mkReply ERR_SS_UNAVAILABLE "Error: Storage server unavailable"
              None
        end
  end.

(** [case MSG_WRITE] *)
Definition handle_write : State -> string -> string -> Reply :=
  refer_writer "Error: You don't have write permission" " for write".

(** [case MSG_UNDO] *)
Definition handle_undo : State -> string -> string -> Reply :=
  refer_writer "Error: You need write permission to undo" " for undo".

End NamingServerReferral.

(** * Reference functions, histories and states

    What the properties of the second part below are stated with. *)

(** ** Reference functions for the parser

    What the two tokenisers are compared with: the text of a buffer
    without its white space, the concatenation of an array of strings,
    and the strings [strtok] can return for the separators
    [" \t\n"]. *)

Module Text.

Fixpoint non_space (s : string) : string :=
  match s with
  | EmptyString => EmptyString
  | String c rest => if isspace c then non_space rest else String c (non_space rest)
  end.

Fixpoint sentences_text (l : list string) : string :=
  match l with
  | [] => EmptyString
  | s :: rest => s +:+ sentences_text rest
  end.

Fixpoint has_tok_sep (s : string) : bool :=
  match s with
  | EmptyString => false
  | String c rest => (is_tok_sep c || has_tok_sep rest)%bool
  end.

Fixpoint remove_tok_seps (s : string) : string :=
  match s with
  | EmptyString => EmptyString
  | String c rest =>
      if is_tok_sep c then remove_tok_seps rest
      else String c (remove_tok_seps rest)
  end.

Definition is_word (w : string) : Prop :=
  w <> EmptyString /\ has_tok_sep w = false.

End Text.

Import Text.

(** ** Histories of the two tables of a node

    The tables of lock_manager.c and undo_manager.c start empty and
    change only through their own functions; a history is the list of
    calls made so far. *)

Module Traces.

Inductive LockOp :=
| Acquire (file : string) (num : Z) (user : string)
| Release (file : string) (num : Z) (user : string).

Definition lock_step (locks : list LockManager.SentenceLock) (op : LockOp)
    : list LockManager.SentenceLock :=
  match op with
  | Acquire file num user =>
      snd (LockManager.add_sentence_lock locks file num user)
  | Release file num user =>
      LockManager.remove_sentence_lock locks file num user
  end.

Definition run_lock_ops (ops : list LockOp) : list LockManager.SentenceLock :=
  fold_left lock_step ops [].

Definition lock_key (l : LockManager.SentenceLock) : string * Z :=
  (LockManager.filename l, LockManager.sentence_num l).

(** A call [set_undo_state(file, flag)]. *)
Definition undo_step (states : list UndoManager.UndoState)
    (op : string * Z) : list UndoManager.UndoState :=
  UndoManager.set_undo_state states (fst op) (snd op).

Definition run_undo_ops (ops : list (string * Z))
    : list UndoManager.UndoState :=
  fold_left undo_step ops [].

(** The flag of the last call for [file], if any. *)
Fixpoint last_flag (ops : list (string * Z)) (file : string) : option Z :=
  match ops with
  | [] => None
  | (f, flag) :: rest =>
      match last_flag rest file with
      | Some later => Some later
      | None => if String.eqb f file then Some flag else None
      end
  end.

End Traces.

(** ** Histories of a file record

    The ACL and the request list of a record start empty ([add_file])
    and change only through access_control.c. *)

Module RecordTraces.

Import AccessControl.

Inductive AclOp :=
| Grant (user : string) (r w : Z)       (* add_access *)
| Revoke (user : string).               (* remove_access *)

Definition acl_step (entry : FileEntry) (op : AclOp) : FileEntry :=
  match op with
  | Grant user r w => snd (add_access entry user r w)
  | Revoke user => snd (remove_access entry user)
  end.

Definition run_acl_ops (entry : FileEntry) (ops : list AclOp) : FileEntry :=
  fold_left acl_step ops entry.

(** The rights the ACL gives [user]. *)
Definition rights_of (l : list AccessControl.AccessControl) (user : string)
    : option (Z * Z) :=
  (fun a => (can_read a, can_write a)) <$> find_acl l user.

(** The rights the last call for [user] left, if it was a grant. *)
Definition rights_step (user : string) (rights : option (Z * Z))
    (op : AclOp) : option (Z * Z) :=
  match op with
  | Grant u r w => if String.eqb u user then Some (r, w) else rights
  | Revoke u => if String.eqb u user then None else rights
  end.

Definition last_rights (ops : list AclOp) (user : string) : option (Z * Z) :=
  fold_left (rights_step user) ops None.

(** Requests and answers on one record; [Elsewhere] is a request made on
    another file, which takes an id from the same counter. *)
Inductive RequestOp :=
| Request (user : string) (type : Z)
| Respond (id approve : Z)
| Elsewhere.

Definition request_step (s : FileEntry * Z) (op : RequestOp)
    : FileEntry * Z :=
  let '(entry, next_request_id) := s in
  match op with
  | Request user type =>
      let '(_, entry', next') :=
        add_access_request entry user type next_request_id in
      (entry', next')
  | Respond id approve =>
      (snd (respond_to_request entry id approve), next_request_id)
  | Elsewhere => (entry, next_request_id + 1)
  end.

Definition run_request_ops (entry : FileEntry) (next_request_id : Z)
    (ops : list RequestOp) : FileEntry * Z :=
  fold_left request_step ops (entry, next_request_id).

Definition pending (req : AccessRequestNode) : bool := status req =? 0.

(** Ids are distinct and were drawn from the counter since [first], and
    nobody has two pending requests. *)
Definition requests_ok (first : Z) (s : FileEntry * Z) : Prop :=
  NoDup (request_id <$> access_requests (fst s))
  /\ NoDup (requester <$> filter pending (access_requests (fst s)))
  /\ Forall (fun req => first <= request_id req < snd s)
       (access_requests (fst s)).

End RecordTraces.

(** ** What a client sees of the coordinator *)

Module Observation.

Import Coordinator.

(** The replies to READ, WRITE and UNDO on a file. *)
Definition replies (st : State) (user filename : string)
    : Reply * Reply * Reply :=
  (fst (NamingServer.handle_read st user filename),
   NamingServerReferral.handle_write st user filename,
   NamingServerReferral.handle_undo st user filename).

Definition denied (reply : Reply) : Prop :=
  error_code reply = Protocol.ERR_PERMISSION_DENIED.

End Observation.

(** ** Histories of the node list, and two more states for the examples *)

Module NodeTraces.

Import Coordinator.

(** A node registration as naming_server_modular.c handles it: the
    request and the socket it came on. *)
Definition registration_step (st : State) (r : SSRegistration * Z) : State :=
  snd (NamingServerModular.handle_register_ss st (fst r) (snd r)).

Definition run_registrations (st : State) (l : list (SSRegistration * Z))
    : State :=
  fold_left registration_step l st.

(** The file "X" of the failed node "SS1" is in the coordinator's backup
    directory and not in its cache; no other node is known. *)
Definition coordinator_backup_only : State :=
  mkState
    {[ "X"%string := AccessControl.mkFileEntry "X" "alice" "SS1" [] [] ]}
    [mkStorageServer "SS1" "10.0.0.1" 9081 8081 (-1) 0 1]
    ["alice"%string] [] 1
    {[ "./backups/SS1/X"%string := "saved bytes"%string ]}.

(** The same file with neither backup nor cache, and a second, live
    node "SS2". *)
Definition coordinator_failover : State :=
  mkState
    {[ "X"%string := AccessControl.mkFileEntry "X" "alice" "SS1" [] [] ]}
    [mkStorageServer "SS2" "10.0.0.2" 9082 8082 6 1 0;
     mkStorageServer "SS1" "10.0.0.1" 9081 8081 (-1) 0 1]
    ["alice"%string] [] 1 ∅.

End NodeTraces.

(** ** Histories of the folder list and of the search cache *)

Module ManagerTraces.

Import FolderManager SearchManager.





Inductive CacheOp :=
| Store (q r : string) (now : Z)          (* cache_search_result *)
| Fetch (q : string) (now : Z)            (* get_cached_search *)
| Invalidate.                             (* invalidate_search_cache *)

Definition cache_step (c : Cache) (op : CacheOp) : Cache :=
  match op with
  | Store q r now => cache_search_result c q r now
  | Fetch q now => snd (get_cached_search c q now)
  | Invalidate => invalidate_search_cache c
  end.

Definition run_cache_ops (ops : list CacheOp) : Cache :=
  fold_left cache_step ops init_search_cache.

(** Count and list agree, the cache is within its size, and no query is
    cached twice. *)
Definition cache_ok (c : Cache) : Prop :=
  search_cache_count c = Z.of_nat (length (search_cache c))
  /\ search_cache_count c <= SEARCH_CACHE_SIZE
  /\ NoDup (query <$> search_cache c).

End ManagerTraces.

(** ** Histories of the checkpoint list of a file *)

Module CheckpointTraces.

Import CheckpointManager.

(** A call [add_checkpoint(entry, tag, creator)] at time [created_at]
    on a record of size [size]; the call is described by the entry it
    would make. *)
Definition checkpoint_step (checkpoints : list CheckpointEntry)
    (op : CheckpointEntry) : list CheckpointEntry :=
  snd (add_checkpoint checkpoints (tag op) (creator op) (created_at op)
         (size op)).

Definition run_checkpoint_ops (ops : list CheckpointEntry)
    : list CheckpointEntry :=
  fold_left checkpoint_step ops [].

(** The first call made with the tag [t]. *)
Fixpoint first_checkpoint (ops : list CheckpointEntry) (t : string)
    : option CheckpointEntry :=
  match ops with
  | [] => None
  | op :: rest =>
      if String.eqb (tag op) t then Some op else first_checkpoint rest t
  end.

End CheckpointTraces.

(** * The domain of the models

    Where a model above leaves the size of a buffer, the range of a
    counter or the existence of a directory implicit, the theorems that
    depend on it say so with the predicates of this module. *)

Module Buffers.

Import Protocol.

(** common/protocol.h *)
Definition MAX_FILENAME : nat := 256.
Definition MAX_USERNAME : nat := 256.

Definition INT_MAX : Z := 2147483647.

(** No NUL byte: [strlen] and [fputs] see the whole string. *)
Definition no_nul (s : string) : bool :=
  forallb (fun c => negb (Ascii.eqb c "000")) (list_ascii_of_string s).

(** A file that the [fgets] loop of WRITE reads whole: no NUL byte and
    fewer than [MAX_DATA] bytes, so that [fgets] returns whole lines in
    [char line[MAX_DATA]], and the lines, a space after each, fit [char
    content[MAX_DATA * 4]]. *)
Definition fits_line_buffer (bytes : string) : bool :=
  (no_nul bytes && (String.length bytes <? MAX_DATA)%nat)%bool.

(** A name without folder part: its path under a directory is a file of
    that directory. *)
Definition plain_name (name : string) : bool :=
  (negb (String.eqb name EmptyString)
   && negb (String.eqb name ".") && negb (String.eqb name "..")
   && forallb (fun c => negb (Ascii.eqb c "/"))
        (list_ascii_of_string name))%bool.

(** [sscanf(data, "%s", target_user)] assigns [target_user] and stays
    within [char target_user[MAX_USERNAME]]. *)
Definition names_user (data : string) : bool :=
  let target_user := Coordinator.scan_word data false in
  (negb (String.eqb target_user EmptyString)
   && (String.length target_user <? MAX_USERNAME)%nat)%bool.

(** [next_request_id], a C [int] that starts at 1 and takes at most one
    [++] per step, stays below [INT_MAX] over the history. *)
Definition counter_in_range (first : Z) (ops : list RecordTraces.RequestOp)
    : bool :=
  ((1 <=? first) && (first + Z.of_nat (length ops) <=? INT_MAX))%bool.

(** [strncpy(entry->query, query, sizeof(entry->query) - 1)] and
    [strncpy(entry->results, results, sizeof(entry->results) - 1)] copy
    the strings whole, with their NUL. *)
Definition fits_cache_entry (q r : string) : bool :=
  ((String.length q <? MAX_FILENAME - 1)%nat
   && (String.length r <? MAX_DATA - 1)%nat)%bool.

Definition store_fits (op : ManagerTraces.CacheOp) : bool :=
  match op with
  | ManagerTraces.Store q r _ => fits_cache_entry q r
  | _ => true
  end.

End Buffers.

(** * Properties *)

(** ** The sentence parser *)

Module ParserFacts.

Import Spec.

Lemma count_loop_delimiters (p : string) (count : nat) (in_sentence : bool) :
  fst (count_loop p count in_sentence) = (count + count_delimiters p)%nat.
Proof.
  revert count in_sentence.
  induction p as [|c rest IH]; intros count in_sentence; simpl.
  - lia.
  - destruct (is_delimiter c); [rewrite IH; lia|].
    destruct (negb in_sentence && negb (isspace c))%bool; rewrite IH; lia.
Qed.

(** Every delimiter is counted, and at most one more sentence. *)
Lemma count_sentences_bounds (content : string) :
  (count_delimiters content <= count_sentences content
   <= S (count_delimiters content))%nat.
Proof.
  unfold count_sentences.
  pose proof (count_loop_delimiters content 0 false) as H.
  destruct (count_loop content 0 false) as [count in_sentence].
  simpl in H. subst count. destruct in_sentence; lia.
Qed.

(** The extraction loop stores one sentence per delimiter it meets. *)
Lemma extract_loop_length (p : string) (skipping : bool) (cur : string)
    (idx count : nat) :
  (idx + count_delimiters p <= count)%nat ->
  let '(out, _, idx') := extract_loop p skipping cur idx count in
  length out = count_delimiters p /\ idx' = (idx + count_delimiters p)%nat.
Proof.
  revert skipping cur idx.
  induction p as [|c rest IH]; intros skipping cur idx Hle; simpl in *.
  - split; [reflexivity | lia].
  - destruct (skipping && isspace c)%bool eqn:Hskip.
    + apply andb_prop in Hskip as [_ Hsp].
      assert (is_delimiter c = false) as Hd.
      { revert Hsp. unfold isspace, is_delimiter.
        destruct c as [[] [] [] [] [] [] [] []]; vm_compute; congruence. }
      rewrite Hd in *. apply IH. exact Hle.
    + destruct (Nat.ltb idx count) eqn:Hlt.
      * destruct (is_delimiter c) eqn:Hd.
        -- specialize (IH true EmptyString (S idx)).
           destruct (extract_loop rest true EmptyString (S idx) count)
             as [[out start] idx'].
           destruct IH as [IH1 IH2]; [lia|].
           simpl. split; [congruence | lia].
        -- apply IH. exact Hle.
      * apply Nat.ltb_ge in Hlt.
        destruct (is_delimiter c); simpl; split; lia.
Qed.

(** While the counting loop is inside a sentence, the extraction loop has
    a non-empty pending text and is not skipping spaces. *)
Lemma extract_loop_start (p : string) (skipping : bool) (cur : string)
    (idx count n : nat) (in_sentence : bool) :
  (idx + count_delimiters p < count)%nat ->
  (skipping = true -> in_sentence = false) ->
  (in_sentence = true -> cur <> EmptyString) ->
  snd (count_loop p n in_sentence) = true ->
  let '(_, start, _) := extract_loop p skipping cur idx count in
  start <> EmptyString.
Proof.
  revert skipping cur idx n in_sentence.
  induction p as [|c rest IH];
    intros skipping cur idx n in_sentence Hlt Hsk Hcur Hend; simpl in *.
  - auto.
  - assert (forall s, s +:+ String c EmptyString <> EmptyString) as Hne.
    { intros s. destruct s; discriminate. }
    destruct (is_delimiter c) eqn:Hd.
    + assert (isspace c = false) as Hsp.
      { revert Hd. unfold isspace, is_delimiter.
        destruct c as [[] [] [] [] [] [] [] []]; vm_compute; congruence. }
      rewrite Hsp, andb_false_r.
      assert (Nat.ltb idx count = true) as ->.
      { apply Nat.ltb_lt. lia. }
      specialize (IH true EmptyString (S idx) (S n) false).
      destruct (extract_loop rest true EmptyString (S idx) count)
        as [[out start] idx'].
      apply IH; [lia | reflexivity | discriminate | exact Hend].
    + destruct (skipping && isspace c)%bool eqn:Hskip.
      * apply andb_prop in Hskip as [-> Hsp].
        rewrite (Hsk eq_refl) in *. rewrite Hsp in Hend. simpl in Hend.
        apply (IH true EmptyString idx n false);
          [exact Hlt | reflexivity | discriminate | exact Hend].
      * assert (Nat.ltb idx count = true) as ->.
        { apply Nat.ltb_lt. lia. }
        destruct (negb in_sentence && negb (isspace c))%bool;
          (eapply (IH false _ idx n);
           [exact Hlt | discriminate | intros _; apply Hne | exact Hend]).
Qed.

(** The array [parse_sentences] fills has the length it reports in
    [*sentence_count]. *)
Lemma parse_sentences_length (content : string) :
  length (parse_sentences content)
  = if all_space content then 0%nat else count_sentences content.
Proof.
  unfold parse_sentences.
  destruct (all_space content); [reflexivity|].
  destruct (Nat.eqb (count_sentences content) 0) eqn:Hz.
  { apply Nat.eqb_eq in Hz. rewrite Hz. reflexivity. }
  pose proof (count_loop_delimiters content 0 false) as Hc.
  pose proof (extract_loop_length content false EmptyString 0
                (count_sentences content)) as Hlen.
  pose proof (extract_loop_start content false EmptyString 0
                (count_sentences content) 0 false) as Hstart.
  unfold count_sentences in *.
  destruct (count_loop content 0 false) as [count in_sentence].
  simpl in Hc. subst count.
  destruct (extract_loop content false EmptyString 0 _)
    as [[out start] idx].
  simpl in *.
  destruct in_sentence.
  - destruct Hlen as [Hl ->]; [lia|].
    assert (start <> EmptyString) as Hs.
    { apply Hstart; [lia | reflexivity | discriminate | reflexivity]. }
    assert (Nat.ltb (count_delimiters content)
              (S (count_delimiters content)) = true) as ->.
    { apply Nat.ltb_lt. lia. }
    destruct (String.eqb_spec start EmptyString) as [|_]; [contradiction|].
    simpl. rewrite length_app. simpl. lia.
  - destruct Hlen as [Hl ->]; [lia|].
    rewrite Nat.ltb_irrefl. simpl. lia.
Qed.

Lemma all_space_no_delimiter (content : string) :
  all_space content = true -> count_delimiters content = 0%nat.
Proof.
  induction content as [|c rest IH]; simpl; [reflexivity|].
  intros H. apply andb_prop in H as [Hsp Hrest].
  rewrite (IH Hrest).
  revert Hsp. unfold isspace, is_delimiter.
  destruct c as [[] [] [] [] [] [] [] []]; vm_compute; congruence.
Qed.

(** C1 (the code departs from the claim).  The parser puts a sentence
    boundary at every delimiter character, also inside a run of them:
    "wait... ok." comes out as the four sentences "wait.", ".", "." and
    "ok." where the claim wants one, while "Hi. Bye." does give two; in
    general a text has at least as many sentences as it has delimiter
    characters. *)
Theorem parse_sentences_splits_every_delimiter :
  parse_sentences "wait... ok." = ["wait."; "."; "."; "ok."]%string
  /\ parse_sentences "Hi. Bye." = ["Hi."; "Bye."]%string
  /\ forall content : string,
       (count_delimiters content <= length (parse_sentences content))%nat.
Proof.
  split; [vm_compute; reflexivity|].
  split; [vm_compute; reflexivity|].
  intros content. rewrite parse_sentences_length.
  destruct (all_space content) eqn:Hsp.
  - rewrite (all_space_no_delimiter _ Hsp). lia.
  - apply count_sentences_bounds.
Qed.

End ParserFacts.

(** ** Arrays of words *)

Module ArrayFacts.

Import StorageServer.

Lemma shift_right_length (n : nat) (a : list string) (pos k : nat) :
  length (shift_right a pos k n) = length a.
Proof.
  revert a. induction n as [|m IH]; intros a; simpl; [reflexivity|].
  rewrite IH. apply length_insert.
Qed.

(** The shift loop reads every cell before it overwrites it. *)
Lemma shift_right_lookup (n : nat) (a : list string) (pos k j : nat) :
  (pos + n + k <= length a)%nat ->
  shift_right a pos k n !! j
  = if decide (pos + k <= j < pos + n + k)%nat then a !! (j - k)%nat
    else a !! j.
Proof.
  revert a. induction n as [|m IH]; intros a Hlen; simpl.
  - destruct (decide _); [lia | reflexivity].
  - rewrite IH by (rewrite length_insert; lia).
    destruct (decide (pos + k <= j < pos + m + k)%nat) as [Hin|Hout].
    + rewrite list_lookup_insert_ne by lia.
      destruct (decide _); [reflexivity | lia].
    + destruct (decide (j = pos + m + k)%nat) as [->|Hne].
      * rewrite list_lookup_insert_eq by lia.
        destruct (decide _); [|lia].
        replace (pos + m + k - k)%nat with (pos + m)%nat by lia.
        symmetry. apply list_lookup_lookup_total_lt. lia.
      * rewrite list_lookup_insert_ne by lia.
        destruct (decide _); [lia | reflexivity].
Qed.

Lemma store_from_length (tokens : list string) (a : list string)
    (pos i : nat) :
  length (store_from a pos i tokens) = length a.
Proof.
  revert a i. induction tokens as [|t rest IH]; intros a i; simpl;
    [reflexivity|].
  rewrite IH. apply length_insert.
Qed.

Lemma store_from_lookup (tokens : list string) (a : list string)
    (pos i j : nat) :
  (pos + i + length tokens <= length a)%nat ->
  store_from a pos i tokens !! j
  = if decide (pos + i <= j < pos + i + length tokens)%nat
    then tokens !! (j - pos - i)%nat else a !! j.
Proof.
  revert a i. induction tokens as [|t rest IH]; intros a i Hlen; simpl in *.
  - destruct (decide _); [lia | reflexivity].
  - rewrite IH by (rewrite length_insert; lia).
    destruct (decide (pos + S i <= j < pos + S i + length rest)%nat)
      as [Hin|Hout].
    + destruct (decide _); [|lia].
      replace (j - pos - i)%nat with (S (j - pos - S i)) by lia.
      reflexivity.
    + destruct (decide (j = pos + i)%nat) as [->|Hne].
      * rewrite list_lookup_insert_eq by lia.
        destruct (decide _); [|lia].
        replace (pos + i - pos - i)%nat with 0%nat by lia. reflexivity.
      * rewrite list_lookup_insert_ne by lia.
        destruct (decide _); [lia | reflexivity].
Qed.

(** Lines 1046-1059 of storage_server.c insert the tokens at the index
    and move the words from there on to the right, losing none. *)
Lemma insert_words_spec (words tokens : list string) (pos : nat) :
  (pos <= length words)%nat ->
  insert_words words pos tokens = take pos words ++ tokens ++ drop pos words.
Proof.
  intros Hpos. unfold insert_words.
  apply list_eq. intros j.
  rewrite store_from_lookup
    by (rewrite shift_right_length, length_app, length_replicate; lia).
  rewrite shift_right_lookup by (rewrite length_app, length_replicate; lia).
  rewrite !Nat.add_0_r.
  assert (length (take pos words) = pos) as Htake
    by (rewrite length_take; lia).
  destruct (decide (pos <= j < pos + length tokens)%nat) as [Hin|Hout].
  - rewrite (lookup_app_r (take pos words)) by lia.
    rewrite Htake, lookup_app_l by lia.
    f_equal. lia.
  - destruct (decide (j < pos)%nat) as [Hlt|Hge].
    + destruct (decide _); [lia|].
      rewrite (lookup_app_l words) by lia.
      rewrite (lookup_app_l (take pos words)) by lia.
      rewrite lookup_take_lt by lia. reflexivity.
    + rewrite (lookup_app_r (take pos words)) by lia.
      rewrite Htake, (lookup_app_r tokens) by lia.
      rewrite lookup_drop.
      replace (pos + (j - pos - length tokens))%nat
        with (j - length tokens)%nat by lia.
      destruct (decide _) as [Hin'|Hout'].
      * rewrite (lookup_app_l words) by lia. reflexivity.
      * rewrite (proj2 (lookup_ge_None (words ++ _) j))
          by (rewrite length_app, length_replicate; lia).
        symmetry. apply lookup_ge_None. lia.
Qed.

Lemma shift_left_length (n : nat) (a : list string) (i : nat) :
  length (StorageServerModular.shift_left a i n) = length a.
Proof.
  revert a i. induction n as [|m IH]; intros a i; simpl; [reflexivity|].
  rewrite IH. apply length_insert.
Qed.

Lemma shift_left_lookup (n : nat) (a : list string) (i j : nat) :
  (i + n < length a)%nat ->
  StorageServerModular.shift_left a i n !! j
  = if decide (i <= j < i + n)%nat then a !! S j else a !! j.
Proof.
  revert a i. induction n as [|m IH]; intros a i Hlen; simpl.
  - destruct (decide _); [lia | reflexivity].
  - rewrite IH by (rewrite length_insert; lia).
    destruct (decide (S i <= j < S i + m)%nat) as [Hin|Hout].
    + rewrite list_lookup_insert_ne by lia.
      destruct (decide _); [reflexivity | lia].
    + destruct (decide (j = i)) as [->|Hne].
      * rewrite list_lookup_insert_eq by lia.
        destruct (decide _); [|lia].
        symmetry. apply list_lookup_lookup_total_lt. lia.
      * rewrite list_lookup_insert_ne by lia.
        destruct (decide _); [lia | reflexivity].
Qed.

(** storage_server_modular.c, lines 890-902: the payload becomes one
    word at the index. *)
Lemma insert_word_spec (words : list string) (pos : nat) (payload : string) :
  (pos <= length words)%nat ->
  StorageServerModular.insert_word words pos payload
  = take pos words ++ [payload] ++ drop pos words.
Proof.
  intros Hpos. rewrite <- (insert_words_spec words [payload] pos Hpos).
  unfold StorageServerModular.insert_word, insert_words. simpl.
  rewrite Nat.add_0_r. reflexivity.
Qed.

(** storage_server_modular.c, lines 878-888: the word at the index goes. *)
Lemma delete_word_spec (words : list string) (pos : nat) :
  StorageServerModular.delete_word words pos
  = take pos words ++ drop (S pos) words.
Proof.
  unfold StorageServerModular.delete_word.
  destruct (Nat.ltb pos (length words)) eqn:Hlt.
  - apply Nat.ltb_lt in Hlt. apply list_eq. intros j.
    assert (length (take pos words) = pos) as Htake
      by (rewrite length_take; lia).
    destruct (decide (j < length words - 1)%nat) as [Hj|Hj].
    + rewrite lookup_take_lt by lia.
      rewrite shift_left_lookup by lia.
      destruct (decide (j < pos)%nat) as [Hlo|Hhi].
      * destruct (decide _); [lia|].
        rewrite (lookup_app_l (take pos words)) by lia.
        rewrite lookup_take_lt by lia. reflexivity.
      * destruct (decide _); [|lia].
        rewrite (lookup_app_r (take pos words)) by lia.
        rewrite Htake, lookup_drop. f_equal. lia.
    + rewrite lookup_take_ge by lia.
      symmetry. apply lookup_ge_None.
      rewrite length_app, length_drop. lia.
  - apply Nat.ltb_ge in Hlt.
    rewrite take_ge, drop_ge by lia. rewrite app_nil_r. reflexivity.
Qed.

(** Lines 1081-1099 of storage_server.c: the first split replaces the
    current sentence and the others follow it, the later sentences moving
    right. *)
Lemma splice_sentences_spec (sentences : list string) (num : nat)
    (first : string) (others : list string) :
  (num < length sentences)%nat ->
  splice_sentences sentences num (first :: others)
  = take num sentences ++ (first :: others) ++ drop (S num) sentences.
Proof.
  intros Hnum. unfold splice_sentences.
  change (length (first :: others) - 1)%nat with (length others - 0)%nat.
  rewrite Nat.sub_0_r.
  change (tail (first :: others)) with others.
  change ((first :: others) !!! 0%nat) with first.
  set (replaced := <[num := first]> sentences).
  assert (length replaced = length sentences) as Hrep
    by (subst replaced; apply length_insert).
  assert (length (take num sentences) = num) as Htake
    by (rewrite length_take; lia).
  apply list_eq. intros j.
  rewrite store_from_lookup
    by (rewrite shift_right_length, length_app, length_replicate; lia).
  rewrite shift_right_lookup by (rewrite length_app, length_replicate; lia).
  destruct (decide (num + 1 <= j < num + 1 + length others)%nat) as [Hin|Hout].
  - rewrite (lookup_app_r (take num sentences)) by lia.
    rewrite Htake.
    change ((first :: others) ++ drop (S num) sentences)
      with (first :: (others ++ drop (S num) sentences)).
    rewrite lookup_cons_ne_0 by lia.
    rewrite lookup_app_l by lia. f_equal. lia.
  - destruct (decide (j < num)%nat) as [Hlt|Hge].
    + destruct (decide _); [lia|].
      rewrite (lookup_app_l replaced) by lia.
      subst replaced. rewrite list_lookup_insert_ne by lia.
      rewrite (lookup_app_l (take num sentences)) by lia.
      rewrite lookup_take_lt by lia. reflexivity.
    + rewrite (lookup_app_r (take num sentences)) by lia.
      rewrite Htake.
      destruct (decide (j = num)) as [->|Hne].
      * destruct (decide _); [lia|].
        rewrite (lookup_app_l replaced) by lia.
        subst replaced. rewrite list_lookup_insert_eq by lia.
        rewrite Nat.sub_diag. reflexivity.
      * change ((first :: others) ++ drop (S num) sentences)
          with (first :: (others ++ drop (S num) sentences)).
        rewrite lookup_cons_ne_0 by lia.
        rewrite (lookup_app_r others) by lia.
        rewrite lookup_drop.
        replace (S num + (pred (j - num) - length others))%nat
          with (j - length others)%nat by lia.
        destruct (decide _) as [Hin'|Hout'].
        -- rewrite (lookup_app_l replaced) by lia.
           subst replaced. rewrite list_lookup_insert_ne by lia. reflexivity.
        -- rewrite (proj2 (lookup_ge_None (replaced ++ _) j))
             by (rewrite length_app, length_replicate; lia).
           symmetry. apply lookup_ge_None. lia.
Qed.

End ArrayFacts.

(** ** The edit loop *)

Module EditFacts.

Import Protocol Node StorageServer ArrayFacts Spec Scenario.

(** C6, as stated, fails in three places.  In storage_server_modular.c
    the payload is not tokenized: "big bad" sent for index 1 of "Hello
    world" becomes the one word "big bad"; and an update frame with an
    empty payload removes the word at the index: "Hello" is lost.  In
    storage_server.c only the first 256 tokens of a payload are
    inserted: of 257 words sent one is dropped. *)
Lemma update_frame_loses_words :
  let es := mkEditSession "notes" 0 "alice" ["Hello world"%string]
              ["Hello"; "world"]%string in
  let long := String.concat " " (replicate 257 "a"%string) in
  (error_code (fst (StorageServerModular.handle_update es 0 "")) = RESP_SUCCESS
   /\ words (snd (StorageServerModular.handle_update es 0 ""))
      = ["world"%string])
  /\ (parse_words "big bad" = ["big"; "bad"]%string
      /\ words (snd (StorageServerModular.handle_update es 1 "big bad"))
         = ["Hello"; "big bad"; "world"]%string)
  /\ (length (parse_words long) = 257%nat
      /\ length (words (snd (handle_update es 2 long))) = 258%nat).
Proof. vm_compute. repeat split; reflexivity. Qed.

(** C6 (amended).  In an edit session (the sentence index within the
    sentence array) an update frame is accepted iff its word index lies
    in [0, current word count]; otherwise it is answered WORD_OOR with the
    current word count in [word_index] and changes nothing.  An accepted
    frame of storage_server.c inserts the first 256 tokens of the payload
    (split on space, tab and newline) at the index, the words from there
    on moving right, none overwritten or lost, and rebuilds the sentence
    from this array.  When the rebuilt sentence does not split, the array
    is the word array of the session and the sentence array is as
    before.  When it splits into several sentences, these take the place
    of the current sentence in the sentence array, and the session goes
    on with the first of them: its words are the word array.  The reply
    carries the current sentence, cut to [MAX_DATA - 1] bytes, in both
    cases.  An accepted frame of
    storage_server_modular.c inserts a non-empty payload whole, as one
    word, and on an empty payload removes the word at the index; the
    sentence array is as before. *)
Theorem update_frame_words (es : EditSession) (word_idx : Z)
    (payload : string) :
  (sentence_num es < length (sentences es))%nat ->
  let ws := words es in
  let word_count := Z.of_nat (length ws) in
  let pos := Z.to_nat word_idx in
  let tokens := take 256 (parse_words (strncpy_data payload)) in
  let inserted := inserted_at ws pos tokens in
  let split := parse_sentences (rebuild_sentence inserted) in
  let '(reply, es') := handle_update es word_idx payload in
  let '(reply_m, es_m) :=
    StorageServerModular.handle_update es word_idx payload in
  (0 <= word_idx <= word_count
   /\ error_code reply = RESP_SUCCESS
   /\ (if (bool_decide (tokens = []) || negb (Nat.ltb 1 (length split)))%bool
       then words es' = inserted
            /\ sentences es' = sentences es
            /\ data reply = strncpy_data (rebuild_sentence inserted)
       else sentences es'
            = take (sentence_num es) (sentences es) ++ split
              ++ drop (S (sentence_num es)) (sentences es)
            /\ words es' = parse_words (split !!! 0%nat)
            /\ data reply = strncpy_data (split !!! 0%nat))
   /\ (filename es', sentence_num es', username es')
      = (filename es, sentence_num es, username es)
   /\ error_code reply_m = RESP_SUCCESS
   /\ words es_m
      = (if String.eqb payload EmptyString
         then take pos ws ++ drop (S pos) ws
         else inserted_at ws pos [payload])
   /\ sentences es_m = sentences es)
  \/
  (~ (0 <= word_idx <= word_count)
   /\ error_code reply = ERR_WORD_OUT_OF_RANGE
   /\ word_index reply = Some word_count
   /\ es' = es
   /\ error_code reply_m = ERR_WORD_OUT_OF_RANGE
   /\ word_index reply_m = Some word_count
   /\ es_m = es).
Proof.
  intros Hnum ws word_count pos tokens inserted split.
  assert (tokenize_payload payload = tokens) as Htokens by reflexivity.
  assert (inserted_at ws pos tokens = inserted) as Hinserted by reflexivity.
  assert (parse_sentences (rebuild_sentence inserted) = split) as Hsplit
    by reflexivity.
  clearbody split inserted tokens.
  destruct (handle_update es word_idx payload) as [reply es'] eqn:Hu.
  destruct (StorageServerModular.handle_update es word_idx payload)
    as [reply_m es_m] eqn:Hm.
  unfold handle_update in Hu. unfold StorageServerModular.handle_update in Hm.
  fold ws word_count in Hu, Hm.
  destruct ((word_idx <? 0) || (word_idx >? word_count))%bool eqn:Hrange.
  - injection Hu as <- <-. injection Hm as <- <-.
    right. repeat split; try reflexivity.
    apply orb_prop in Hrange as [H|H]; lia.
  - left. apply orb_false_elim in Hrange as [H1 H2].
    assert (0 <= word_idx <= word_count) as Hin by lia.
    assert (pos <= length ws)%nat as Hpos by (subst pos word_count; lia).
    fold pos in Hu, Hm. rewrite Htokens in Hu.
    assert (words_m :
              (if Nat.eqb (String.length payload) 0
               then StorageServerModular.delete_word ws pos
               else StorageServerModular.insert_word ws pos payload)
              = (if String.eqb payload EmptyString
                 then take pos ws ++ drop (S pos) ws
                 else inserted_at ws pos [payload])).
    { destruct (String.eqb_spec payload EmptyString) as [->|Hne].
      - simpl. apply delete_word_spec.
      - assert (Nat.eqb (String.length payload) 0 = false) as ->
          by (destruct payload; [contradiction | reflexivity]).
        apply insert_word_spec. exact Hpos. }
    injection Hm as <- <-. cbn [words sentences].
    split; [exact Hin|].
    assert (error_code reply = RESP_SUCCESS
            /\ (if (bool_decide (tokens = [])
                    || negb (Nat.ltb 1 (length split)))%bool
                then words es' = inserted
                     /\ sentences es' = sentences es
                     /\ data reply = strncpy_data (rebuild_sentence inserted)
                else sentences es'
                     = take (sentence_num es) (sentences es) ++ split
                       ++ drop (S (sentence_num es)) (sentences es)
                     /\ words es' = parse_words (split !!! 0%nat)
                     /\ data reply = strncpy_data (split !!! 0%nat))
            /\ (filename es', sentence_num es', username es')
               = (filename es, sentence_num es, username es)) as Hmain.
    { destruct tokens as [|t rest] eqn:Htok.
      - (* nothing to insert *)
        injection Hu as <- <-.
        assert (inserted = ws) as Hsame.
        { rewrite <- Hinserted. unfold inserted_at. simpl. apply take_drop. }
        rewrite bool_decide_eq_true_2 by reflexivity. cbn [orb].
        rewrite Hsame. repeat split.
      - rewrite <- Htok in *.
        rewrite (insert_words_spec ws tokens pos Hpos) in Hu.
        fold (inserted_at ws pos tokens) in Hu.
        rewrite Hinserted, Hsplit in Hu.
        rewrite (bool_decide_eq_false_2 (tokens = []))
          by (rewrite Htok; discriminate).
        cbn [orb]. clear Hsplit.
        destruct (Nat.ltb 1 (length split)) eqn:Hlt; cbn [negb].
        + (* the sentence splits *)
          destruct split as [|first others];
            [simpl in Hlt; discriminate|].
          rewrite (splice_sentences_spec _ _ first others Hnum) in Hu.
          assert ((take (sentence_num es) (sentences es) ++ (first :: others)
                     ++ drop (S (sentence_num es)) (sentences es))
                    !!! sentence_num es = first) as Hcur.
          { apply list_lookup_total_correct.
            rewrite lookup_app_r by (rewrite length_take; lia).
            rewrite length_take.
            replace (sentence_num es
                     - sentence_num es `min` length (sentences es))%nat
              with 0%nat by lia.
            reflexivity. }
          rewrite Hcur in Hu. injection Hu as <- <-. repeat split.
        + injection Hu as <- <-. repeat split. }
    destruct Hmain as (Ha & Hb & Hc).
    split; [exact Ha|]. split; [exact Hb|]. split; [exact Hc|].
    split; [reflexivity|]. split; [exact words_m | reflexivity].
Qed.

(** The amended C6 at the frames of scenario S2 of the specification:
    "." sent for index 2 of "Hello world", and an index out of range;
    and at a frame that splits the sentence, "there. Big" sent for
    index 1. *)
Lemma update_frame_words_witness :
  let es := mkEditSession "notes" 0 "alice" ["Hello world"%string]
              ["Hello"; "world"]%string in
  words (snd (handle_update es 2 ".")) = ["Hello"; "world"; "."]%string
  /\ word_index (fst (handle_update es 5 "x")) = Some 2
  /\ sentences (snd (handle_update es 1 "there. Big"))
     = ["Hello there."; "Big world"]%string.
Proof.
  intros es.
  assert (sentence_num es < length (sentences es))%nat as Hnum
    by (vm_compute; lia).
  pose proof (update_frame_words es 2 "." Hnum) as H2.
  pose proof (update_frame_words es 5 "x" Hnum) as H5.
  pose proof (update_frame_words es 1 "there. Big" Hnum) as H1.
  cbv zeta in H2, H5, H1.
  destruct (handle_update es 2 ".") as [reply2 es2].
  destruct (StorageServerModular.handle_update es 2 ".") as [reply2m es2m].
  destruct (handle_update es 5 "x") as [reply5 es5].
  destruct (StorageServerModular.handle_update es 5 "x") as [reply5m es5m].
  destruct (handle_update es 1 "there. Big") as [reply1 es1].
  destruct (StorageServerModular.handle_update es 1 "there. Big")
    as [reply1m es1m].
  split; [|split].
  - destruct H2 as [(_ & _ & H & _)|(H & _)];
      [|exfalso; apply H; vm_compute; split; discriminate].
    vm_compute in H. destruct H as (H & _). exact H.
  - destruct H5 as [(H & _)|(_ & _ & H & _)];
      [exfalso; vm_compute in H; destruct H as [_ H]; apply H; reflexivity|].
    exact H.
  - destruct H1 as [(_ & _ & H & _)|(H & _)];
      [|exfalso; apply H; vm_compute; split; discriminate].
    vm_compute in H. destruct H as (H & _). exact H.
Defined.

(** Scenario S2 of the specification, run on the model: "." sent for
    index 2 of "Hello world", then "Bye" for index 3, then ETIRW; the file
    on disk is "Hello world . Bye" and a newline. *)
Example scenario_write_split :
  let st := node_with "notes" "Hello world" in
  match handle_write st "notes" 0 "alice" with
  | Opened opened es0 st0 =>
      let '(reply1, es1) := handle_update es0 2 "." in
      let '(reply2, es2) := handle_update es1 3 "Bye" in
      let '(reply3, st3) := handle_etirw st0 es2 in
      data opened = "Hello world "%string
      /\ data reply1 = "Hello world ."%string
      /\ data reply2 = "Hello world ."%string
      /\ sentences es2 = ["Hello world ."; "Bye"]%string
      /\ files st3 !! "../storage/SS1/notes"%string
         = Some ("Hello world . Bye" +:+ String "010" EmptyString)
      /\ locks st3 = []
  | Refused _ _ => False
  end.
Proof. vm_compute. repeat split; reflexivity. Qed.

End EditFacts.

(** ** Opening a WRITE session *)

Module WriteFacts.

Import Protocol Node StorageServer Scenario.

Lemma access_existing (parsed : list string) (num : Z) :
  0 <= num < Z.of_nat (length parsed) ->
  check_sentence_access parsed num = Granted parsed.
Proof.
  intros H. unfold check_sentence_access.
  destruct (Z.eqb_spec (Z.of_nat (length parsed)) 0); [lia|].
  destruct (Z.ltb_spec num 0); [lia|].
  destruct (Z.eqb_spec num (Z.of_nat (length parsed))); [lia|].
  destruct (Z.gtb_spec num (Z.of_nat (length parsed))); [lia|].
  reflexivity.
Qed.

Lemma access_next (parsed : list string) :
  parsed <> [] ->
  check_sentence_access parsed (Z.of_nat (length parsed))
  = if sentence_has_delimiter (parsed !!! (length parsed - 1)%nat)
    then Granted (parsed ++ [EmptyString])
    else OutOfRange
           (mkReply ERR_SENTENCE_OUT_OF_RANGE
              (Some (Z.of_nat (length parsed) - 1))
              ("Cannot access sentence " +:+ pretty (Z.of_nat (length parsed))
               +:+ ". Previous sentence "
               +:+ pretty (Z.of_nat (length parsed) - 1)
               +:+ " must end with a single delimiter (., !, ?).")).
Proof.
  intros H. unfold check_sentence_access.
  assert (0 < Z.of_nat (length parsed)) by (destruct parsed; simpl; [done|lia]).
  destruct (Z.eqb_spec (Z.of_nat (length parsed)) 0); [lia|].
  destruct (Z.ltb_spec (Z.of_nat (length parsed)) 0); [lia|].
  rewrite Z.eqb_refl.
  destruct (Z.gtb_spec (Z.of_nat (length parsed)) 0); [|lia].
  replace (Z.to_nat (Z.of_nat (length parsed) - 1))
    with (length parsed - 1)%nat by lia.
  destruct (sentence_has_delimiter _); reflexivity.
Qed.


Lemma access_negative (parsed : list string) (num : Z) :
  parsed <> [] -> num < 0 ->
  word_index <$> out_of_range (check_sentence_access parsed num)
  = Some (Some (Z.of_nat (length parsed) - 1)).
Proof.
  intros Hne H. unfold check_sentence_access.
  assert (0 < Z.of_nat (length parsed)) by (destruct parsed; simpl; [done|lia]).
  destruct (Z.eqb_spec (Z.of_nat (length parsed)) 0); [lia|].
  destruct (Z.ltb_spec num 0); [|lia].
  reflexivity.
Qed.

Lemma access_beyond (parsed : list string) (num : Z) :
  parsed <> [] -> Z.of_nat (length parsed) < num ->
  word_index <$> out_of_range (check_sentence_access parsed num)
  = Some (Some (Z.of_nat (length parsed))).
Proof.
  intros Hne H. unfold check_sentence_access.
  assert (0 < Z.of_nat (length parsed)) by (destruct parsed; simpl; [done|lia]).
  destruct (Z.eqb_spec (Z.of_nat (length parsed)) 0); [lia|].
  destruct (Z.ltb_spec num 0); [lia|].
  destruct (Z.eqb_spec num (Z.of_nat (length parsed))); [lia|].
  destruct (Z.gtb_spec num (Z.of_nat (length parsed))); [|lia].
  reflexivity.
Qed.

(** C5 (the code departs from the claim).  The file "Hi. Bye" has two
    sentences, the second without a delimiter.  WRITE on sentence 2 and
    on sentence -1 are refused SENT_OOR, as the claim says, but with
    [word_index] 1, the index of the last sentence, where the claim (and
    the client, which prints the field as the number of sentences) wants
    the count 2; only an index beyond the count, such as 5, is answered
    with the count. *)
Theorem sentence_out_of_range_word_index :
  let st := node_with "notes" ("Hi. Bye" +:+ String "010" EmptyString) in
  let answer num :=
    (fun reply => (error_code reply, word_index reply))
      <$> refusal (handle_write st "notes" num "alice") in
  length (parse_sentences
            (read_content ("Hi. Bye" +:+ String "010" EmptyString))) = 2%nat
  /\ answer 2 = Some (ERR_SENTENCE_OUT_OF_RANGE, Some 1)
  /\ answer (-1) = Some (ERR_SENTENCE_OUT_OF_RANGE, Some 1)
  /\ answer 5 = Some (ERR_SENTENCE_OUT_OF_RANGE, Some 2).
Proof. vm_compute. repeat split; reflexivity. Qed.

End WriteFacts.

(** ** Sentence locks *)

Module LockFacts.

Import Protocol Node StorageServer LockManager Scenario.


Lemma find_sentence_lock_None (locks : list SentenceLock) (file : string)
    (num : Z) :
  find_sentence_lock locks file num = None
  <-> Forall (fun l => ~ (LockManager.filename l = file
                          /\ LockManager.sentence_num l = num)) locks.
Proof.
  induction locks as [|l rest IH]; simpl.
  - split; [intros _; constructor | reflexivity].
  - unfold same_sentence.
    destruct (String.eqb_spec (LockManager.filename l) file) as [Hf|Hf];
      destruct (Z.eqb_spec (LockManager.sentence_num l) num) as [Hn|Hn];
      simpl.
    + split; [discriminate|]. intros H. inversion H; subst. tauto.
    + rewrite IH. split; [intros H; constructor; tauto|].
      intros H. inversion H; auto.
    + rewrite IH. split; [intros H; constructor; tauto|].
      intros H. inversion H; auto.
    + rewrite IH. split; [intros H; constructor; tauto|].
      intros H. inversion H; auto.
Qed.



End LockFacts.

(** ** Undo *)

Module UndoFacts.

Import Protocol Node UndoManager Scenario.

Lemma update_undo_state_get (l l' : list UndoState) (file : string)
    (flag : Z) :
  update_undo_state l file flag = Some l' ->
  undo_performed <$> get_undo_state l' file = Some flag.
Proof.
  revert l'. induction l as [|u rest IH]; intros l'; simpl; [discriminate|].
  destruct (String.eqb (filename u) file) eqn:Heq.
  - intros H. injection H as <-. simpl. rewrite Heq. reflexivity.
  - destruct (update_undo_state rest file flag) as [rest'|]; [|discriminate].
    intros H. injection H as <-. simpl. rewrite Heq. apply IH. reflexivity.
Qed.

(** The flag read back is the flag written. *)
Lemma get_set_undo_state (l : list UndoState) (file : string) (flag : Z) :
  undo_performed <$> get_undo_state (set_undo_state l file flag) file
  = Some flag.
Proof.
  unfold set_undo_state.
  destruct (update_undo_state l file flag) as [l'|] eqn:Hup.
  - eapply update_undo_state_get. exact Hup.
  - simpl. rewrite String.eqb_refl. reflexivity.
Qed.

Lemma append_inj_l (p a b : string) : p +:+ a = p +:+ b -> a = b.
Proof.
  induction p as [|c p IH]; simpl; [auto|].
  intros H. injection H as H. auto.
Qed.

Lemma append_length (a b : string) :
  String.length (a +:+ b) = (String.length a + String.length b)%nat.
Proof. induction a as [|c a IH]; simpl; [reflexivity | rewrite IH; reflexivity]. Qed.

(** The five paths a node uses for one file are pairwise distinct where
    the handlers need it. *)
Lemma storage_not_backup (st : State) (a b : string) :
  storage_dir st +:+ a <> backup_dir st +:+ b.
Proof. unfold storage_dir, backup_dir. simpl. discriminate. Qed.

Lemma sidecar_not_temp (st : State) (file : string) :
  backup_dir st +:+ file +:+ ".backup"
  <> backup_dir st +:+ file +:+ ".tmp_backup".
Proof.
  intros H. apply append_inj_l, append_inj_l in H. discriminate.
Qed.

Lemma sidecar_not_copy (st : State) (file : string) :
  backup_dir st +:+ file +:+ ".backup" <> backup_dir st +:+ file.
Proof.
  intros H. apply append_inj_l in H.
  apply (f_equal String.length) in H. rewrite append_length in H.
  simpl in H. lia.
Qed.

(** storage_server.c: a successful UNDO leaves the flag at 1, and the UNDO
    that follows it is refused DENIED and changes nothing. *)
Lemma undo_twice_denied (st st' : State) (file : string) (reply : Reply) :
  StorageServer.handle_undo st file = (reply, st') ->
  error_code reply = RESP_SUCCESS ->
  undo_performed <$> get_undo_state (undo_states st') file = Some 1
  /\ error_code (fst (StorageServer.handle_undo st' file))
     = ERR_PERMISSION_DENIED
  /\ snd (StorageServer.handle_undo st' file) = st'.
Proof.
  unfold StorageServer.handle_undo at 1.
  destruct (negb (file_exists (files st) (storage_dir st +:+ file)));
    [intros H; injection H as <- <-; discriminate|].
  destruct (negb (file_exists (files st)
                    (backup_dir st +:+ file +:+ ".backup")));
    [intros H; injection H as <- <-; discriminate|].
  destruct (match get_undo_state (undo_states st) file with
            | Some u => undo_performed u =? 1 | None => false end);
    [intros H; injection H as <- <-; discriminate|].
  set (temp := backup_dir st +:+ file +:+ ".tmp_backup").
  set (fs1 := copy_file (storage_dir st +:+ file) temp (files st)).
  destruct (fs1 !! (backup_dir st +:+ file +:+ ".backup")) as [bytes|] eqn:Hb;
    [|intros H; injection H as <- <-; discriminate].
  intros H _. injection H as <- <-.
  assert (exists c, fs1 !! temp = Some c) as [c Htemp].
  { subst fs1. unfold copy_file.
    destruct (files st !! (storage_dir st +:+ file));
      rewrite lookup_insert_eq; eauto. }
  assert (rename temp (backup_dir st +:+ file +:+ ".backup")
            (<[storage_dir st +:+ file := bytes]> fs1)
          = <[backup_dir st +:+ file +:+ ".backup" := c]>
              (delete temp (<[storage_dir st +:+ file := bytes]> fs1)))
    as Hren.
  { unfold rename. rewrite lookup_insert_ne; [rewrite Htemp; reflexivity|].
    apply storage_not_backup. }
  rewrite Hren.
  split; [apply get_set_undo_state|].
  unfold StorageServer.handle_undo. simpl.
  change (storage_dir (mkState (ss_id st) _ (locks st) _))
    with (storage_dir st).
  change (backup_dir (mkState (ss_id st) _ (locks st) _))
    with (backup_dir st).
  assert (file_exists
            (<[backup_dir st +:+ file +:+ ".backup" := c]>
               (delete temp (<[storage_dir st +:+ file := bytes]> fs1)))
            (storage_dir st +:+ file) = true) as ->.
  { apply bool_decide_eq_true. exists bytes.
    rewrite lookup_insert_ne by (apply not_eq_sym, storage_not_backup).
    rewrite lookup_delete_ne by (apply not_eq_sym, storage_not_backup).
    apply lookup_insert_eq. }
  assert (file_exists
            (<[backup_dir st +:+ file +:+ ".backup" := c]>
               (delete temp (<[storage_dir st +:+ file := bytes]> fs1)))
            (backup_dir st +:+ file +:+ ".backup") = true) as ->.
  { apply bool_decide_eq_true. exists c. apply lookup_insert_eq. }
  simpl.
  pose proof (get_set_undo_state (undo_states st) file 1) as Hflag.
  destruct (get_undo_state (set_undo_state (undo_states st) file 1) file)
    as [u|]; [|discriminate].
  simpl in Hflag. injection Hflag as ->. simpl. split; reflexivity.
Qed.

(** storage_server.c: ETIRW sets the flag back to 0. *)
Lemma etirw_clears_undo_flag (st : State) (es : StorageServer.EditSession) :
  error_code (fst (StorageServer.handle_etirw st es)) = RESP_SUCCESS
  /\ undo_performed
       <$> get_undo_state
             (undo_states (snd (StorageServer.handle_etirw st es)))
             (StorageServer.filename es)
     = Some 0.
Proof. split; [reflexivity|]. simpl. apply get_set_undo_state. Qed.

(** storage_server.c: UNDO goes through when the file and its sidecar
    exist and the flag is not 1. *)
Lemma undo_succeeds (st : State) (file bytes sidecar : string) :
  files st !! (storage_dir st +:+ file) = Some bytes ->
  files st !! (backup_dir st +:+ file +:+ ".backup") = Some sidecar ->
  undo_performed <$> get_undo_state (undo_states st) file <> Some 1 ->
  error_code (fst (StorageServer.handle_undo st file)) = RESP_SUCCESS.
Proof.
  intros Hf Hb Hflag. unfold StorageServer.handle_undo.
  assert (file_exists (files st) (storage_dir st +:+ file) = true) as ->
    by (apply bool_decide_eq_true; eauto).
  assert (file_exists (files st) (backup_dir st +:+ file +:+ ".backup") = true)
    as -> by (apply bool_decide_eq_true; eauto).
  cbn [negb].
  destruct (get_undo_state (undo_states st) file) as [u|].
  - destruct (Z.eqb_spec (undo_performed u) 1) as [H1|H1].
    { exfalso. apply Hflag. simpl. congruence. }
    unfold copy_file. rewrite Hf.
    rewrite lookup_insert_ne by (apply not_eq_sym, sidecar_not_temp).
    rewrite Hb. reflexivity.
  - unfold copy_file. rewrite Hf.
    rewrite lookup_insert_ne by (apply not_eq_sym, sidecar_not_temp).
    rewrite Hb. reflexivity.
Qed.

(** storage_server.c: after an ETIRW on an existing file, UNDO succeeds
    again. *)
Lemma undo_after_etirw (st : State) (es : StorageServer.EditSession) :
  is_Some (files st !! (storage_dir st +:+ StorageServer.filename es)) ->
  error_code
    (fst (StorageServer.handle_undo (snd (StorageServer.handle_etirw st es))
            (StorageServer.filename es)))
  = RESP_SUCCESS.
Proof.
  intros [bytes Hfile].
  unfold StorageServer.handle_etirw.
  set (file := StorageServer.filename es) in *. rewrite Hfile.
  cbn [snd].
  set (text := StorageServer.join_sentences _ +:+ _).
  set (backup := backup_dir st +:+ file +:+ ".backup").
  set (temp := storage_dir st +:+ file +:+ ".tmp").
  assert (rename temp (storage_dir st +:+ file)
            (<[temp := text]> (<[backup := bytes]> (files st)))
          = <[storage_dir st +:+ file := text]>
              (delete temp (<[temp := text]> (<[backup := bytes]> (files st)))))
    as ->.
  { unfold rename. rewrite lookup_insert_eq. reflexivity. }
  rewrite lookup_insert_eq.
  set (fs4 := <[backup_dir st +:+ file := _]> _).
  assert (fs4 !! (storage_dir st +:+ file) = Some text) as Hf4.
  { subst fs4. rewrite lookup_insert_ne by (apply not_eq_sym, storage_not_backup).
    apply lookup_insert_eq. }
  assert (fs4 !! backup = Some bytes) as Hb4.
  { subst fs4 backup.
    rewrite lookup_insert_ne by (apply not_eq_sym, sidecar_not_copy).
    rewrite lookup_insert_ne by (apply storage_not_backup).
    rewrite lookup_delete_ne by (apply storage_not_backup).
    rewrite lookup_insert_ne by (apply storage_not_backup).
    apply lookup_insert_eq. }
  apply (undo_succeeds _ file text bytes); [exact Hf4 | exact Hb4 |].
  cbn [undo_states]. rewrite get_set_undo_state. discriminate.
Qed.

(** storage_server_modular.c: the UNDO that follows a successful UNDO is
    refused, with the code of a bad request, and changes nothing. *)
Lemma undo_twice_modular (st st' : State) (file : string) (reply : Reply) :
  StorageServerModular.handle_undo st file = (reply, st') ->
  error_code reply = RESP_SUCCESS ->
  StorageServerModular.handle_undo st' file
  = (mkReply ERR_INVALID_REQUEST None "Cannot undo twice consecutively", st').
Proof.
  unfold StorageServerModular.handle_undo at 1.
  destruct (match get_undo_state (undo_states st) file with
            | Some u => negb (undo_performed u =? 0) | None => false end);
    [intros H; injection H as <- <-; discriminate|].
  destruct (files st !! (backup_dir st +:+ file +:+ ".backup")) as [bytes|];
    [|intros H; injection H as <- <-; discriminate].
  intros H _. injection H as <- <-.
  unfold StorageServerModular.handle_undo. simpl.
  pose proof (get_set_undo_state (undo_states st) file 1) as Hflag.
  destruct (get_undo_state (set_undo_state (undo_states st) file 1) file)
    as [u|]; [|discriminate].
  simpl in Hflag. injection Hflag as ->. reflexivity.
Qed.

(** C4 (the code departs from the claim).  On a node with the file
    "notes" and its sidecar after a committed edit, two UNDO requests in a
    row: storage_server.c answers SUCCESS and then DENIED (403), as the
    claim says; storage_server_modular.c answers SUCCESS and then
    INVALID_REQUEST (400), not DENIED.  Both leave the flag at 1 and the
    state untouched by the second request. *)
Theorem consecutive_undo_result_codes :
  let undo1 := StorageServer.handle_undo node_after_edit "notes" in
  let undo2 := StorageServer.handle_undo (snd undo1) "notes" in
  let undo1_m := StorageServerModular.handle_undo node_after_edit "notes" in
  let undo2_m := StorageServerModular.handle_undo (snd undo1_m) "notes" in
  (error_code (fst undo1) = RESP_SUCCESS
   /\ error_code (fst undo2) = ERR_PERMISSION_DENIED
   /\ snd undo2 = snd undo1)
  /\ (error_code (fst undo1_m) = RESP_SUCCESS
      /\ undo_performed
           <$> get_undo_state (undo_states (snd undo1_m)) "notes" = Some 1
      /\ error_code (fst undo2_m) = ERR_INVALID_REQUEST
      /\ error_code (fst undo2_m) <> ERR_PERMISSION_DENIED
      /\ snd undo2_m = snd undo1_m).
Proof. vm_compute. repeat split; try reflexivity. discriminate. Qed.

End UndoFacts.

(** ** Access control lists *)

Module AclFacts.

Import Protocol Coordinator AccessControl NamingServer Scenario.

Lemma update_acl_write_implies_read (l l' : list AccessControl.AccessControl)
    (user : string) (r w : Z) :
  (w <> 0 -> r <> 0) ->
  Spec.write_implies_read l ->
  update_acl l user r w = Some l' ->
  Spec.write_implies_read l'.
Proof.
  intros Hrw. unfold Spec.write_implies_read. revert l'.
  induction l as [|a rest IH]; intros l' Hl; simpl; [discriminate|].
  inversion Hl; subst.
  destruct (String.eqb (AccessControl.username a) user).
  - intros H. injection H as <-. constructor; auto.
  - destruct (update_acl rest user r w) as [rest'|]; [|discriminate].
    intros H. injection H as <-. constructor; auto.
Qed.

(** [add_access] keeps "write implies read" when it is given rights that
    satisfy it. *)
Lemma add_access_write_implies_read (entry : FileEntry) (user : string)
    (r w : Z) :
  (w <> 0 -> r <> 0) ->
  Spec.write_implies_read (acl entry) ->
  Spec.write_implies_read (acl (snd (add_access entry user r w))).
Proof.
  intros Hrw Hl. unfold add_access.
  destruct (update_acl (acl entry) user r w) as [l'|] eqn:Hup; simpl.
  - eapply update_acl_write_implies_read; eauto.
  - constructor; auto.
Qed.

Lemma remove_acl_write_implies_read (l l' : list AccessControl.AccessControl)
    (user : string) :
  Spec.write_implies_read l ->
  remove_acl l user = Some l' ->
  Spec.write_implies_read l'.
Proof.
  unfold Spec.write_implies_read. intros Hl. revert l'.
  induction Hl as [|a rest Ha Hrest IH]; intros l'; simpl; [discriminate|].
  destruct (String.eqb (AccessControl.username a) user).
  - intros H. injection H as <-. exact Hrest.
  - destruct (remove_acl rest user) as [rest'|]; [|discriminate].
    intros H. injection H as <-. constructor; auto.
Qed.

Lemma remove_access_write_implies_read (entry : FileEntry) (user : string) :
  Spec.write_implies_read (acl entry) ->
  Spec.write_implies_read (acl (snd (remove_access entry user))).
Proof.
  intros Hl. unfold remove_access.
  destruct (remove_acl (acl entry) user) as [l'|] eqn:Hr; simpl.
  - eapply remove_acl_write_implies_read; eauto.
  - exact Hl.
Qed.

(** ADDACCESS keeps "write implies read" on the file it changes: the
    handler raises [can_read] whenever it grants [can_write]. *)
Lemma handle_add_access_write_implies_read (st : State)
    (client filename : string) (flags : Z) (data : string)
    (entry entry' : FileEntry) :
  lookup_file st filename = Some entry ->
  Spec.write_implies_read (acl entry) ->
  lookup_file (snd (handle_add_access st client filename flags data)) filename
  = Some entry' ->
  Spec.write_implies_read (acl entry').
Proof.
  intros Hlook Hinv. unfold handle_add_access. rewrite Hlook.
  destruct (negb (String.eqb (owner entry) client));
    [simpl; rewrite Hlook; congruence|].
  destruct (negb (UserSessionManager.user_exists (registered_users st) _));
    [simpl; rewrite Hlook; congruence|].
  set (w := if Z.land flags 2 =? 0 then 0 else 1).
  set (r := if w =? 0 then if Z.land flags 1 =? 0 then 0 else 1 else 1).
  pose proof (add_access_write_implies_read entry
                (scan_word data false) r w) as Hadd.
  destruct (add_access entry (scan_word data false) r w) as [result e] eqn:He.
  simpl. unfold lookup_file. simpl. rewrite lookup_insert_eq.
  intros H. injection H as <-. apply Hadd; auto.
  subst r. destruct (Z.eqb_spec w 0); [contradiction | discriminate].
Qed.

(** REMACCESS never removes the owner: the request is refused and the
    registry stays as it is. *)
Lemma handle_rem_access_owner (st : State) (client filename data : string)
    (entry : FileEntry) :
  lookup_file st filename = Some entry ->
  scan_word data false = owner entry ->
  handle_rem_access st client filename data
  = (if String.eqb (owner entry) client
     then mkReply ERR_INVALID_REQUEST
            "Error: Owner cannot remove their own access" None
     else mkReply ERR_PERMISSION_DENIED
            "Error: Only the owner can revoke access" None, st).
Proof.
  intros Hlook Htarget. unfold handle_rem_access. rewrite Hlook, Htarget.
  destruct (String.eqb (owner entry) client); reflexivity.
Qed.

(** C2 (the code departs from the claim).  "bob" asks for write access
    (access type 2) to "report" and the owner approves: the ACL entry made
    by [respond_to_request] has [can_write = 1] and [can_read = 0], so
    "bob" may write and may not read, where the claim wants read granted.
    The same grant through ADDACCESS (flags 2) gives both rights. *)
Theorem approved_write_request_lacks_read :
  let requested :=
    handle_requestaccess coordinator_with_report "bob" "report" 2 in
  let approved := handle_respondrequest (snd requested) "alice" "report" 1 1 in
  let granted := handle_add_access coordinator_with_report "alice" "report" 2
                   "bob" in
  error_code (fst requested) = RESP_SUCCESS
  /\ error_code (fst approved) = RESP_SUCCESS
  /\ acl_of (snd approved) "report" = Some [mkAccessControl "bob" 0 1]
  /\ ~ (forall l, acl_of (snd approved) "report" = Some l ->
                  Spec.write_implies_read l)
  /\ acl_of (snd granted) "report" = Some [mkAccessControl "bob" 1 1].
Proof.
  intros requested approved granted.
  assert (acl_of (snd approved) "report" = Some [mkAccessControl "bob" 0 1])
    as Hacl by (vm_compute; reflexivity).
  repeat split; try (vm_compute; reflexivity).
  intros H. specialize (H _ Hacl).
  inversion H as [|a l Ha Hl]; subst. simpl in Ha.
  apply Ha; [discriminate | reflexivity].
Qed.

(** C3 (the code departs from the claim).  The owner "alice" sends
    ADDACCESS for "report" with herself as target: the handler has no test
    for it and adds the ACL entry ("alice", read), so the owner does
    appear in the ACL.  REMACCESS with the owner as target is refused,
    as claimed. *)
Theorem add_access_lists_the_owner :
  let granted := handle_add_access coordinator_with_report "alice" "report" 1
                   "alice" in
  let removed := handle_rem_access coordinator_with_report "alice" "report"
                   "alice" in
  error_code (fst granted) = RESP_SUCCESS
  /\ acl_of (snd granted) "report" = Some [mkAccessControl "alice" 1 0]
  /\ ~ (forall entry, lookup_file (snd granted) "report" = Some entry ->
                      Spec.owner_excluded entry)
  /\ error_code (fst removed) = ERR_INVALID_REQUEST
  /\ snd removed = coordinator_with_report.
Proof.
  intros granted removed.
  assert (lookup_file (snd granted) "report"
          = Some (mkFileEntry "report" "alice" "SS1"
                    [mkAccessControl "alice" 1 0] []))
    as Hentry by (vm_compute; reflexivity).
  repeat split; try (vm_compute; reflexivity).
  intros H. specialize (H _ Hentry). discriminate.
Qed.

End AclFacts.

(** ** READ while the owning node is down *)

Module ReadFacts.

Import Protocol Coordinator Scenario.

(** naming_server_modular.c answers UNAVAILABLE only when the cache, the
    backup directory and the failover all come up empty. *)
Lemma read_fallback_unavailable (st : State) (entry : AccessControl.FileEntry)
    (filename : string) :
  error_code (fst (NamingServerModular.read_fallback st entry filename))
  = ERR_SS_UNAVAILABLE
  <-> disk st !! ("./cache/" +:+ filename) = None
      /\ disk st !! ("./backups/" +:+ AccessControl.storage_server_id entry
                     +:+ "/" +:+ filename) = None
      /\ StorageServerManager.get_available_ss (storage_servers st) = None.
Proof.
  unfold NamingServerModular.read_fallback.
  destruct (disk st !! ("./cache/" +:+ filename)); simpl.
  { split; [discriminate | intros (H & _); discriminate]. }
  destruct (disk st !! _); simpl.
  { split; [discriminate | intros (_ & H & _); discriminate]. }
  destruct (StorageServerManager.get_available_ss (storage_servers st)); simpl.
  { split; [discriminate | intros (_ & _ & H); discriminate]. }
  split; auto.
Qed.

(** C7 (the code departs from the claim).  The node of the file "X" is
    marked failed and the coordinator's cache holds the file.
    naming_server_modular.c serves the cached bytes inline, as the claim
    says; naming_server.c has no fallback and answers UNAVAILABLE at
    once. *)
Theorem read_with_node_down :
  fst (NamingServerModular.handle_read coordinator_node_down "alice" "X")
  = mkReply RESP_SUCCESS "cached bytes" None
  /\ error_code (fst (NamingServer.handle_read coordinator_node_down
                        "alice" "X"))
     = ERR_SS_UNAVAILABLE
  /\ snd (NamingServer.handle_read coordinator_node_down "alice" "X")
     = coordinator_node_down.
Proof. vm_compute. repeat split; reflexivity. Qed.

End ReadFacts.

(** ** Choice of the node of a new file *)

Module SelectionFacts.

Import Protocol Coordinator StorageServerManager Scenario.

(** [get_available_ss] returns the first active record of the list and
    passes over inactive ones only. *)
Lemma get_available_ss_first (servers : list StorageServer) :
  match get_available_ss servers with
  | Some ss =>
      is_active ss <> 0
      /\ exists newer older,
           servers = newer ++ ss :: older
           /\ Forall (fun s => is_active s = 0) newer
  | None => Forall (fun s => is_active s = 0) servers
  end.
Proof.
  induction servers as [|s rest IH]; simpl; [constructor|].
  destruct (Z.eqb_spec (is_active s) 0) as [Hz|Hnz].
  - destruct (get_available_ss rest) as [ss|].
    + destruct IH as (Hact & newer & older & -> & Hnewer).
      split; [exact Hact|]. exists (s :: newer), older.
      split; [reflexivity | constructor; auto].
    + constructor; auto.
  - split; [exact Hnz|]. exists [], rest. split; [reflexivity | constructor].
Qed.

(** C8, as stated, fails.  "SS1" registers, then "SS2", both stay
    active: the earliest-registered active node is "SS1", and a CREATE
    without node id is given to "SS2", with either coordinator program. *)
Lemma create_goes_to_latest_node :
  id <$> Spec.first_active_by_registration (storage_servers two_nodes)
  = Some "SS1"%string
  /\ selected_id two_nodes = Some "SS2"%string
  /\ selected_id two_nodes_modular = Some "SS2"%string
  /\ AccessControl.storage_server_id
       <$> lookup_file
             (snd (NamingServer.handle_create two_nodes "alice" "report"
                     EmptyString (RESP_SUCCESS, EmptyString)))
             "report"
     = Some "SS2"%string.
Proof. vm_compute. repeat split; reflexivity. Qed.

Lemma update_ss_keeps_ids (l : list StorageServer) (server_id : string)
    (f : StorageServer -> StorageServer) :
  (forall ss, id (f ss) = id ss) ->
  id <$> update_ss l server_id f = id <$> l.
Proof.
  intros Hf. induction l as [|s rest IH]; simpl; [reflexivity|].
  destruct (String.eqb (id s) server_id); rewrite !fmap_cons.
  - rewrite Hf. reflexivity.
  - rewrite IH. reflexivity.
Qed.

(** What CREATE without node id does once the node is chosen. *)
Lemma handle_create_selected (st : State) (client filename : string)
    (ss_response : Z * string) :
  lookup_file st filename = None ->
  NamingServer.handle_create st client filename EmptyString ss_response
  = match get_available_ss (storage_servers st) with
    | None =>
        (mkReply ERR_SS_UNAVAILABLE "Error: No storage server available"
           None, st)
    | Some ss =>
        if ss_socket ss <? 0
        then (mkReply ERR_SS_UNAVAILABLE
                "Error: Storage server not connected" None, st)
        else if fst ss_response =? RESP_SUCCESS
             then (mkReply RESP_SUCCESS
                     ("File '" +:+ filename +:+ "' created successfully!")
                     None,
                   with_file_table st
                     (<[filename :=
                          AccessControl.mkFileEntry filename client (id ss)
                            [] []]> (file_table st)))
             else (mkReply (fst ss_response) (snd ss_response) None, st)
    end.
Proof.
  intros Hlook. unfold NamingServer.handle_create. rewrite Hlook.
  unfold NamingServer.select_storage_server. simpl.
  destruct (get_available_ss (storage_servers st)) as [ss|]; [|reflexivity].
  destruct (ss_socket ss <? 0); reflexivity.
Qed.

(** C8 (amended).  naming_server.c puts every node that registers at
    the head of the node list, active, with the socket of the request as
    its control channel; naming_server_modular.c puts a node that
    registers for the first time at the head, and a node that registers
    again keeps its record and its place.  A CREATE without node id for a
    name that is free takes the first active record from the head, the
    most recently registered node that is active: when its control
    channel is connected and the node answers SUCCESS, that node is the
    node of the new file's record; when the node answers otherwise,
    nothing changes; when the channel is not connected, or when no node
    is active, the request is refused UNAVAILABLE and nothing changes.
    So the CREATE that follows a registration with naming_server.c
    assigns the file to the node that just registered. *)
Theorem create_selects_newest_active (st : State) (reg : SSRegistration)
    (client_socket : Z) (client filename : string)
    (ss_response : Z * string) :
  let registered :=
    snd (NamingServer.handle_register_ss st reg client_socket) in
  let registered_m :=
    snd (NamingServerModular.handle_register_ss st reg client_socket) in
  let created st :=
    snd (NamingServer.handle_create st client filename EmptyString
           ss_response) in
  storage_servers registered
  = mkStorageServer (ss_id reg) (reg_ip reg) (reg_nm_port reg)
      (reg_client_port reg) client_socket 1 0 :: storage_servers st
  /\ id <$> storage_servers registered_m
     = match find_ss_by_id (storage_servers st) (ss_id reg) with
       | None => ss_id reg :: (id <$> storage_servers st)
       | Some _ => id <$> storage_servers st
       end
  /\ match get_available_ss (storage_servers st) with
     | Some ss =>
         is_active ss <> 0
         /\ (exists newer older,
               storage_servers st = newer ++ ss :: older
               /\ Forall (fun s => is_active s = 0) newer)
         /\ (lookup_file st filename = None ->
             if ss_socket ss <? 0
             then NamingServer.handle_create st client filename EmptyString
                    ss_response
                  = (mkReply ERR_SS_UNAVAILABLE
                       "Error: Storage server not connected" None, st)
             else if fst ss_response =? RESP_SUCCESS
                  then error_code
                         (fst (NamingServer.handle_create st client filename
                                 EmptyString ss_response)) = RESP_SUCCESS
                       /\ lookup_file (created st) filename
                          = Some (AccessControl.mkFileEntry filename client
                                    (id ss) [] [])
                  else created st = st)
     | None =>
         Forall (fun s => is_active s = 0) (storage_servers st)
         /\ (lookup_file st filename = None ->
             NamingServer.handle_create st client filename EmptyString
               ss_response
             = (mkReply ERR_SS_UNAVAILABLE
                  "Error: No storage server available" None, st))
     end
  /\ (0 <= client_socket ->
      lookup_file registered filename = None ->
      fst ss_response = RESP_SUCCESS ->
      AccessControl.storage_server_id
        <$> lookup_file (created registered) filename
      = Some (ss_id reg)).
Proof.
  intros registered registered_m created.
  assert (storage_servers registered
          = mkStorageServer (ss_id reg) (reg_ip reg) (reg_nm_port reg)
              (reg_client_port reg) client_socket 1 0 :: storage_servers st)
    as Hhead.
  { subst registered.
    unfold NamingServer.handle_register_ss,
      NamingServer.register_storage_server.
    cbn [snd storage_servers with_storage_servers update_ss
         new_storage_server id].
    rewrite String.eqb_refl. reflexivity. }
  split; [exact Hhead|].
  split.
  { subst registered_m.
    unfold NamingServerModular.handle_register_ss, register_storage_server.
    destruct (find_ss_by_id (storage_servers st) (ss_id reg));
      cbn [snd storage_servers with_storage_servers];
      rewrite !update_ss_keeps_ids by reflexivity; reflexivity. }
  split.
  { pose proof (get_available_ss_first (storage_servers st)) as H.
    pose proof (handle_create_selected st client filename ss_response)
      as Hcreate.
    subst created. cbv beta.
    destruct (get_available_ss (storage_servers st)) as [ss|].
    - destruct H as (Hact & Hsplit).
      split; [exact Hact|]. split; [exact Hsplit|].
      intros Hfree. rewrite (Hcreate Hfree).
      destruct (ss_socket ss <? 0); [reflexivity|].
      destruct (fst ss_response =? RESP_SUCCESS); [|reflexivity].
      split; [reflexivity | apply lookup_insert_eq].
    - split; [exact H|]. intros Hfree. exact (Hcreate Hfree). }
  intros Hsock Hfree Hok. subst created. cbv beta.
  rewrite (handle_create_selected registered client filename ss_response
             Hfree).
  rewrite Hhead. cbn [get_available_ss is_active Z.eqb ss_socket id].
  apply Z.ltb_ge in Hsock. rewrite Hsock, Hok, Z.eqb_refl.
  cbn [snd]. unfold lookup_file. cbn [file_table with_file_table].
  rewrite lookup_insert_eq. reflexivity.
Qed.

(** The amended C8 at the two registrations of the counterexample: "SS2"
    registers after "SS1", and the file "report" created next is recorded
    on "SS2". *)
Lemma create_selects_newest_active_witness :
  AccessControl.storage_server_id
    <$> lookup_file
          (snd (NamingServer.handle_create two_nodes "alice" "report"
                  EmptyString (RESP_SUCCESS, EmptyString)))
          "report"
  = Some "SS2"%string.
Proof.
  pose proof (create_selects_newest_active
                (snd (NamingServer.handle_register_ss empty_coordinator
                        reg_ss1 5))
                reg_ss2 6 "alice" "report" (RESP_SUCCESS, EmptyString))
    as (_ & _ & _ & H).
  apply H; [lia | reflexivity | reflexivity].
Defined.

End SelectionFacts.

(** ** Sessions *)

Module SessionFacts.

Import Protocol Coordinator UserSessionManager NamingServer Scenario.

Lemma find_active_session_None (l : list ActiveSession) (user : string) :
  find_active_session l user = None
  <-> user ∉ map UserSessionManager.username l.
Proof.
  induction l as [|s rest IH]; simpl.
  - split; [intros _; apply not_elem_of_nil | reflexivity].
  - rewrite not_elem_of_cons.
    destruct (String.eqb_spec (UserSessionManager.username s) user) as [He|He].
    + split; [discriminate | intros [H _]; congruence].
    + rewrite IH. split; [intros H; split; congruence | tauto].
Qed.

Lemma add_active_session_single (l : list ActiveSession) (user : string)
    (socket : Z) (ip : string) (now : Z) :
  Spec.single_session l ->
  Spec.single_session (snd (add_active_session l user socket ip now)).
Proof.
  unfold Spec.single_session, add_active_session. intros Hl.
  destruct (find_active_session l user) eqn:Hfind; simpl; [exact Hl|].
  constructor; [|exact Hl]. apply find_active_session_None. exact Hfind.
Qed.

Lemma remove_active_session_names (l : list ActiveSession) (user name : string) :
  name ∈ map UserSessionManager.username (remove_active_session l user) ->
  name ∈ map UserSessionManager.username l.
Proof.
  induction l as [|s rest IH]; simpl; [auto|].
  destruct (String.eqb (UserSessionManager.username s) user); simpl.
  - intros H. apply elem_of_cons. auto.
  - rewrite !elem_of_cons. intros [H|H]; auto.
Qed.

Lemma remove_active_session_single (l : list ActiveSession) (user : string) :
  Spec.single_session l ->
  Spec.single_session (remove_active_session l user).
Proof.
  unfold Spec.single_session.
  induction l as [|s rest IH]; simpl; intros Hl; [exact Hl|].
  apply NoDup_cons in Hl as [Hnotin Hrest].
  destruct (String.eqb (UserSessionManager.username s) user); simpl;
    [exact Hrest|].
  apply NoDup_cons. split; [|auto].
  intros H. apply Hnotin. eapply remove_active_session_names. exact H.
Qed.

(** With one session per user, removing a user's session leaves none. *)
Lemma remove_active_session_gone (l : list ActiveSession) (user : string) :
  Spec.single_session l ->
  find_active_session (remove_active_session l user) user = None.
Proof.
  unfold Spec.single_session.
  induction l as [|s rest IH]; simpl; intros Hl; [reflexivity|].
  apply NoDup_cons in Hl as [Hnotin Hrest].
  destruct (String.eqb_spec (UserSessionManager.username s) user) as [He|He].
  - apply find_active_session_None. congruence.
  - simpl. destruct (String.eqb_spec (UserSessionManager.username s) user);
      [contradiction | auto].
Qed.

(** At every point in time: every reachable session list has at most one
    entry per username. *)
Lemma reachable_single_session (l : list ActiveSession) :
  Spec.sessions_reachable l -> Spec.single_session l.
Proof.
  induction 1 as [|l user socket ip now _ IH|l user _ IH].
  - constructor.
  - apply add_active_session_single. exact IH.
  - apply remove_active_session_single. exact IH.
Qed.

(** C9.  Every session list the coordinator can reach has at most one
    entry per username, before and after a REGISTER_CLIENT.  When the
    name has an active session the request is rejected with LOCKED and
    the description of that session (its address and login time), and the
    state is unchanged; otherwise the login succeeds and adds exactly one
    entry, at the head, which the end of the session (EOF) removes again.
    After EOF the user has no session and the rule still holds. *)
Theorem single_session_per_user (format_time : Z -> string) (st : State)
    (user : string) (socket : Z) (ip : string) (now : Z) :
  Spec.sessions_reachable (active_sessions st) ->
  let result := handle_register_client format_time st user socket ip now in
  Spec.single_session (active_sessions st)
  /\ Spec.single_session (active_sessions (snd result))
  /\ match find_active_session (active_sessions st) user with
     | Some existing =>
         result
         = (Rejected
              (mkReply ERR_FILE_LOCKED
                 ("User '" +:+ user +:+ "' is already logged in from "
                  +:+ client_ip existing +:+ " since "
                  +:+ format_time (login_time existing)) None), st)
     | None =>
         (exists reply,
            fst result = LoggedIn reply /\ error_code reply = RESP_SUCCESS)
         /\ active_sessions (snd result)
            = mkActiveSession user socket ip now :: active_sessions st
         /\ active_sessions (handle_disconnect (snd result) user)
            = active_sessions st
     end
  /\ Spec.single_session (active_sessions (handle_disconnect st user))
  /\ find_active_session (active_sessions (handle_disconnect st user)) user
     = None.
Proof.
  intros Hreach result.
  pose proof (reachable_single_session _ Hreach) as Hinv.
  split; [exact Hinv|].
  subst result. unfold handle_register_client, add_active_session.
  destruct (find_active_session (active_sessions st) user) as [existing|]
    eqn:Hfind; simpl.
  - split; [exact Hinv|]. split; [reflexivity|].
    split; [apply remove_active_session_single, Hinv|].
    apply remove_active_session_gone, Hinv.
  - split.
    { constructor; [|exact Hinv]. apply find_active_session_None, Hfind. }
    split.
    { split; [eauto|]. split; [reflexivity|].
      rewrite String.eqb_refl. reflexivity. }
    split; [apply remove_active_session_single, Hinv|].
    apply remove_active_session_gone, Hinv.
Qed.

(** C9 on the coordinator of scenario S1: "bob" logs in, and a second
    login as "bob" from another address is rejected with LOCKED. *)
Lemma single_session_per_user_witness :
  let first :=
    handle_register_client pretty coordinator_with_report "bob" 7 "10.0.0.7"
      100 in
  let second :=
    handle_register_client pretty (snd first) "bob" 8 "10.0.0.8" 200 in
  active_sessions (snd first) = [mkActiveSession "bob" 7 "10.0.0.7" 100]
  /\ second
     = (Rejected
          (mkReply ERR_FILE_LOCKED
             "User 'bob' is already logged in from 10.0.0.7 since 100" None),
        snd first).
Proof.
  intros first second.
  pose proof (single_session_per_user pretty coordinator_with_report "bob" 7
                "10.0.0.7" 100 Spec.reach_start) as (_ & _ & H1 & _).
  pose proof (single_session_per_user pretty (snd first) "bob" 8 "10.0.0.8"
                200
                (Spec.reach_add [] "bob" 7 "10.0.0.7" 100 Spec.reach_start))
    as (_ & _ & H2 & _).
  simpl in H1. destruct H1 as (_ & H1 & _).
  split; [exact H1 | exact H2].
Defined.

End SessionFacts.

(** * Properties of the code beyond the specification *)

(** ** The sentence parser: counting, shape and text *)

Module ParserMore.

Import Spec ParserFacts.

Lemma delimiter_not_space (c : ascii) : is_delimiter c = true -> isspace c = false.
Proof.
  unfold isspace, is_delimiter.
  destruct c as [[] [] [] [] [] [] [] []]; vm_compute; congruence.
Qed.

Lemma count_loop_in_sentence (p : string) (n : nat) :
  count_delimiters p = 0%nat -> snd (count_loop p n true) = true.
Proof.
  revert n. induction p as [|c rest IH]; intros n; simpl; [reflexivity|].
  destruct (is_delimiter c); [discriminate|]. simpl. apply IH.
Qed.

Lemma count_loop_text (p : string) (n : nat) (in_sentence : bool) :
  in_sentence = true \/ all_space p = false ->
  (1 <= count_delimiters p)%nat \/ snd (count_loop p n in_sentence) = true.
Proof.
  revert n in_sentence.
  induction p as [|c rest IH]; intros n in_sentence H; simpl.
  - destruct H as [->|H]; [right; reflexivity | discriminate].
  - destruct (is_delimiter c) eqn:Hd; [left; lia|].
    simpl in H.
    destruct (isspace c) eqn:Hsp.
    + rewrite andb_false_r. simpl in *.
      destruct (IH n in_sentence H) as [?|?]; [left; lia | right; assumption].
    + destruct in_sentence; simpl.
      * destruct (IH n true (or_introl eq_refl)); [left; lia | right; assumption].
      * destruct (IH n true (or_introl eq_refl)); [left; lia | right; assumption].
Qed.

Lemma count_loop_blank (p : string) (n : nat) :
  all_space p = true -> count_loop p n false = (n, false).
Proof.
  revert n. induction p as [|c rest IH]; intros n; simpl; [reflexivity|].
  intros H. apply andb_prop in H as [Hsp Hrest].
  destruct (is_delimiter c) eqn:Hd.
  { apply delimiter_not_space in Hd. congruence. }
  rewrite Hsp. simpl. apply IH. exact Hrest.
Qed.

(** X1. The two passes of [parse_sentences] agree: the array it returns
    has exactly [count_sentences] entries, and it is empty ([NULL]) only
    for a buffer that is empty or all white space. *)
Theorem parse_sentences_count (content : string) :
  length (parse_sentences content) = count_sentences content
  /\ (parse_sentences content = [] <-> all_space content = true).
Proof.
  pose proof (parse_sentences_length content) as Hlen.
  destruct (all_space content) eqn:Hsp.
  - assert (count_sentences content = 0%nat) as Hz.
    { unfold count_sentences. rewrite count_loop_blank by exact Hsp.
      reflexivity. }
    split; [congruence|].
    split; [reflexivity|]. intros _.
    destruct (parse_sentences content); [reflexivity | discriminate].
  - split; [exact Hlen|].
    split; [|discriminate].
    intros Hnil. rewrite Hnil in Hlen. simpl in Hlen.
    exfalso. unfold count_sentences in Hlen.
    pose proof (count_loop_text content 0 false (or_intror Hsp)) as Ht.
    pose proof (count_loop_delimiters content 0 false) as Hd.
    destruct (count_loop content 0 false) as [count in_sentence].
    simpl in *. destruct in_sentence; [discriminate|].
    destruct Ht as [Ht|Ht]; [lia | discriminate].
Qed.


Lemma count_delimiters_app (a b : string) :
  count_delimiters (a +:+ b) = (count_delimiters a + count_delimiters b)%nat.
Proof.
  induction a as [|c a IH]; simpl; [reflexivity|]. rewrite IH. lia.
Qed.

Lemma list_ascii_app (a b : string) :
  list_ascii_of_string (a +:+ b)
  = list_ascii_of_string a ++ list_ascii_of_string b.
Proof. induction a as [|c a IH]; simpl; [reflexivity | rewrite IH; reflexivity]. Qed.

Lemma no_delimiter_chars (s : string) :
  count_delimiters s = 0%nat ->
  Forall (fun c => is_delimiter c = false) (list_ascii_of_string s).
Proof.
  induction s as [|c s IH]; simpl; [constructor|].
  destruct (is_delimiter c) eqn:Hd; [discriminate|].
  intros H. constructor; auto.
Qed.

Lemma trim_trailing_Forall (P : ascii -> Prop) (l : list ascii) :
  Forall P l -> Forall P (trim_trailing l).
Proof.
  induction 1 as [|c l Hc Hl IH]; simpl; [constructor|].
  destruct (isspace c); [exact IH | constructor; assumption].
Qed.

Lemma closed_sentence_has_delimiter (cur : string) (c : ascii) :
  is_delimiter c = true -> count_delimiters cur = 0%nat ->
  sentence_has_delimiter (cur +:+ String c EmptyString) = true.
Proof.
  intros Hd Hcur. unfold sentence_has_delimiter.
  rewrite list_ascii_app. simpl. rewrite rev_app_distr. simpl.
  rewrite (delimiter_not_space c Hd), Hd. simpl.
  pose proof (no_delimiter_chars cur Hcur) as Hall.
  apply Forall_rev in Hall.
  destruct (rev (list_ascii_of_string cur)) as [|h t]; [reflexivity|].
  inversion Hall; subst. rewrite H1. reflexivity.
Qed.

Lemma open_sentence_has_no_delimiter (s : string) :
  count_delimiters s = 0%nat -> sentence_has_delimiter s = false.
Proof.
  intros Hs. unfold sentence_has_delimiter.
  pose proof (no_delimiter_chars s Hs) as Hall.
  apply Forall_rev in Hall.
  apply (trim_trailing_Forall _ _) in Hall.
  destruct (trim_trailing (rev (list_ascii_of_string s))) as [|h t];
    [reflexivity|].
  inversion Hall; subst. rewrite H1. reflexivity.
Qed.

Lemma extract_loop_shape (p : string) (skipping : bool) (cur : string)
    (idx count : nat) :
  count_delimiters cur = 0%nat ->
  let '(out, start, idx') := extract_loop p skipping cur idx count in
  Forall (fun s => count_delimiters s = 1%nat
                   /\ sentence_has_delimiter s = true) out
  /\ ((idx' < count)%nat -> count_delimiters start = 0%nat).
Proof.
  revert skipping cur idx.
  induction p as [|c rest IH]; intros skipping cur idx Hcur; simpl.
  - split; [constructor | auto].
  - destruct (skipping && isspace c)%bool; [apply IH; reflexivity|].
    destruct (Nat.ltb idx count) eqn:Hlt.
    + destruct (is_delimiter c) eqn:Hd.
      * specialize (IH true EmptyString (S idx) eq_refl).
        destruct (extract_loop rest true EmptyString (S idx) count)
          as [[out start] idx'].
        destruct IH as [IH1 IH2]. split; [|exact IH2].
        constructor; [|exact IH1]. split.
        -- rewrite count_delimiters_app. simpl. rewrite Hd. lia.
        -- apply closed_sentence_has_delimiter; assumption.
      * apply IH. rewrite count_delimiters_app. simpl. rewrite Hd. lia.
    + apply Nat.ltb_ge in Hlt. split; [constructor | lia].
Qed.

Lemma Forall_removelast {A : Type} (P : A -> Prop) (l : list A) :
  Forall P l -> Forall P (removelast l).
Proof.
  induction 1 as [|x l Hx Hl IH]; [constructor|].
  destruct l; [constructor|]. simpl. constructor; [exact Hx | exact IH].
Qed.

(** X2. Shape of the parsed sentences: every sentence but the last ends
    in one of [.], [!], [?]; no sentence holds two delimiters, and a
    sentence holds one exactly when [sentence_has_delimiter] says it is
    closed. *)
Theorem parsed_sentence_shape (content : string) :
  Forall (fun s => sentence_has_delimiter s = true)
    (removelast (parse_sentences content))
  /\ Forall (fun s => (count_delimiters s <= 1)%nat
                      /\ (sentence_has_delimiter s = true
                          <-> count_delimiters s = 1%nat))
       (parse_sentences content).
Proof.
  unfold parse_sentences.
  destruct (all_space content); [split; constructor|].
  destruct (Nat.eqb (count_sentences content) 0); [split; constructor|].
  pose proof (extract_loop_shape content false EmptyString 0
                (count_sentences content) eq_refl) as H.
  destruct (extract_loop content false EmptyString 0 (count_sentences content))
    as [[out start] idx].
  destruct H as [Hout Hstart].
  assert (Forall (fun s => (count_delimiters s <= 1)%nat
                           /\ (sentence_has_delimiter s = true
                               <-> count_delimiters s = 1%nat)) out) as Hout'.
  { eapply Forall_impl; [exact Hout|]. intros s [H1 H2].
    split; [lia | tauto]. }
  destruct (Nat.ltb idx (count_sentences content)) eqn:Hlt; simpl.
  - apply Nat.ltb_lt in Hlt. specialize (Hstart Hlt).
    destruct (negb (String.eqb start EmptyString)).
    + split.
      * rewrite removelast_last. eapply Forall_impl; [exact Hout|].
        intros s [_ H]. exact H.
      * apply Forall_app. split; [exact Hout'|].
        constructor; [|constructor]. split; [lia|].
        rewrite (open_sentence_has_no_delimiter _ Hstart), Hstart.
        split; discriminate.
    + split; [|exact Hout'].
      apply Forall_removelast. eapply Forall_impl; [exact Hout|].
      intros s [_ H]. exact H.
  - split; [|exact Hout'].
    apply Forall_removelast. eapply Forall_impl; [exact Hout|].
    intros s [_ H]. exact H.
Qed.


Lemma non_space_app (a b : string) :
  non_space (a +:+ b) = non_space a +:+ non_space b.
Proof.
  induction a as [|c a IH]; simpl; [reflexivity|].
  destruct (isspace c); simpl; rewrite IH; reflexivity.
Qed.

Lemma non_space_blank (s : string) :
  all_space s = true -> non_space s = EmptyString.
Proof.
  induction s as [|c s IH]; simpl; [reflexivity|].
  intros H. apply andb_prop in H as [-> Hs]. auto.
Qed.

Lemma append_assoc (a b c : string) : (a +:+ b) +:+ c = a +:+ (b +:+ c).
Proof.
  induction a as [|x a IH]; [reflexivity|].
  change (String x ((a +:+ b) +:+ c) = String x (a +:+ (b +:+ c))).
  rewrite IH. reflexivity.
Qed.

Lemma append_empty_r (a : string) : a +:+ EmptyString = a.
Proof.
  induction a as [|x a IH]; [reflexivity|].
  change (String x (a +:+ EmptyString) = String x a).
  rewrite IH. reflexivity.
Qed.

Lemma sentences_text_app (l1 l2 : list string) :
  sentences_text (l1 ++ l2) = sentences_text l1 +:+ sentences_text l2.
Proof.
  induction l1 as [|s l1 IH]; simpl; [reflexivity|].
  rewrite IH, append_assoc. reflexivity.
Qed.

Lemma extract_loop_text (p : string) (skipping : bool) (cur : string)
    (idx n : nat) (in_sentence : bool) (count : nat) :
  count = (idx + count_delimiters p
           + if snd (count_loop p n in_sentence) then 1 else 0)%nat ->
  (skipping = true -> in_sentence = false /\ cur = EmptyString) ->
  (skipping = false -> in_sentence = true \/ all_space p = false) ->
  let '(out, start, _) := extract_loop p skipping cur idx count in
  non_space (sentences_text out +:+ start) = non_space (cur +:+ p)
  /\ (snd (count_loop p n in_sentence) = false -> start = EmptyString).
Proof.
  revert skipping cur idx n in_sentence.
  induction p as [|c rest IH];
    intros skipping cur idx n in_sentence Hcount Hskip Hopen.
  - simpl. split; [rewrite append_empty_r; reflexivity|].
    intros Hfin. simpl in Hfin.
    destruct skipping.
    + apply Hskip. reflexivity.
    + destruct (Hopen eq_refl) as [H|H]; [congruence | discriminate].
  - assert ((1 <= count_delimiters (String c rest))%nat
            \/ snd (count_loop (String c rest) n in_sentence) = true
            \/ (skipping && isspace c)%bool = true) as Hroom.
    { destruct skipping.
      - destruct (isspace c) eqn:Hsp; [right; right; reflexivity|].
        destruct (count_loop_text (String c rest) n in_sentence) as [H|H];
          [right; simpl; rewrite Hsp; reflexivity | left; exact H
          | right; left; exact H].
      - destruct (count_loop_text (String c rest) n in_sentence
                    (Hopen eq_refl)) as [H|H]; [left; exact H|].
        right; left; exact H. }
    simpl in *.
    destruct (skipping && isspace c)%bool eqn:Hs.
    + apply andb_prop in Hs as [-> Hsp].
      destruct (Hskip eq_refl) as [-> ->].
      assert (is_delimiter c = false) as Hd.
      { destruct (is_delimiter c) eqn:Hd; [|reflexivity].
        apply delimiter_not_space in Hd. congruence. }
      rewrite Hd, Hsp in *. simpl in *.
      specialize (IH true EmptyString idx n false Hcount).
      destruct (extract_loop rest true EmptyString idx count)
        as [[out start] idx'].
      rewrite ?Hsp. apply IH; [auto | discriminate].
    + assert (Nat.ltb idx count = true) as ->.
      { apply Nat.ltb_lt.
        destruct Hroom as [H|[H|H]]; [| |discriminate].
        - destruct (snd _); lia.
        - rewrite H in Hcount. lia. }
      destruct (is_delimiter c) eqn:Hd.
      * specialize (IH true EmptyString (S idx) (S n) false).
        destruct (extract_loop rest true EmptyString (S idx) count)
          as [[out start] idx'].
        destruct IH as [IH1 IH2]; [lia | auto | discriminate |].
        split; [|exact IH2].
        simpl.
        rewrite append_assoc, (non_space_app (cur +:+ String c EmptyString)),
          IH1, !non_space_app, append_assoc.
        simpl. rewrite (delimiter_not_space c Hd). reflexivity.
      * set (in_sentence' :=
               if (negb in_sentence && negb (isspace c))%bool then true
               else in_sentence).
        assert (count_loop rest n in_sentence'
                = if (negb in_sentence && negb (isspace c))%bool
                  then count_loop rest n true
                  else count_loop rest n in_sentence) as Hc.
        { subst in_sentence'.
          destruct (negb in_sentence && negb (isspace c))%bool; reflexivity. }
        rewrite <- Hc in *.
        specialize (IH false (cur +:+ String c EmptyString) idx n in_sentence'
                      Hcount).
        destruct (extract_loop rest false (cur +:+ String c EmptyString) idx
                    count) as [[out start] idx'].
        destruct IH as [IH1 IH2]; [discriminate | |].
        { intros _. subst in_sentence'.
          destruct (isspace c) eqn:Hsp.
          - rewrite andb_false_r.
            destruct skipping; [discriminate|].
            destruct (Hopen eq_refl) as [H|H]; [left; exact H|].
            right. exact H.
          - destruct in_sentence; simpl; left; reflexivity. }
        split; [|exact IH2].
        rewrite IH1, append_assoc. reflexivity.
Qed.

Lemma count_sentences_split (content : string) :
  count_sentences content
  = (count_delimiters content
     + if snd (count_loop content 0 false) then 1 else 0)%nat.
Proof.
  unfold count_sentences.
  pose proof (count_loop_delimiters content 0 false) as H.
  destruct (count_loop content 0 false) as [count in_sentence].
  simpl in *. subst count. destruct in_sentence; lia.
Qed.

(** X3. Parsing drops white space only: the sentences of a buffer,
    concatenated, hold the characters of the buffer other than white
    space, in order. *)
Theorem parse_sentences_keeps_text (content : string) :
  non_space (sentences_text (parse_sentences content)) = non_space content.
Proof.
  unfold parse_sentences.
  destruct (all_space content) eqn:Hsp.
  { simpl. symmetry. apply non_space_blank. exact Hsp. }
  pose proof (count_sentences_split content) as Hcount.
  destruct (count_loop_text content 0 false) as [Hroom|Hroom];
    [right; exact Hsp | |].
  - destruct (Nat.eqb_spec (count_sentences content) 0) as [H0|_]; [lia|].
    pose proof (extract_loop_text content false EmptyString 0 0 false
                  (count_sentences content) Hcount) as Htext.
    pose proof (extract_loop_length content false EmptyString 0
                  (count_sentences content)) as Hlen.
    destruct (extract_loop content false EmptyString 0
                (count_sentences content)) as [[out start] idx'].
    destruct Htext as [Htext Hstart]; [discriminate | right; exact Hsp |].
    destruct Hlen as [_ Hidx]; [lia|].
    destruct (Nat.ltb_spec idx' (count_sentences content)) as [Hlt|Hge];
      simpl.
    + destruct (String.eqb_spec start EmptyString) as [->|Hne]; simpl.
      * rewrite append_empty_r in Htext. exact Htext.
      * rewrite sentences_text_app. simpl.
        rewrite append_empty_r. exact Htext.
    + rewrite Hstart in Htext.
      * rewrite append_empty_r in Htext. exact Htext.
      * destruct (snd (count_loop content 0 false)); [lia | reflexivity].
  - rewrite Hroom in Hcount.
    destruct (Nat.eqb_spec (count_sentences content) 0) as [H0|_]; [lia|].
    pose proof (extract_loop_text content false EmptyString 0 0 false
                  (count_sentences content)) as Htext.
    rewrite Hroom in Htext. specialize (Htext Hcount).
    pose proof (extract_loop_length content false EmptyString 0
                  (count_sentences content)) as Hlen.
    destruct (extract_loop content false EmptyString 0
                (count_sentences content)) as [[out start] idx'].
    destruct Htext as [Htext _]; [discriminate | right; exact Hsp |].
    destruct Hlen as [_ Hidx]; [lia|].
    destruct (Nat.ltb_spec idx' (count_sentences content)) as [Hlt|Hge];
      [|lia]. simpl.
    destruct (String.eqb_spec start EmptyString) as [->|Hne]; simpl.
    + rewrite append_empty_r in Htext. exact Htext.
    + rewrite sentences_text_app. simpl.
      rewrite append_empty_r. exact Htext.
Qed.


Lemma append_not_empty (a b : string) :
  b <> EmptyString -> a +:+ b <> EmptyString.
Proof. destruct a; [auto | discriminate]. Qed.

Lemma has_tok_sep_app (a b : string) :
  has_tok_sep (a +:+ b) = (has_tok_sep a || has_tok_sep b)%bool.
Proof.
  induction a as [|c a IH]; [reflexivity|].
  change (has_tok_sep (String c (a +:+ b))
          = (has_tok_sep (String c a) || has_tok_sep b)%bool).
  simpl. rewrite IH, orb_assoc. reflexivity.
Qed.

Lemma strtok_loop_word (w s cur : string) :
  has_tok_sep w = false ->
  strtok_loop (w +:+ s) cur = strtok_loop s (cur +:+ w).
Proof.
  revert cur. induction w as [|c w IH]; intros cur Hw.
  - rewrite append_empty_r. reflexivity.
  - simpl in Hw. apply orb_false_elim in Hw as [Hc Hw].
    change (strtok_loop (String c (w +:+ s)) cur
            = strtok_loop s (cur +:+ String c w)).
    simpl. rewrite Hc, IH by exact Hw.
    rewrite append_assoc. reflexivity.
Qed.

Lemma strtok_loop_rebuild (w : string) (rest : list string) (cur : string) :
  Forall is_word (w :: rest) ->
  strtok_loop (rebuild_sentence (w :: rest)) cur = (cur +:+ w) :: rest.
Proof.
  revert w cur. induction rest as [|w2 rest IH]; intros w cur Hall.
  - apply Forall_cons_1 in Hall as [[Hne Hsep] _].
    change (rebuild_sentence [w]) with w.
    rewrite <- (append_empty_r w) at 1.
    rewrite strtok_loop_word by exact Hsep. simpl.
    destruct (String.eqb_spec (cur +:+ w) EmptyString) as [H|_];
      [|reflexivity].
    exfalso. exact (append_not_empty cur w Hne H).
  - apply Forall_cons_1 in Hall as [[Hne Hsep] Hrest].
    change (rebuild_sentence (w :: w2 :: rest))
      with (w +:+ String " " (rebuild_sentence (w2 :: rest))).
    rewrite strtok_loop_word by exact Hsep.
    cbn [strtok_loop].
    change (is_tok_sep " ") with true. cbv iota.
    destruct (String.eqb_spec (cur +:+ w) EmptyString) as [H|_].
    { exfalso. exact (append_not_empty cur w Hne H). }
    rewrite IH by exact Hrest. reflexivity.
Qed.

Lemma strtok_loop_words (s cur : string) :
  has_tok_sep cur = false -> Forall is_word (strtok_loop s cur).
Proof.
  revert cur. induction s as [|c s IH]; intros cur Hcur; simpl.
  - destruct (String.eqb_spec cur EmptyString) as [_|Hne]; [constructor|].
    constructor; [split; assumption | constructor].
  - destruct (is_tok_sep c) eqn:Hc.
    + destruct (String.eqb_spec cur EmptyString) as [_|Hne].
      * apply IH. reflexivity.
      * constructor; [split; assumption | apply IH; reflexivity].
    + apply IH. rewrite has_tok_sep_app, Hcur. simpl. rewrite Hc. reflexivity.
Qed.

(** X4. [parse_words] undoes [rebuild_sentence]: an array of non-empty
    words free of space, tab and newline, joined by [rebuild_sentence]
    and split again by [parse_words], is the same array. *)
Theorem parse_words_rebuild_sentence (words : list string) :
  Forall is_word words -> parse_words (rebuild_sentence words) = words.
Proof.
  intros Hall. destruct words as [|w rest]; [reflexivity|].
  unfold parse_words. rewrite strtok_loop_rebuild by exact Hall.
  reflexivity.
Qed.

Lemma parse_words_rebuild_sentence_witness :
  parse_words (rebuild_sentence ["Hello"; "big"; "world."]%string)
  = ["Hello"; "big"; "world."]%string.
Proof.
  apply parse_words_rebuild_sentence.
  repeat constructor; discriminate.
Defined.

Lemma strtok_loop_text (s cur : string) :
  sentences_text (strtok_loop s cur) = cur +:+ remove_tok_seps s.
Proof.
  revert cur. induction s as [|c s IH]; intros cur; simpl.
  - destruct (String.eqb_spec cur EmptyString) as [->|_]; [reflexivity|].
    reflexivity.
  - destruct (is_tok_sep c).
    + destruct (String.eqb_spec cur EmptyString) as [->|_];
        [apply IH | simpl; rewrite IH; reflexivity].
    + rewrite IH, append_assoc. reflexivity.
Qed.

(** X5. The words of a sentence: [parse_words] returns non-empty
    strings free of space, tab and newline, which concatenated are the
    sentence without those three characters. *)
Theorem parse_words_are_words (sentence : string) :
  Forall is_word (parse_words sentence)
  /\ sentences_text (parse_words sentence) = remove_tok_seps sentence.
Proof.
  split.
  - apply strtok_loop_words. reflexivity.
  - unfold parse_words. rewrite strtok_loop_text. reflexivity.
Qed.

End ParserMore.

(** ** The lock table and the undo table as histories *)

Module TableFacts.

Import LockManager Traces LockFacts.

Lemma find_sentence_lock_key (locks : list SentenceLock) (file : string)
    (num : Z) :
  find_sentence_lock locks file num = None
  <-> (file, num) ∉ lock_key <$> locks.
Proof.
  rewrite find_sentence_lock_None, Forall_forall, list_elem_of_fmap.
  unfold lock_key. split.
  - intros H (l & Hkey & Hin). injection Hkey as -> ->.
    apply (H l); [exact Hin | tauto].
  - intros H l Hin [Hf Hn]. apply H. exists l.
    split; [congruence | exact Hin].
Qed.

Lemma remove_sentence_lock_sublist (locks : list SentenceLock)
    (file : string) (num : Z) (user : string) :
  remove_sentence_lock locks file num user `sublist_of` locks.
Proof.
  induction locks as [|l rest IH]; simpl; [constructor|].
  destruct (same_sentence file num l && String.eqb (username l) user)%bool.
  - apply sublist_cons. reflexivity.
  - apply sublist_skip. exact IH.
Qed.

Lemma lock_step_exclusive (locks : list SentenceLock) (op : LockOp) :
  NoDup (lock_key <$> locks) -> NoDup (lock_key <$> lock_step locks op).
Proof.
  intros Hnd. destruct op as [file num user|file num user]; simpl.
  - unfold add_sentence_lock.
    destruct (find_sentence_lock locks file num) eqn:Hfind; [exact Hnd|].
    simpl. apply NoDup_cons. split; [|exact Hnd].
    apply find_sentence_lock_key. exact Hfind.
  - eapply sublist_NoDup; [exact Hnd|].
    apply (fmap_sublist lock_key), remove_sentence_lock_sublist.
Qed.

Lemma fold_lock_step_exclusive (ops : list LockOp)
    (locks : list SentenceLock) :
  NoDup (lock_key <$> locks) ->
  NoDup (lock_key <$> fold_left lock_step ops locks).
Proof.
  revert locks. induction ops as [|op ops IH]; intros locks Hnd; simpl;
    [exact Hnd|].
  apply IH, lock_step_exclusive, Hnd.
Qed.

Lemma same_sentence_key (file : string) (num : Z) (l : SentenceLock) :
  same_sentence file num l = true <-> lock_key l = (file, num).
Proof.
  unfold same_sentence, lock_key.
  rewrite andb_true_iff, String.eqb_eq, Z.eqb_eq.
  split; [intros [-> ->]; reflexivity | intros H; injection H; auto].
Qed.

Lemma remove_sentence_lock_absent (locks : list SentenceLock)
    (file : string) (num : Z) (user : string) :
  (file, num) ∉ lock_key <$> locks ->
  remove_sentence_lock locks file num user = locks.
Proof.
  induction locks as [|l rest IH]; simpl; [reflexivity|].
  intros Hnot. apply not_elem_of_cons in Hnot as [Hne Hrest].
  destruct (same_sentence file num l) eqn:Hsame.
  - apply same_sentence_key in Hsame. congruence.
  - simpl. rewrite IH by exact Hrest. reflexivity.
Qed.

Lemma remove_sentence_lock_frame (locks : list SentenceLock)
    (file : string) (num : Z) (user : string) (file' : string) (num' : Z) :
  (file', num') <> (file, num) ->
  find_sentence_lock (remove_sentence_lock locks file num user) file' num'
  = find_sentence_lock locks file' num'.
Proof.
  intros Hne. induction locks as [|l rest IH]; simpl; [reflexivity|].
  destruct (same_sentence file num l) eqn:Hsame; simpl.
  - apply same_sentence_key in Hsame.
    assert (same_sentence file' num' l = false) as Hother.
    { destruct (same_sentence file' num' l) eqn:H; [|reflexivity].
      apply same_sentence_key in H. congruence. }
    destruct (String.eqb (username l) user); simpl; rewrite Hother;
      [reflexivity | exact IH].
  - destruct (same_sentence file' num' l); [reflexivity | exact IH].
Qed.

Lemma release_exclusive (locks : list SentenceLock) (file : string)
    (num : Z) (user : string) :
  NoDup (lock_key <$> locks) ->
  match find_sentence_lock locks file num with
  | Some holder =>
      if String.eqb (username holder) user
      then find_sentence_lock (remove_sentence_lock locks file num user)
             file num = None
      else remove_sentence_lock locks file num user = locks
  | None => remove_sentence_lock locks file num user = locks
  end.
Proof.
  induction locks as [|l rest IH]; simpl; [reflexivity|].
  intros Hnd. apply NoDup_cons in Hnd as [Hl Hrest].
  destruct (same_sentence file num l) eqn:Hsame; simpl.
  - apply same_sentence_key in Hsame. rewrite Hsame in Hl.
    destruct (String.eqb (username l) user).
    + apply find_sentence_lock_key. exact Hl.
    + rewrite remove_sentence_lock_absent by exact Hl. reflexivity.
  - specialize (IH Hrest).
    destruct (find_sentence_lock rest file num) as [holder|].
    + destruct (String.eqb (username holder) user).
      * rewrite Hsame. exact IH.
      * rewrite IH. reflexivity.
    + rewrite IH. reflexivity.
Qed.

(** X6. The lock table, in every state reached from the empty table by
    calls of [add_sentence_lock] and [remove_sentence_lock].  Mutual
    exclusion: no two entries are for the same sentence of the same
    file.  Release: [remove_sentence_lock] called for the holder of a
    sentence frees that sentence; called for anyone else, or for a
    sentence nobody holds, it changes nothing; the locks of all other
    sentences are as before in every case. *)
Theorem sentence_locks_exclusive (ops : list LockOp) (file : string)
    (num : Z) (user : string) :
  let locks := run_lock_ops ops in
  NoDup (lock_key <$> locks)
  /\ match find_sentence_lock locks file num with
     | Some holder =>
         if String.eqb (username holder) user
         then find_sentence_lock (remove_sentence_lock locks file num user)
                file num = None
         else remove_sentence_lock locks file num user = locks
     | None => remove_sentence_lock locks file num user = locks
     end
  /\ forall (file' : string) (num' : Z),
       (file', num') <> (file, num) ->
       find_sentence_lock (remove_sentence_lock locks file num user)
         file' num'
       = find_sentence_lock locks file' num'.
Proof.
  split; [apply fold_lock_step_exclusive; constructor|].
  split.
  - apply release_exclusive, fold_lock_step_exclusive. constructor.
  - intros file' num' Hne. apply remove_sentence_lock_frame. exact Hne.
Qed.

Lemma update_undo_state_names (l l' : list UndoManager.UndoState)
    (file : string) (flag : Z) :
  UndoManager.update_undo_state l file flag = Some l' ->
  UndoManager.filename <$> l' = UndoManager.filename <$> l.
Proof.
  revert l'. induction l as [|u rest IH]; intros l'; simpl; [discriminate|].
  destruct (String.eqb (UndoManager.filename u) file).
  - intros H. injection H as <-. reflexivity.
  - destruct (UndoManager.update_undo_state rest file flag) as [rest'|];
      [|discriminate].
    intros H. injection H as <-. rewrite !fmap_cons, (IH rest' eq_refl).
    reflexivity.
Qed.

Lemma update_undo_state_absent (l : list UndoManager.UndoState)
    (file : string) (flag : Z) :
  UndoManager.update_undo_state l file flag = None ->
  file ∉ UndoManager.filename <$> l.
Proof.
  induction l as [|u rest IH]; simpl; [intros _; apply not_elem_of_nil|].
  destruct (String.eqb_spec (UndoManager.filename u) file) as [|Hne];
    [discriminate|].
  destruct (UndoManager.update_undo_state rest file flag); [discriminate|].
  intros _. apply not_elem_of_cons. split; [congruence | auto].
Qed.

Lemma update_undo_state_other (l l' : list UndoManager.UndoState)
    (file other : string) (flag : Z) :
  other <> file ->
  UndoManager.update_undo_state l file flag = Some l' ->
  UndoManager.get_undo_state l' other = UndoManager.get_undo_state l other.
Proof.
  intros Hne. revert l'.
  induction l as [|u rest IH]; intros l'; simpl; [discriminate|].
  destruct (String.eqb_spec (UndoManager.filename u) file) as [Hu|Hu].
  - intros H. injection H as <-. simpl.
    destruct (String.eqb_spec (UndoManager.filename u) other);
      [congruence | reflexivity].
  - destruct (UndoManager.update_undo_state rest file flag) as [rest'|];
      [|discriminate].
    intros H. injection H as <-. simpl.
    destruct (String.eqb (UndoManager.filename u) other); [reflexivity|].
    apply IH. reflexivity.
Qed.

Lemma set_undo_state_other (l : list UndoManager.UndoState)
    (file other : string) (flag : Z) :
  other <> file ->
  UndoManager.get_undo_state (UndoManager.set_undo_state l file flag) other
  = UndoManager.get_undo_state l other.
Proof.
  intros Hne. unfold UndoManager.set_undo_state.
  destruct (UndoManager.update_undo_state l file flag) as [l'|] eqn:Hup.
  - eapply update_undo_state_other; eauto.
  - simpl. destruct (String.eqb_spec file other); [congruence | reflexivity].
Qed.

Lemma set_undo_state_names (l : list UndoManager.UndoState)
    (file : string) (flag : Z) :
  NoDup (UndoManager.filename <$> l) ->
  NoDup (UndoManager.filename <$> UndoManager.set_undo_state l file flag).
Proof.
  intros Hnd. unfold UndoManager.set_undo_state.
  destruct (UndoManager.update_undo_state l file flag) as [l'|] eqn:Hup.
  - rewrite (update_undo_state_names _ _ _ _ Hup). exact Hnd.
  - simpl. apply NoDup_cons. split; [|exact Hnd].
    eapply update_undo_state_absent; eauto.
Qed.

Lemma fold_undo_step (ops : list (string * Z))
    (l : list UndoManager.UndoState) (file : string) :
  NoDup (UndoManager.filename <$> l) ->
  NoDup (UndoManager.filename <$> fold_left undo_step ops l)
  /\ UndoManager.undo_performed
       <$> UndoManager.get_undo_state (fold_left undo_step ops l) file
     = match last_flag ops file with
       | Some flag => Some flag
       | None =>
           UndoManager.undo_performed <$> UndoManager.get_undo_state l file
       end.
Proof.
  revert l. induction ops as [|[f flag] ops IH]; intros l Hnd; simpl.
  - split; [exact Hnd | reflexivity].
  - destruct (IH (undo_step l (f, flag))) as [IH1 IH2].
    { apply set_undo_state_names. exact Hnd. }
    split; [exact IH1|]. rewrite IH2.
    destruct (last_flag ops file); [reflexivity|].
    unfold undo_step. simpl.
    destruct (String.eqb_spec f file) as [->|Hne].
    + apply UndoFacts.get_set_undo_state.
    + rewrite set_undo_state_other by congruence. reflexivity.
Qed.

(** X8. The undo table is a map from file name to flag: after any
    sequence of [set_undo_state] calls from the empty table, no file has
    two entries and [get_undo_state] gives the flag of the last call for
    the file, or nothing when there was none. *)
Theorem undo_table_is_a_map (ops : list (string * Z)) (file : string) :
  NoDup (UndoManager.filename <$> run_undo_ops ops)
  /\ UndoManager.undo_performed
       <$> UndoManager.get_undo_state (run_undo_ops ops) file
     = last_flag ops file.
Proof.
  destruct (fold_undo_step ops [] file) as [H1 H2]; [constructor|].
  split; [exact H1|]. unfold run_undo_ops. rewrite H2.
  destruct (last_flag ops file); reflexivity.
Qed.

End TableFacts.

(** ** The life of an edit session on a node *)

Module EditSessionFacts.

Import Protocol Node StorageServer UndoFacts.

Lemma access_granted_index (parsed : list string) (num : Z)
    (granted : list string) :
  check_sentence_access parsed num = Granted granted ->
  0 <= num /\ (Z.to_nat num < length granted)%nat
  /\ (granted = parsed \/ granted = parsed ++ [EmptyString]).
Proof.
  unfold check_sentence_access.
  destruct (Z.eqb_spec (Z.of_nat (length parsed)) 0) as [H0|H0].
  { destruct (Z.eqb_spec num 0) as [->|]; simpl; [|discriminate].
    intros H. injection H as <-. destruct parsed; [|simpl in H0; lia].
    simpl. repeat split; [lia | lia | right; reflexivity]. }
  destruct (Z.ltb_spec num 0) as [Hneg|Hpos]; [discriminate|].
  destruct (Z.eqb_spec num (Z.of_nat (length parsed))) as [->|Hne].
  { destruct (_ && _)%bool; [discriminate|].
    intros H. injection H as <-. rewrite length_app. simpl.
    repeat split; [lia | lia | right; reflexivity]. }
  destruct (Z.gtb_spec num (Z.of_nat (length parsed))) as [Hgt|Hle];
    [discriminate|].
  intros H. injection H as <-.
  repeat split; [lia | lia | left; reflexivity].
Qed.

Lemma access_refused_code (parsed : list string) (num : Z) (reply : Reply) :
  check_sentence_access parsed num = OutOfRange reply ->
  error_code reply = ERR_SENTENCE_OUT_OF_RANGE.
Proof.
  unfold check_sentence_access.
  repeat match goal with
         | |- context [if ?b then _ else _] => destruct b
         end; intros H; try discriminate; injection H as <-; reflexivity.
Qed.

(** X9. What a WRITE of storage_server.c opens, on a file that is
    missing or that the line buffer of the read loop takes whole (no NUL
    byte, fewer than [MAX_DATA] bytes): a refused WRITE never answers
    SUCCESS; an opened session is for the file, user and sentence asked
    for, its sentence index is within the sentence array, which is the
    parsed file or the parsed file and one new empty sentence, its words
    are those of the current sentence, which the reply carries, the disk
    is untouched and the one new lock is the requester's. *)
Theorem write_opens_session (st : State) (file : string) (num : Z)
    (user : string) :
  match files st !! (storage_dir st +:+ file) with
  | Some bytes => Buffers.fits_line_buffer bytes = true
  | None => True
  end ->
  match handle_write st file num user with
  | Refused reply _ => error_code reply <> RESP_SUCCESS
  | Opened reply es st' =>
      error_code reply = RESP_SUCCESS
      /\ filename es = file /\ username es = user
      /\ Z.of_nat (sentence_num es) = num
      /\ (sentence_num es < length (sentences es))%nat
      /\ words es = parse_words (sentences es !!! sentence_num es)
      /\ data reply = strncpy_data (sentences es !!! sentence_num es)
      /\ (exists bytes,
            files st !! (storage_dir st +:+ file) = Some bytes
            /\ let parsed := parse_sentences (read_content bytes) in
               sentences es = parsed
               \/ sentences es = parsed ++ [EmptyString])
      /\ files st' = files st
      /\ locks st' = LockManager.mkSentenceLock file num user :: locks st
  end.
Proof.
  unfold handle_write.
  destruct (files st !! (storage_dir st +:+ file)) as [bytes|] eqn:Hfile;
    intros _; [|discriminate].
  destruct (check_sentence_access (parse_sentences (read_content bytes)) num)
    as [reply|granted] eqn:Haccess.
  { rewrite (access_refused_code _ _ _ Haccess). discriminate. }
  apply access_granted_index in Haccess as (Hnum & Hlen & Hgranted).
  unfold LockManager.add_sentence_lock.
  destruct (LockManager.find_sentence_lock (locks st) file num);
    [discriminate|].
  cbn. repeat split; try reflexivity; [lia | exact Hlen |].
  exists bytes. split; [reflexivity | exact Hgranted].
Qed.

(** X9 on the node of scenario S2: "alice" opens sentence 0 of "notes",
    which holds "Hello world". *)
Lemma write_opens_session_witness :
  match handle_write (Scenario.node_with "notes" "Hello world") "notes" 0
          "alice" with
  | Opened reply es st' =>
      error_code reply = RESP_SUCCESS
      /\ words es = parse_words (sentences es !!! sentence_num es)
      /\ locks st' = [LockManager.mkSentenceLock "notes" 0 "alice"]
  | Refused _ _ => False
  end.
Proof.
  pose proof (write_opens_session (Scenario.node_with "notes" "Hello world")
                "notes" 0 "alice") as H.
  destruct (handle_write (Scenario.node_with "notes" "Hello world") "notes" 0
              "alice") as [reply st'|reply es st'] eqn:Hw.
  - vm_compute in Hw. discriminate.
  - destruct H as (H1 & _ & _ & _ & _ & H2 & _ & _ & _ & H3);
      [vm_compute; reflexivity|].
    split; [exact H1|]. split; [exact H2 | exact H3].
Defined.

Lemma release_own_lock (locks : list LockManager.SentenceLock)
    (file : string) (num : Z) (user : string) :
  LockManager.remove_sentence_lock
    (LockManager.mkSentenceLock file num user :: locks) file num user
  = locks.
Proof.
  simpl. unfold LockManager.same_sentence. simpl.
  rewrite String.eqb_refl, Z.eqb_refl, String.eqb_refl. reflexivity.
Qed.

(** X10. The lock of a WRITE session when the session ends.  A refused
    WRITE changes nothing, in either node program.  With
    storage_server.c a dropped connection gives back the node exactly as
    it was before the WRITE, and ETIRW, in either program, gives back
    the lock table as it was.  With storage_server_modular.c a dropped
    connection leaves the lock of the session in the table, and every
    later WRITE on the sentence, by anyone, is refused LOCKED with the
    name of the user who is gone. *)
Theorem write_session_lock_release (st : State) (file : string) (num : Z)
    (user : string) :
  match handle_write st file num user with
  | Refused _ st' => st' = st
  | Opened _ es st' =>
      handle_disconnect st' es = st
      /\ locks (snd (handle_etirw st' es)) = locks st
      /\ locks (snd (StorageServerModular.handle_etirw st' es)) = locks st
  end
  /\ match StorageServerModularSession.handle_write st file num user with
     | Refused _ st' => st' = st
     | Opened _ es st' =>
         let dropped :=
           StorageServerModularSession.handle_disconnect st' es in
         locks dropped = LockManager.mkSentenceLock file num user :: locks st
         /\ forall other,
              StorageServerModularSession.handle_write dropped file num other
              = Refused (mkReply ERR_FILE_LOCKED None user) dropped
     end.
Proof.
  split.
  - unfold handle_write.
    destruct (files st !! (storage_dir st +:+ file)) as [bytes|] eqn:Hfile;
      [|reflexivity].
    destruct (check_sentence_access (parse_sentences (read_content bytes))
                num) as [reply|granted] eqn:Haccess; [reflexivity|].
    apply access_granted_index in Haccess as (Hnum & _ & _).
    unfold LockManager.add_sentence_lock.
    destruct (LockManager.find_sentence_lock (locks st) file num);
      [reflexivity|].
    cbn [snd fst Z.eqb].
    unfold handle_disconnect, handle_etirw, StorageServerModular.handle_etirw.
    cbn [snd locks with_locks filename sentence_num username].
    rewrite Z2Nat.id by exact Hnum. rewrite release_own_lock.
    repeat split. destruct st; reflexivity.
  - unfold StorageServerModularSession.handle_write at 1.
    destruct (files st !! (storage_dir st +:+ file)) as [bytes|] eqn:Hfile;
      [|reflexivity].
    destruct (StorageServerModularSession.check_sentence_access
                (parse_sentences (read_content bytes)) num)
      as [reply|granted] eqn:Haccess; [reflexivity|].
    unfold LockManager.add_sentence_lock.
    destruct (LockManager.find_sentence_lock (locks st) file num);
      [reflexivity|].
    cbn [snd fst Z.eqb].
    unfold StorageServerModularSession.handle_disconnect.
    split; [reflexivity|]. intros other.
    unfold StorageServerModularSession.handle_write.
    change (storage_dir (with_locks st _)) with (storage_dir st).
    cbn [files with_locks locks]. rewrite Hfile, Haccess.
    unfold LockManager.add_sentence_lock.
    cbn [LockManager.find_sentence_lock].
    unfold LockManager.same_sentence.
    cbn [LockManager.filename LockManager.sentence_num].
    rewrite String.eqb_refl, Z.eqb_refl. reflexivity.
Qed.


Lemma file_not_temp (st : State) (file : string) :
  storage_dir st +:+ file <> storage_dir st +:+ file +:+ ".tmp".
Proof.
  intros H. apply append_inj_l in H.
  apply (f_equal String.length) in H. rewrite append_length in H.
  simpl in H. lia.
Qed.

Lemma etirw_files (st : State) (es : EditSession) :
  let file := filename es in
  let text :=
    join_sentences (<[sentence_num es := rebuild_sentence (words es)]>
                      (sentences es)) +:+ String "010" EmptyString in
  let fs := files (snd (handle_etirw st es)) in
  fs !! (storage_dir st +:+ file) = Some text
  /\ fs !! (storage_dir st +:+ file +:+ ".tmp") = None
  /\ fs !! (backup_dir st +:+ file +:+ ".backup")
     = match files st !! (storage_dir st +:+ file) with
       | Some bytes => Some bytes
       | None => files st !! (backup_dir st +:+ file +:+ ".backup")
       end.
Proof.
  intros file text. unfold handle_etirw. fold file. fold text.
  cbn [snd files].
  set (backup := backup_dir st +:+ file +:+ ".backup").
  set (temp := storage_dir st +:+ file +:+ ".tmp").
  set (fs1 := match files st !! (storage_dir st +:+ file) with
              | Some bytes => <[backup := bytes]> (files st)
              | None => files st
              end).
  assert (rename temp (storage_dir st +:+ file) (<[temp := text]> fs1)
          = <[storage_dir st +:+ file := text]>
              (delete temp (<[temp := text]> fs1))) as ->.
  { unfold rename. rewrite lookup_insert_eq. reflexivity. }
  rewrite lookup_insert_eq.
  repeat split.
  - rewrite lookup_insert_ne by (apply not_eq_sym, storage_not_backup).
    apply lookup_insert_eq.
  - rewrite lookup_insert_ne by (apply not_eq_sym, storage_not_backup).
    rewrite lookup_insert_ne by (apply file_not_temp).
    apply lookup_delete_eq.
  - subst backup.
    rewrite lookup_insert_ne by (apply not_eq_sym, sidecar_not_copy).
    rewrite lookup_insert_ne by (apply storage_not_backup).
    rewrite lookup_delete_ne by (apply storage_not_backup).
    rewrite lookup_insert_ne by (apply storage_not_backup).
    subst fs1.
    destruct (files st !! (storage_dir st +:+ file)); [|reflexivity].
    apply lookup_insert_eq.
Qed.

(** X11. What ETIRW of storage_server.c writes, for a session on a
    sentence of its array, on a file that is present, has no NUL byte
    and whose name has no folder part (the sidecar then lies in the
    backup directory made at start-up): the reply is SUCCESS, the file
    holds the joined sentences, with the edited one rebuilt from its
    words, and a newline; the sidecar [<file>.backup] holds the bytes
    the file had before; and nothing is stored under [<file>.tmp] any
    more, so a file of that name in the same directory is lost. *)
Theorem etirw_commits_the_sentences (st : State) (es : EditSession)
    (bytes : string) :
  Buffers.plain_name (filename es) = true ->
  (sentence_num es < length (sentences es))%nat ->
  files st !! (storage_dir st +:+ filename es) = Some bytes ->
  Buffers.no_nul bytes = true ->
  let file := filename es in
  let text :=
    join_sentences (<[sentence_num es := rebuild_sentence (words es)]>
                      (sentences es)) +:+ String "010" EmptyString in
  let fs := files (snd (handle_etirw st es)) in
  error_code (fst (handle_etirw st es)) = RESP_SUCCESS
  /\ fs !! (storage_dir st +:+ file) = Some text
  /\ fs !! (storage_dir st +:+ file +:+ ".tmp") = None
  /\ fs !! (backup_dir st +:+ file +:+ ".backup") = Some bytes.
Proof.
  intros _ _ Hfile _ file text fs.
  destruct (etirw_files st es) as (H1 & H2 & H3).
  cbv zeta in H3. rewrite Hfile in H3.
  split; [reflexivity|]. split; [exact H1|]. split; [exact H2 | exact H3].
Qed.

(** X11 on the node of scenario S2: the words "Goodbye world" are
    committed over "Hello world". *)
Lemma etirw_commits_the_sentences_witness :
  let es := mkEditSession "notes" 0 "alice" ["Hello world"%string]
              ["Goodbye"; "world"]%string in
  let fs :=
    files (snd (handle_etirw (Scenario.node_with "notes" "Hello world") es))
  in
  fs !! "../storage/SS1/notes"%string
  = Some ("Goodbye world" +:+ String "010" EmptyString)
  /\ fs !! "../backups/SS1/notes.backup"%string = Some "Hello world"%string.
Proof.
  intros es fs.
  destruct (etirw_commits_the_sentences
              (Scenario.node_with "notes" "Hello world") es "Hello world")
    as (_ & H1 & _ & H2);
    [reflexivity | vm_compute; lia | reflexivity | reflexivity |].
  split; [exact H1 | exact H2].
Defined.

Lemma undo_exchanges (st : State) (file bytes sidecar : string) :
  files st !! (storage_dir st +:+ file) = Some bytes ->
  files st !! (backup_dir st +:+ file +:+ ".backup") = Some sidecar ->
  UndoManager.undo_performed
    <$> UndoManager.get_undo_state (undo_states st) file <> Some 1 ->
  handle_undo st file
  = (mkReply RESP_SUCCESS None "File reverted to previous version",
     mkState (ss_id st)
       (<[backup_dir st +:+ file +:+ ".backup" := bytes]>
          (delete (backup_dir st +:+ file +:+ ".tmp_backup")
             (<[storage_dir st +:+ file := sidecar]>
                (<[backup_dir st +:+ file +:+ ".tmp_backup" := bytes]>
                   (files st)))))
       (locks st)
       (UndoManager.set_undo_state (undo_states st) file 1)).
Proof.
  intros Hf Hb Hflag. unfold handle_undo.
  assert (file_exists (files st) (storage_dir st +:+ file) = true) as ->
    by (apply bool_decide_eq_true; eauto).
  assert (file_exists (files st) (backup_dir st +:+ file +:+ ".backup") = true)
    as -> by (apply bool_decide_eq_true; eauto).
  cbn [negb].
  assert (match UndoManager.get_undo_state (undo_states st) file with
          | Some u => UndoManager.undo_performed u =? 1
          | None => false
          end = false) as ->.
  { destruct (UndoManager.get_undo_state (undo_states st) file) as [u|];
      [|reflexivity].
    destruct (Z.eqb_spec (UndoManager.undo_performed u) 1) as [H1|H1];
      [|reflexivity].
    exfalso. apply Hflag. simpl. congruence. }
  unfold copy_file. rewrite Hf.
  rewrite lookup_insert_ne by (apply not_eq_sym, sidecar_not_temp).
  rewrite Hb. unfold rename.
  rewrite lookup_insert_ne by (apply storage_not_backup).
  rewrite lookup_insert_eq. reflexivity.
Qed.

(** X12. UNDO of storage_server.c on a file with a sidecar and no
    undo on record: the file and the sidecar exchange their contents,
    the temporary copy is gone, every other path and the lock table are
    as before, and the undo flag of the file is 1. *)
Theorem undo_exchanges_file_and_sidecar (st : State)
    (file bytes sidecar : string) :
  files st !! (storage_dir st +:+ file) = Some bytes ->
  files st !! (backup_dir st +:+ file +:+ ".backup") = Some sidecar ->
  UndoManager.undo_performed
    <$> UndoManager.get_undo_state (undo_states st) file <> Some 1 ->
  let st' := snd (handle_undo st file) in
  error_code (fst (handle_undo st file)) = RESP_SUCCESS
  /\ files st' !! (storage_dir st +:+ file) = Some sidecar
  /\ files st' !! (backup_dir st +:+ file +:+ ".backup") = Some bytes
  /\ files st' !! (backup_dir st +:+ file +:+ ".tmp_backup") = None
  /\ (forall path : string,
        path <> storage_dir st +:+ file ->
        path <> backup_dir st +:+ file +:+ ".backup" ->
        path <> backup_dir st +:+ file +:+ ".tmp_backup" ->
        files st' !! path = files st !! path)
  /\ locks st' = locks st
  /\ UndoManager.undo_performed
       <$> UndoManager.get_undo_state (undo_states st') file = Some 1.
Proof.
  intros Hf Hb Hflag.
  rewrite (undo_exchanges st file bytes sidecar Hf Hb Hflag).
  cbn [fst snd error_code files locks undo_states].
  repeat split.
  - rewrite lookup_insert_ne by (apply not_eq_sym, storage_not_backup).
    rewrite lookup_delete_ne by (apply not_eq_sym, storage_not_backup).
    apply lookup_insert_eq.
  - apply lookup_insert_eq.
  - rewrite lookup_insert_ne by (apply sidecar_not_temp).
    apply lookup_delete_eq.
  - intros path H1 H2 H3.
    rewrite lookup_insert_ne by congruence.
    rewrite lookup_delete_ne by congruence.
    rewrite lookup_insert_ne by congruence.
    rewrite lookup_insert_ne by congruence. reflexivity.
  - apply get_set_undo_state.
Qed.

Lemma undo_exchanges_file_and_sidecar_witness :
  let st' := snd (handle_undo Scenario.node_after_edit "notes") in
  files st' !! "../storage/SS1/notes"%string = Some "Hello world"%string
  /\ files st' !! "../backups/SS1/notes.backup"%string
     = Some "Hello world ."%string.
Proof.
  pose proof (undo_exchanges_file_and_sidecar Scenario.node_after_edit
                "notes" "Hello world ." "Hello world" eq_refl eq_refl)
    as H.
  destruct H as (_ & H1 & H2 & _); [discriminate|].
  split; [exact H1 | exact H2].
Defined.

(** X13. ETIRW then UNDO of storage_server.c, for a session on a
    sentence of its array, on a file that is present, has no NUL byte
    (the sidecar is copied with [fgets] and [fputs]) and whose name has
    no folder part (the sidecar then lies in the backup directory made
    at start-up): after the edit is committed, UNDO answers SUCCESS and
    the file holds the bytes it had before the edit. *)
Theorem undo_restores_committed_file (st : State) (es : EditSession)
    (bytes : string) :
  Buffers.plain_name (filename es) = true ->
  (sentence_num es < length (sentences es))%nat ->
  Buffers.no_nul bytes = true ->
  files st !! (storage_dir st +:+ filename es) = Some bytes ->
  let committed := snd (handle_etirw st es) in
  error_code (fst (handle_undo committed (filename es))) = RESP_SUCCESS
  /\ files (snd (handle_undo committed (filename es)))
       !! (storage_dir st +:+ filename es) = Some bytes.
Proof.
  intros _ _ _ Hfile committed.
  destruct (etirw_files st es) as (Hf & _ & Hb). rewrite Hfile in Hb.
  fold committed in Hf, Hb.
  assert (storage_dir committed = storage_dir st) as Hs by reflexivity.
  assert (backup_dir committed = backup_dir st) as Hd by reflexivity.
  rewrite <- Hs in Hf. rewrite <- Hd in Hb.
  rewrite (undo_exchanges committed (filename es) _ bytes Hf Hb).
  - split; [reflexivity|].
    cbn [snd files]. rewrite Hs, Hd.
    rewrite lookup_insert_ne by (apply not_eq_sym, storage_not_backup).
    rewrite lookup_delete_ne by (apply not_eq_sym, storage_not_backup).
    apply lookup_insert_eq.
  - pose proof (etirw_clears_undo_flag st es) as [_ H].
    fold committed in H. rewrite H. discriminate.
Qed.

(** X13 on the node of scenario S2: "Goodbye world" is committed over
    "Hello world" and undone. *)
Lemma undo_restores_committed_file_witness :
  let es := mkEditSession "notes" 0 "alice" ["Hello world"%string]
              ["Goodbye"; "world"]%string in
  let st := Scenario.node_with "notes" "Hello world" in
  files (snd (handle_undo (snd (handle_etirw st es)) "notes"))
    !! "../storage/SS1/notes"%string = Some "Hello world"%string.
Proof.
  intros es st.
  refine (proj2 (undo_restores_committed_file st es "Hello world" eq_refl _
                   eq_refl eq_refl)).
  vm_compute. lia.
Defined.


(** X14. An update that splits the sentence, storage_server.c: when
    the rebuilt sentence parses into several sentences, these take the
    place of the current one in the sentence array, the later sentences
    moving right, and the session goes on with the first of them: its
    words are the session's words and it is the reply's data. *)
Theorem update_splits_the_sentence (es : EditSession) (word_idx : Z)
    (payload : string) :
  let pos := Z.to_nat word_idx in
  let tokens := tokenize_payload payload in
  let split :=
    parse_sentences
      (rebuild_sentence (Spec.inserted_at (words es) pos tokens)) in
  let es' := snd (handle_update es word_idx payload) in
  0 <= word_idx <= Z.of_nat (length (words es)) ->
  (sentence_num es < length (sentences es))%nat ->
  tokens <> [] ->
  (1 < length split)%nat ->
  sentences es'
  = take (sentence_num es) (sentences es) ++ split
    ++ drop (S (sentence_num es)) (sentences es)
  /\ length (sentences es')
     = (length (sentences es) + length split - 1)%nat
  /\ words es' = parse_words (split !!! 0%nat)
  /\ data (fst (handle_update es word_idx payload))
     = strncpy_data (split !!! 0%nat)
  /\ sentence_num es' = sentence_num es.
Proof.
  intros pos tokens split es' Hidx Hnum Htok Hsplit.
  subst es'. unfold handle_update.
  assert (((word_idx <? 0) || (word_idx >? Z.of_nat (length (words es))))%bool
          = false) as ->.
  { apply orb_false_intro; [apply Z.ltb_ge; lia|].
    rewrite Z.gtb_ltb. apply Z.ltb_ge. lia. }
  fold tokens. fold pos.
  rewrite (ArrayFacts.insert_words_spec (words es) tokens pos)
    by (subst pos; lia).
  fold (Spec.inserted_at (words es) pos tokens). fold split.
  destruct tokens as [|t rest] eqn:Htokens; [contradiction|].
  rewrite <- Htokens in *.
  apply Nat.ltb_lt in Hsplit as Hlt. rewrite Hlt.
  cbn [fst snd sentences words data sentence_num].
  destruct split as [|first others] eqn:Hsp; [simpl in Hsplit; lia|].
  rewrite (ArrayFacts.splice_sentences_spec _ _ first others Hnum).
  assert ((take (sentence_num es) (sentences es) ++ (first :: others)
             ++ drop (S (sentence_num es)) (sentences es))
            !!! sentence_num es = first) as Hcur.
  { apply list_lookup_total_correct.
    rewrite lookup_app_r by (rewrite length_take; lia).
    rewrite length_take.
    replace (sentence_num es - sentence_num es `min` length (sentences es))%nat
      with 0%nat by lia.
    reflexivity. }
  rewrite Hcur.
  repeat split.
  rewrite !length_app, length_take, length_drop. simpl. lia.
Qed.

Lemma update_splits_the_sentence_witness :
  let es := mkEditSession "notes" 0 "alice"
              ["Hello world"; "Next."]%string ["Hello"; "world"]%string in
  sentences (snd (handle_update es 2 "again. Bye"))
  = ["Hello world again."; "Bye"; "Next."]%string.
Proof.
  intros es.
  assert (0 <= 2 <= Z.of_nat (length (words es))) as H1
    by (vm_compute; split; discriminate).
  assert (sentence_num es < length (sentences es))%nat as H2
    by (vm_compute; lia).
  assert (tokenize_payload "again. Bye" <> []) as H3
    by (vm_compute; discriminate).
  assert (1 < length (parse_sentences
                        (rebuild_sentence
                           (Spec.inserted_at (words es) (Z.to_nat 2)
                              (tokenize_payload "again. Bye")))))%nat as H4
    by (vm_compute; lia).
  exact (proj1 (update_splits_the_sentence es 2 "again. Bye" H1 H2 H3 H4)).
Defined.

End EditSessionFacts.

(** ** File records: the ACL and the access requests *)

Module RecordFacts.

Import AccessControl RecordTraces.

Lemma find_acl_absent (l : list AccessControl.AccessControl) (user : string) :
  user ∉ username <$> l -> find_acl l user = None.
Proof.
  induction l as [|a rest IH]; simpl; [reflexivity|].
  intros H. apply not_elem_of_cons in H as [Hne Hrest].
  destruct (String.eqb_spec (username a) user); [congruence | auto].
Qed.

Lemma update_acl_names (l l' : list AccessControl.AccessControl)
    (user : string) (r w : Z) :
  update_acl l user r w = Some l' -> username <$> l' = username <$> l.
Proof.
  revert l'. induction l as [|a rest IH]; intros l'; simpl; [discriminate|].
  destruct (String.eqb (username a) user).
  - intros H. injection H as <-. reflexivity.
  - destruct (update_acl rest user r w) as [rest'|]; [|discriminate].
    intros H. injection H as <-. rewrite !fmap_cons, (IH rest' eq_refl).
    reflexivity.
Qed.

Lemma update_acl_absent (l : list AccessControl.AccessControl)
    (user : string) (r w : Z) :
  update_acl l user r w = None -> user ∉ username <$> l.
Proof.
  induction l as [|a rest IH]; simpl; [intros _; apply not_elem_of_nil|].
  destruct (String.eqb_spec (username a) user) as [|Hne]; [discriminate|].
  destruct (update_acl rest user r w); [discriminate|].
  intros _. apply not_elem_of_cons. split; [congruence | auto].
Qed.

Lemma update_acl_rights (l l' : list AccessControl.AccessControl)
    (user other : string) (r w : Z) :
  update_acl l user r w = Some l' ->
  rights_of l' other
  = if String.eqb user other then Some (r, w) else rights_of l other.
Proof.
  unfold rights_of. revert l'.
  induction l as [|a rest IH]; intros l'; simpl; [discriminate|].
  destruct (String.eqb_spec (username a) user) as [Hu|Hu].
  - intros H. injection H as <-. simpl. subst user.
    destruct (String.eqb (username a) other); reflexivity.
  - destruct (update_acl rest user r w) as [rest'|]; [|discriminate].
    intros H. injection H as <-. simpl.
    destruct (String.eqb_spec (username a) other) as [Ho|Ho].
    + destruct (String.eqb_spec user other); [congruence | reflexivity].
    + apply IH. reflexivity.
Qed.

Lemma remove_acl_names (l l' : list AccessControl.AccessControl)
    (user : string) :
  remove_acl l user = Some l' ->
  NoDup (username <$> l) ->
  NoDup (username <$> l')
  /\ forall other,
       rights_of l' other
       = if String.eqb user other then None else rights_of l other.
Proof.
  unfold rights_of. revert l'.
  induction l as [|a rest IH]; intros l'; simpl; [discriminate|].
  intros H Hnd. apply NoDup_cons in Hnd as [Ha Hrest].
  destruct (String.eqb_spec (username a) user) as [Hu|Hu].
  - injection H as <-. split; [exact Hrest|]. intros other. subst user.
    destruct (String.eqb_spec (username a) other) as [<-|Ho];
      [|reflexivity].
    rewrite find_acl_absent by exact Ha. reflexivity.
  - destruct (remove_acl rest user) as [rest'|] eqn:Hrem; [|discriminate].
    injection H as <-.
    destruct (IH rest' eq_refl Hrest) as [IH1 IH2].
    split.
    + rewrite fmap_cons. apply NoDup_cons. split; [|exact IH1].
      intros Hin. apply Ha.
      clear -Hin Hrem. revert rest' Hrem Hin.
      induction rest as [|b rest IHr]; intros rest' Hrem Hin; simpl in *;
        [discriminate|].
      destruct (String.eqb (username b) user).
      * injection Hrem as <-. apply elem_of_cons. right. exact Hin.
      * destruct (remove_acl rest user) as [r'|]; [|discriminate].
        injection Hrem as <-. rewrite fmap_cons in Hin.
        apply elem_of_cons in Hin as [->|Hin];
          [apply elem_of_cons; left; reflexivity|].
        apply elem_of_cons. right. eapply IHr; eauto.
    + intros other. simpl.
      destruct (String.eqb_spec (username a) other) as [Ho|Ho].
      * destruct (String.eqb_spec user other); [congruence | reflexivity].
      * apply IH2.
Qed.

Lemma remove_acl_absent (l : list AccessControl.AccessControl)
    (user : string) :
  remove_acl l user = None -> user ∉ username <$> l.
Proof.
  induction l as [|a rest IH]; simpl; [intros _; apply not_elem_of_nil|].
  destruct (String.eqb_spec (username a) user) as [|Hne]; [discriminate|].
  destruct (remove_acl rest user); [discriminate|].
  intros _. apply not_elem_of_cons. split; [congruence | auto].
Qed.

Lemma check_permission_rights (entry : FileEntry) (user : string)
    (need_write : Z) :
  check_permission entry user need_write
  = if String.eqb (owner entry) user then 1
    else match rights_of (acl entry) user with
         | Some (r, w) => if need_write =? 0 then r else w
         | None => 0
         end.
Proof.
  unfold check_permission, rights_of.
  destruct (String.eqb (owner entry) user); [reflexivity|].
  destruct (find_acl (acl entry) user); reflexivity.
Qed.

Lemma add_access_rights (entry : FileEntry) (user other : string) (r w : Z) :
  rights_of (acl (snd (add_access entry user r w))) other
  = if String.eqb user other then Some (r, w)
    else rights_of (acl entry) other.
Proof.
  unfold add_access.
  destruct (update_acl (acl entry) user r w) as [l'|] eqn:Hup; simpl.
  - apply (update_acl_rights _ _ _ _ _ _ Hup).
  - unfold rights_of. simpl. destruct (String.eqb user other); reflexivity.
Qed.

Lemma remove_access_rights (entry : FileEntry) (user other : string) :
  NoDup (username <$> acl entry) ->
  rights_of (acl (snd (remove_access entry user))) other
  = if String.eqb user other then None else rights_of (acl entry) other.
Proof.
  intros Hnd. unfold remove_access.
  destruct (remove_acl (acl entry) user) as [l'|] eqn:Hrem; simpl.
  - apply (remove_acl_names _ _ _ Hrem Hnd).
  - apply remove_acl_absent in Hrem.
    destruct (String.eqb_spec user other) as [<-|]; [|reflexivity].
    unfold rights_of. rewrite find_acl_absent by exact Hrem. reflexivity.
Qed.

Lemma acl_step_rights (entry : FileEntry) (op : AclOp) :
  NoDup (username <$> acl entry) ->
  NoDup (username <$> acl (acl_step entry op))
  /\ owner (acl_step entry op) = owner entry
  /\ forall user,
       rights_of (acl (acl_step entry op)) user
       = rights_step user (rights_of (acl entry) user) op.
Proof.
  intros Hnd. destruct op as [u r w|u]; simpl.
  - unfold add_access.
    destruct (update_acl (acl entry) u r w) as [l'|] eqn:Hup; simpl.
    + rewrite (update_acl_names _ _ _ _ _ Hup).
      split; [exact Hnd|]. split; [reflexivity|].
      intros user. apply (update_acl_rights _ _ _ _ _ _ Hup).
    + apply update_acl_absent in Hup.
      split; [apply NoDup_cons; split; assumption|].
      split; [reflexivity|]. intros user. unfold rights_of. simpl.
      destruct (String.eqb u user); reflexivity.
  - unfold remove_access.
    destruct (remove_acl (acl entry) u) as [l'|] eqn:Hrem; simpl.
    + destruct (remove_acl_names _ _ _ Hrem Hnd) as [H1 H2].
      split; [exact H1|]. split; [reflexivity|]. exact H2.
    + split; [exact Hnd|]. split; [reflexivity|].
      intros user. apply remove_acl_absent in Hrem.
      destruct (String.eqb_spec u user) as [<-|]; [|reflexivity].
      unfold rights_of. rewrite find_acl_absent by exact Hrem. reflexivity.
Qed.

Lemma run_acl_ops_rights (ops : list AclOp) (entry : FileEntry) :
  NoDup (username <$> acl entry) ->
  NoDup (username <$> acl (run_acl_ops entry ops))
  /\ owner (run_acl_ops entry ops) = owner entry
  /\ forall user,
       rights_of (acl (run_acl_ops entry ops)) user
       = fold_left (rights_step user) ops (rights_of (acl entry) user).
Proof.
  unfold run_acl_ops. revert entry.
  induction ops as [|op ops IH]; intros entry Hnd; simpl.
  - split; [exact Hnd|]. split; reflexivity.
  - destruct (acl_step_rights entry op Hnd) as (H1 & H2 & H3).
    destruct (IH _ H1) as (IH1 & IH2 & IH3).
    split; [exact IH1|]. split; [congruence|].
    intros user. rewrite IH3, H3. reflexivity.
Qed.

(** X15. The ACL of a record is a map from user to rights: after any
    sequence of [add_access] and [remove_access] calls on a new record,
    no user has two entries, and [check_permission] answers 1 for the
    owner and, for anyone else, the right given by the last grant made
    for the user, or 0 when a [remove_access] came after it or nothing
    was ever granted. *)
Theorem acl_is_a_map (filename file_owner server_id : string)
    (ops : list AclOp) (user : string) (need_write : Z) :
  let entry :=
    run_acl_ops (mkFileEntry filename file_owner server_id [] []) ops in
  NoDup (username <$> acl entry)
  /\ check_permission entry user need_write
     = if String.eqb file_owner user then 1
       else match last_rights ops user with
            | Some (r, w) => if need_write =? 0 then r else w
            | None => 0
            end.
Proof.
  intros entry.
  destruct (run_acl_ops_rights ops
              (mkFileEntry filename file_owner server_id [] []))
    as (H1 & H2 & H3); [constructor|].
  fold entry in H1, H2, H3. split; [exact H1|].
  unfold check_permission. rewrite H2. simpl.
  destruct (String.eqb file_owner user); [reflexivity|].
  specialize (H3 user). unfold rights_of in H3. simpl in H3.
  fold (last_rights ops user) in H3.
  destruct (find_acl (acl entry) user) as [a|]; simpl in H3; rewrite <- H3;
    reflexivity.
Qed.


Lemma add_access_requests (entry : FileEntry) (user : string) (r w : Z) :
  access_requests (snd (add_access entry user r w)) = access_requests entry.
Proof.
  unfold add_access. destruct (update_acl (acl entry) user r w); reflexivity.
Qed.

Lemma filter_pending_cons (req : AccessRequestNode)
    (l : list AccessRequestNode) :
  filter pending (req :: l)
  = if status req =? 0 then req :: filter pending l else filter pending l.
Proof.
  rewrite filter_cons.
  destruct (decide (pending req)) as [H|H]; unfold pending in H;
    destruct (status req =? 0); try reflexivity;
    [destruct H | exfalso; apply H; exact I].
Qed.

Lemma has_pending_requesters (l : list AccessRequestNode) (user : string) :
  has_pending l user = false -> user ∉ requester <$> filter pending l.
Proof.
  induction l as [|req rest IH]; simpl; [intros _; apply not_elem_of_nil|].
  intros H. apply orb_false_elim in H as [Hreq Hrest].
  rewrite filter_pending_cons.
  destruct (status req =? 0) eqn:Hp; [|auto].
  rewrite fmap_cons. apply not_elem_of_cons. split; [|auto].
  intros ->. rewrite String.eqb_refl in Hreq. discriminate.
Qed.

Lemma settle_request_shape (l l' : list AccessRequestNode) (id approve : Z)
    (hit : AccessRequestNode) :
  settle_request l id approve = Some (l', hit) ->
  request_id <$> l' = request_id <$> l
  /\ requester <$> filter pending l'
     `sublist_of` requester <$> filter pending l.
Proof.
  revert l'. induction l as [|req rest IH]; intros l'; simpl; [discriminate|].
  destruct ((request_id req =? id) && (status req =? 0))%bool eqn:Hhit.
  - intros H. injection H as <- <-. split; [reflexivity|].
    apply andb_prop in Hhit as [_ Hp].
    rewrite !filter_pending_cons. cbn [status]. rewrite Hp.
    assert (((if approve =? 0 then 2 else 1) =? 0) = false) as ->
      by (destruct (approve =? 0); reflexivity).
    rewrite fmap_cons. apply sublist_cons. reflexivity.
  - destruct (settle_request rest id approve) as [[rest' hit']|];
      [|discriminate].
    intros H. injection H as <- <-.
    destruct (IH rest' eq_refl) as [IH1 IH2].
    split; [rewrite !fmap_cons, IH1; reflexivity|].
    rewrite !filter_pending_cons.
    destruct (status req =? 0); [|exact IH2].
    rewrite !fmap_cons. apply sublist_skip. exact IH2.
Qed.

Lemma respond_to_request_shape (entry : FileEntry) (id approve : Z) :
  let entry' := snd (respond_to_request entry id approve) in
  request_id <$> access_requests entry'
  = request_id <$> access_requests entry
  /\ requester <$> filter pending (access_requests entry')
     `sublist_of` requester <$> filter pending (access_requests entry).
Proof.
  unfold respond_to_request.
  destruct (settle_request (access_requests entry) id approve)
    as [[requests' req]|] eqn:Hsettle; [|split; reflexivity].
  destruct (settle_request_shape _ _ _ _ _ Hsettle) as [H1 H2].
  destruct (approve =? 0); [split; assumption|].
  cbn [snd]. rewrite add_access_requests. split; assumption.
Qed.

Lemma request_step_ok (first : Z) (s : FileEntry * Z) (op : RequestOp) :
  requests_ok first s -> first <= snd s ->
  requests_ok first (request_step s op) /\ first <= snd (request_step s op).
Proof.
  destruct s as [entry next]. unfold requests_ok. simpl.
  intros (Hids & Hpend & Hrange) Hfirst.
  destruct op as [user type|id approve|]; simpl.
  - unfold add_access_request.
    destruct (has_pending (access_requests entry) user) eqn:Hp;
      cbn [fst snd access_requests with_access_requests];
      [repeat split; assumption|].
    repeat split; [| | |lia].
    + apply NoDup_cons. split; [|exact Hids].
      intros Hin. apply list_elem_of_fmap in Hin as (req & Hid & Hin).
      rewrite Forall_forall in Hrange. specialize (Hrange req Hin).
      simpl in Hid. lia.
    + rewrite filter_pending_cons. cbn [status Z.eqb].
      rewrite fmap_cons. apply NoDup_cons. split; [|exact Hpend].
      apply has_pending_requesters. exact Hp.
    + constructor; [simpl; lia|].
      eapply Forall_impl; [exact Hrange|]. simpl. intros; lia.
  - destruct (respond_to_request_shape entry id approve) as [H1 H2].
    repeat split; [| | |exact Hfirst].
    + rewrite H1. exact Hids.
    + eapply sublist_NoDup; [exact Hpend | exact H2].
    + apply (Forall_fmap request_id (fun id => first <= id < next)).
      rewrite H1.
      apply (Forall_fmap request_id (fun id => first <= id < next)).
      exact Hrange.
  - repeat split; [exact Hids | exact Hpend | | lia].
    eapply Forall_impl; [exact Hrange|]. simpl. intros; lia.
Qed.

Lemma run_request_ops_ok (ops : list RequestOp) (first : Z)
    (s : FileEntry * Z) :
  requests_ok first s -> first <= snd s ->
  requests_ok first (fold_left request_step ops s).
Proof.
  revert s. induction ops as [|op ops IH]; intros s Hok Hfirst; simpl;
    [exact Hok|].
  destruct (request_step_ok first s op Hok Hfirst) as [H1 H2].
  apply IH; assumption.
Qed.

(** X16. The request list of a record, after any sequence of
    [add_access_request] and [respond_to_request] calls on a new record
    (and of requests made on other files) that keeps the counter
    [next_request_id], an [int] that starts at 1, below [INT_MAX]:
    request ids are distinct, all were drawn from the counter, and no
    user has two pending requests. *)
Theorem access_requests_well_formed (filename file_owner server_id : string)
    (first : Z) (ops : list RequestOp) :
  Buffers.counter_in_range first ops = true ->
  let s :=
    run_request_ops (mkFileEntry filename file_owner server_id [] []) first
      ops in
  NoDup (request_id <$> access_requests (fst s))
  /\ NoDup (requester <$> filter pending (access_requests (fst s)))
  /\ Forall (fun req => first <= request_id req < snd s)
       (access_requests (fst s)).
Proof.
  intros _. apply run_request_ops_ok; [|simpl; lia].
  repeat split; constructor.
Qed.

(** X16 on a history of three calls: "bob" asks twice, and is answered
    in between. *)
Lemma access_requests_well_formed_witness :
  let s :=
    run_request_ops (mkFileEntry "report" "alice" "SS1" [] []) 1
      [Request "bob" 1; Respond 1 1; Request "bob" 2] in
  NoDup (request_id <$> access_requests (fst s))
  /\ request_id <$> access_requests (fst s) = [2; 1].
Proof.
  intros s. split; [|reflexivity].
  exact (proj1 (access_requests_well_formed "report" "alice" "SS1" 1
                  [Request "bob" 1; Respond 1 1; Request "bob" 2] eq_refl)).
Defined.

Lemma settle_request_absent (l : list AccessRequestNode) (id approve : Z) :
  id ∉ request_id <$> l -> settle_request l id approve = None.
Proof.
  induction l as [|req rest IH]; simpl; [reflexivity|].
  intros H. apply not_elem_of_cons in H as [Hne Hrest].
  destruct (Z.eqb_spec (request_id req) id); [congruence|].
  simpl. rewrite IH by exact Hrest. reflexivity.
Qed.

Lemma settle_request_once (l l' : list AccessRequestNode)
    (id approve approve' : Z) (hit : AccessRequestNode) :
  NoDup (request_id <$> l) ->
  settle_request l id approve = Some (l', hit) ->
  settle_request l' id approve' = None.
Proof.
  revert l'. induction l as [|req rest IH]; intros l' Hnd; simpl;
    [discriminate|].
  apply NoDup_cons in Hnd as [Hreq Hrest].
  destruct ((request_id req =? id) && (status req =? 0))%bool eqn:Hhit.
  - intros H. injection H as <- <-. simpl.
    apply andb_prop in Hhit as [Hid _]. apply Z.eqb_eq in Hid.
    assert (((if approve =? 0 then 2 else 1) =? 0) = false) as ->
      by (destruct (approve =? 0); reflexivity).
    rewrite andb_false_r.
    rewrite (settle_request_absent rest id approve')
      by (rewrite <- Hid; exact Hreq).
    reflexivity.
  - destruct (settle_request rest id approve) as [[rest' hit']|] eqn:Hrec;
      [|discriminate].
    intros H. injection H as <- <-. simpl. rewrite Hhit.
    rewrite (IH rest' Hrest eq_refl). reflexivity.
Qed.

(** X17. A request is answered once: on a record reached by such a
    sequence of calls, the counter below [INT_MAX], whatever
    [respond_to_request] did for an id the first time, a second call for
    the same id returns -1 (not found or not pending). *)
Theorem request_answered_once (filename file_owner server_id : string)
    (first : Z) (ops : list RequestOp) (id approve approve' : Z) :
  Buffers.counter_in_range first ops = true ->
  let entry :=
    fst (run_request_ops (mkFileEntry filename file_owner server_id [] [])
           first ops) in
  fst (respond_to_request (snd (respond_to_request entry id approve))
         id approve')
  = -1.
Proof.
  intros _ entry.
  assert (NoDup (request_id <$> access_requests entry)) as Hids.
  { apply (run_request_ops_ok ops first); [|simpl; lia].
    repeat split; constructor. }
  unfold respond_to_request at 2.
  destruct (settle_request (access_requests entry) id approve)
    as [[requests' req]|] eqn:Hsettle.
  - assert (settle_request requests' id approve' = None) as Hnone
      by (eapply settle_request_once; eauto).
    unfold respond_to_request.
    destruct (approve =? 0); cbn [snd];
      rewrite ?add_access_requests; cbn [access_requests with_access_requests];
      rewrite Hnone; reflexivity.
  - cbn [snd]. unfold respond_to_request.
    assert (settle_request (access_requests entry) id approve' = None) as ->.
    { clear -Hsettle. induction (access_requests entry) as [|r rest IH];
        simpl in *; [reflexivity|].
      destruct ((request_id r =? id) && (status r =? 0))%bool;
        [discriminate|].
      destruct (settle_request rest id approve) as [[? ?]|]; [discriminate|].
      rewrite IH by reflexivity. reflexivity. }
    reflexivity.
Qed.

(** X17 on the request of "bob" for the file "report": it is approved,
    and the refusal that comes after finds nothing to answer. *)
Lemma request_answered_once_witness :
  let entry :=
    fst (run_request_ops (mkFileEntry "report" "alice" "SS1" [] []) 1
           [Request "bob" 1]) in
  fst (respond_to_request entry 1 1) = 0
  /\ fst (respond_to_request (snd (respond_to_request entry 1 1)) 1 0) = -1.
Proof.
  intros entry. split; [reflexivity|].
  exact (request_answered_once "report" "alice" "SS1" 1 [Request "bob" 1]
           1 1 0 eq_refl).
Defined.

End RecordFacts.

(** ** The coordinator: what a grant, a revocation and a CREATE change *)

Module CoordinatorFacts.

Import Protocol Coordinator AccessControl NamingServer RecordTraces
  RecordFacts Observation.

Lemma read_denied (st : State) (entry : FileEntry) (user filename : string) :
  lookup_file st filename = Some entry ->
  denied (fst (handle_read st user filename))
  <-> check_permission entry user 0 = 0.
Proof.
  intros Hlook. unfold denied, handle_read. rewrite Hlook.
  destruct (Z.eqb_spec (check_permission entry user 0) 0) as [H0|H0].
  - split; [intros _; exact H0 | reflexivity].
  - split; [|contradiction].
    destruct (StorageServerManager.find_ss_by_id _ _) as [ss|];
      [destruct (is_active ss =? 0)|]; discriminate.
Qed.

Lemma refer_writer_denied (text purpose : string) (st : State)
    (entry : FileEntry) (user filename : string) :
  lookup_file st filename = Some entry ->
  denied (NamingServerReferral.refer_writer text purpose st user filename)
  <-> check_permission entry user 1 = 0.
Proof.
  intros Hlook. unfold denied, NamingServerReferral.refer_writer.
  rewrite Hlook.
  destruct (Z.eqb_spec (check_permission entry user 1) 0) as [H0|H0].
  - split; [intros _; exact H0 | reflexivity].
  - split; [|contradiction].
    destruct (StorageServerManager.find_ss_by_id _ _) as [ss|];
      [destruct (is_active ss =? 0)|]; discriminate.
Qed.

(** The three replies depend on the record through the permissions of
    the user and the node of the file only. *)
Lemma replies_same (st st' : State) (entry entry' : FileEntry)
    (user filename : string) :
  lookup_file st filename = Some entry ->
  lookup_file st' filename = Some entry' ->
  storage_servers st' = storage_servers st ->
  storage_server_id entry' = storage_server_id entry ->
  (forall need_write,
     check_permission entry' user need_write
     = check_permission entry user need_write) ->
  replies st' user filename = replies st user filename.
Proof.
  intros Hlook Hlook' Hss Hid Hperm.
  unfold replies, NamingServerReferral.handle_write,
    NamingServerReferral.handle_undo, NamingServerReferral.refer_writer,
    handle_read.
  rewrite Hlook, Hlook', Hss, Hid, !Hperm.
  destruct (check_permission entry user 0 =? 0);
    destruct (check_permission entry user 1 =? 0); try reflexivity;
    destruct (StorageServerManager.find_ss_by_id (storage_servers st)
                (storage_server_id entry)) as [ss|];
    try destruct (is_active ss =? 0); reflexivity.
Qed.

Lemma add_access_fields (entry : FileEntry) (user : string) (r w : Z) :
  owner (snd (add_access entry user r w)) = owner entry
  /\ storage_server_id (snd (add_access entry user r w))
     = storage_server_id entry.
Proof.
  unfold add_access. destruct (update_acl (acl entry) user r w);
    split; reflexivity.
Qed.

Lemma remove_access_fields (entry : FileEntry) (user : string) :
  owner (snd (remove_access entry user)) = owner entry
  /\ storage_server_id (snd (remove_access entry user))
     = storage_server_id entry.
Proof.
  unfold remove_access. destruct (remove_acl (acl entry) user);
    split; reflexivity.
Qed.

(** X18. What a successful ADDACCESS changes, naming_server.c, when
    the payload names a user (its first run of non-space characters is
    not empty and fits the buffer of [MAX_USERNAME] bytes that [sscanf]
    fills): for the user named in the request, when not the owner, READ
    is refused DENIED exactly when neither flag bit was set, and the
    WRITE and UNDO referrals are refused DENIED exactly when the write
    bit was not set; every other user gets the replies to READ, WRITE
    and UNDO on the file that they got before. *)
Theorem add_access_changes_one_user (st : State)
    (client filename : string) (flags : Z) (data : string) :
  Buffers.names_user data = true ->
  error_code (fst (handle_add_access st client filename flags data))
  = RESP_SUCCESS ->
  let st' := snd (handle_add_access st client filename flags data) in
  let target := scan_word data false in
  (target <> client ->
   let '(read, write, undo) := replies st' target filename in
   (denied read <-> Z.land flags 1 = 0 /\ Z.land flags 2 = 0)
   /\ (denied write <-> Z.land flags 2 = 0)
   /\ (denied undo <-> Z.land flags 2 = 0))
  /\ forall user,
       user <> target ->
       replies st' user filename = replies st user filename.
Proof.
  intros _. unfold handle_add_access.
  destruct (lookup_file st filename) as [entry|] eqn:Hlook;
    [|discriminate].
  destruct (String.eqb_spec (owner entry) client) as [Hown|];
    [|discriminate].
  destruct (negb (UserSessionManager.user_exists (registered_users st)
                    (scan_word data false))); [discriminate|].
  set (target := scan_word data false).
  set (w := if Z.land flags 2 =? 0 then 0 else 1).
  set (r := if w =? 0 then if Z.land flags 1 =? 0 then 0 else 1 else 1).
  pose proof (add_access_rights entry target) as Hrights.
  pose proof (add_access_fields entry target r w) as [Howner Hnode].
  specialize (fun other => Hrights other r w).
  destruct (add_access entry target r w) as [result entry'].
  cbn [fst snd negb] in *. intros _.
  set (st' := with_file_table st (<[filename := entry']> (file_table st))).
  assert (lookup_file st' filename = Some entry') as Hlook'
    by apply lookup_insert_eq.
  split.
  - intros Hne.
    assert (forall need_write,
              check_permission entry' target need_write
              = if need_write =? 0 then r else w) as Hperm.
    { intros nw. rewrite check_permission_rights, Howner, Hown.
      destruct (String.eqb_spec client target); [congruence|].
      rewrite Hrights, String.eqb_refl. reflexivity. }
    unfold replies.
    rewrite (read_denied st' entry' target filename Hlook').
    unfold NamingServerReferral.handle_write,
      NamingServerReferral.handle_undo.
    rewrite !(refer_writer_denied _ _ st' entry' target filename Hlook').
    rewrite !Hperm. cbn [Z.eqb]. subst r w.
    destruct (Z.eqb_spec (Z.land flags 2) 0) as [H2|H2];
      destruct (Z.eqb_spec (Z.land flags 1) 0) as [H1|H1]; cbn [Z.eqb];
      repeat split; intros; try tauto; try discriminate;
      try (exfalso; tauto); destruct H; contradiction.
  - intros user Hne.
    apply (replies_same st st' entry entry'); auto.
    intros nw. rewrite !check_permission_rights, Howner, Hrights.
    destruct (String.eqb_spec target user); [congruence | reflexivity].
Qed.


Lemma add_access_changes_one_user_witness :
  let st' :=
    snd (handle_add_access Scenario.coordinator_with_report "alice" "report"
           2 "bob") in
  ~ denied (NamingServerReferral.handle_write st' "bob" "report")
  /\ replies st' "alice" "report"
     = replies Scenario.coordinator_with_report "alice" "report".
Proof.
  intros st'.
  destruct (add_access_changes_one_user Scenario.coordinator_with_report
              "alice" "report" 2 "bob" eq_refl eq_refl) as [Hbob Hothers].
  split.
  - specialize (Hbob ltac:(discriminate)). unfold replies in Hbob.
    destruct Hbob as (_ & Hwrite & _).
    intros Hd. apply Hwrite in Hd. discriminate.
  - apply Hothers. discriminate.
Defined.

(** X19. What a successful REMACCESS changes, naming_server.c, when
    the payload names a user (its first run of non-space characters is
    not empty and fits the buffer of [MAX_USERNAME] bytes that [sscanf]
    fills): on a record whose ACL names nobody twice, the user named is
    not the owner and is from then on refused DENIED for READ, WRITE and
    UNDO on the file; every other user gets the replies they got
    before. *)
Theorem rem_access_revokes_one_user (st : State)
    (client filename data : string) (entry : FileEntry) :
  Buffers.names_user data = true ->
  lookup_file st filename = Some entry ->
  NoDup (username <$> acl entry) ->
  error_code (fst (handle_rem_access st client filename data))
  = RESP_SUCCESS ->
  let st' := snd (handle_rem_access st client filename data) in
  let target := scan_word data false in
  target <> owner entry
  /\ (let '(read, write, undo) := replies st' target filename in
      denied read /\ denied write /\ denied undo)
  /\ forall user,
       user <> target ->
       replies st' user filename = replies st user filename.
Proof.
  intros _ Hlook Hnd. unfold handle_rem_access. rewrite Hlook.
  destruct (String.eqb_spec (owner entry) client) as [Hown|];
    [|discriminate].
  set (target := scan_word data false).
  destruct (String.eqb_spec target client) as [|Hne]; [discriminate|].
  pose proof (remove_access_rights entry target) as Hrights.
  pose proof (remove_access_fields entry target) as [Howner Hnode].
  specialize (fun other => Hrights other Hnd).
  destruct (remove_access entry target) as [result entry'].
  cbn [fst snd negb] in *.
  destruct (result =? 1); [|discriminate]. intros _. cbn [snd].
  set (st' := with_file_table st (<[filename := entry']> (file_table st))).
  assert (lookup_file st' filename = Some entry') as Hlook'
    by apply lookup_insert_eq.
  split; [congruence|]. split.
  - assert (forall need_write,
              check_permission entry' target need_write = 0) as Hperm.
    { intros nw. rewrite check_permission_rights, Howner, Hown.
      destruct (String.eqb_spec client target); [congruence|].
      rewrite Hrights, String.eqb_refl. reflexivity. }
    unfold replies, NamingServerReferral.handle_write,
      NamingServerReferral.handle_undo.
    rewrite (read_denied st' entry' target filename Hlook').
    rewrite !(refer_writer_denied _ _ st' entry' target filename Hlook').
    rewrite !Hperm. repeat split.
  - intros user Hu.
    apply (replies_same st st' entry entry'); auto.
    intros nw. rewrite !check_permission_rights, Howner, Hrights.
    destruct (String.eqb_spec target user); [congruence | reflexivity].
Qed.

Lemma rem_access_revokes_one_user_witness :
  let granted :=
    snd (handle_add_access Scenario.coordinator_with_report "alice" "report"
           2 "bob") in
  let st' := snd (handle_rem_access granted "alice" "report" "bob") in
  denied (NamingServerReferral.handle_write st' "bob" "report").
Proof.
  intros granted st'.
  destruct (rem_access_revokes_one_user granted "alice" "report" "bob"
              (mkFileEntry "report" "alice" "SS1"
                 [mkAccessControl "bob" 1 1] [])
              eq_refl eq_refl) as (_ & H & _).
  - repeat constructor. apply not_elem_of_nil.
  - reflexivity.
  - unfold replies in H. destruct H as (_ & H & _). exact H.
Defined.

Lemma select_storage_server_refusal (st : State) (data : string)
    (reply : Reply) :
  select_storage_server st data = inl reply ->
  error_code reply = ERR_SS_UNAVAILABLE.
Proof.
  unfold select_storage_server.
  destruct (Nat.ltb 0 (String.length data)).
  - destruct (StorageServerManager.find_ss_by_id _ _) as [ss|].
    + destruct (ss_socket ss <? 0); [|discriminate].
      intros H. injection H as <-. reflexivity.
    + intros H. injection H as <-. reflexivity.
  - destruct (StorageServerManager.get_available_ss _) as [ss|].
    + destruct (ss_socket ss <? 0); [|discriminate].
      intros H. injection H as <-. reflexivity.
    + intros H. injection H as <-. reflexivity.
Qed.

(** X20. A created file is private to its creator, naming_server.c:
    after a CREATE that answered SUCCESS the name was free before, the
    record is new,
    with the creator as owner, the node chosen by
    [select_storage_server] and an empty ACL, no other record changed,
    the creator is not refused DENIED by READ, WRITE or UNDO, everyone
    else is, and the same CREATE again answers FILE_EXISTS. *)
Theorem created_file_is_private (st : State)
    (client filename data : string) (ss_response : Z * string) :
  error_code (fst (handle_create st client filename data ss_response))
  = RESP_SUCCESS ->
  let st' := snd (handle_create st client filename data ss_response) in
  lookup_file st filename = None
  /\ (exists ss,
        select_storage_server st data = inr ss
        /\ lookup_file st' filename
           = Some (mkFileEntry filename client (id ss) [] []))
  /\ (forall other, other <> filename ->
                    lookup_file st' other = lookup_file st other)
  /\ (let '(read, write, undo) := replies st' client filename in
      ~ denied read /\ ~ denied write /\ ~ denied undo)
  /\ (forall user, user <> client ->
        let '(read, write, undo) := replies st' user filename in
        denied read /\ denied write /\ denied undo)
  /\ error_code
       (fst (handle_create st' client filename data ss_response))
     = ERR_FILE_EXISTS.
Proof.
  unfold handle_create at 1 2.
  destruct (lookup_file st filename) as [entry|] eqn:Hlook;
    [discriminate|].
  destruct (select_storage_server st data) as [reply|ss] eqn:Hsel.
  { cbn [fst]. rewrite (select_storage_server_refusal _ _ _ Hsel).
    discriminate. }
  destruct (Z.eqb_spec (fst ss_response) RESP_SUCCESS) as [Hok|Hbad];
    [|cbn [fst error_code]; intros H; contradiction].
  intros _. cbn [snd].
  set (entry := mkFileEntry filename client (id ss) [] []).
  set (st' := with_file_table st
                (add_file (file_table st) filename client (id ss))).
  assert (lookup_file st' filename = Some entry) as Hlook'
    by apply lookup_insert_eq.
  split; [reflexivity|].
  split; [exists ss; split; [reflexivity | exact Hlook']|].
  split.
  { intros other Hne. apply lookup_insert_ne. congruence. }
  split.
  { unfold replies, NamingServerReferral.handle_write,
      NamingServerReferral.handle_undo.
    rewrite (read_denied st' entry client filename Hlook').
    rewrite !(refer_writer_denied _ _ st' entry client filename Hlook').
    unfold check_permission. simpl. rewrite String.eqb_refl.
    repeat split; discriminate. }
  split.
  { intros user Hne.
    unfold replies, NamingServerReferral.handle_write,
      NamingServerReferral.handle_undo.
    rewrite (read_denied st' entry user filename Hlook').
    rewrite !(refer_writer_denied _ _ st' entry user filename Hlook').
    unfold check_permission. simpl.
    destruct (String.eqb_spec client user); [congruence|].
    repeat split. }
  unfold handle_create. rewrite Hlook'. reflexivity.
Qed.

Lemma created_file_is_private_witness :
  let st' :=
    snd (handle_create Scenario.two_nodes "alice" "notes" ""
           (RESP_SUCCESS, ""%string)) in
  denied (fst (handle_read st' "bob" "notes")).
Proof.
  intros st'.
  destruct (created_file_is_private Scenario.two_nodes "alice" "notes" ""
              (RESP_SUCCESS, ""%string) eq_refl) as (_ & _ & _ & _ & H & _).
  specialize (H "bob" ltac:(discriminate)).
  unfold replies in H. destruct H as (H & _). exact H.
Defined.

End CoordinatorFacts.

(** ** Logins, node registrations and the READ fallback *)

Module NodeFacts.

Import Protocol Coordinator UserSessionManager StorageServerManager
  NodeTraces.

(** X21. Login and logout: a rejected login changes nothing and means
    the user has a session; an accepted one leaves the user registered
    and with exactly the session just opened, and the disconnect that
    follows gives back the session list as it was before the login while
    the user stays registered. *)
Theorem login_logout_round_trip (format_time : Z -> string) (st : State)
    (user : string) (socket : Z) (address : string) (now : Z) :
  match NamingServer.handle_register_client format_time st user socket
          address now with
  | (NamingServer.Rejected reply, st') =>
      st' = st
      /\ error_code reply = ERR_FILE_LOCKED
      /\ is_Some (find_active_session (active_sessions st) user)
  | (NamingServer.LoggedIn reply, st') =>
      error_code reply = RESP_SUCCESS
      /\ user_exists (registered_users st') user = true
      /\ find_active_session (active_sessions st') user
         = Some (mkActiveSession user socket address now)
      /\ active_sessions (NamingServer.handle_disconnect st' user)
         = active_sessions st
      /\ registered_users (NamingServer.handle_disconnect st' user)
         = registered_users st'
  end.
Proof.
  unfold NamingServer.handle_register_client.
  destruct (find_active_session (active_sessions st) user) as [s|] eqn:Hfind.
  { repeat split. eauto. }
  unfold add_active_session. rewrite Hfind. cbn [Z.eqb].
  split; [reflexivity|]. split.
  { cbn [registered_users]. unfold register_user.
    destruct (user_exists (registered_users st) user) eqn:He; [exact He|].
    simpl. rewrite String.eqb_refl. reflexivity. }
  simpl. rewrite String.eqb_refl. repeat split.
Qed.

Lemma find_ss_by_id_Some (l : list StorageServer) (server_id : string)
    (ss : StorageServer) :
  find_ss_by_id l server_id = Some ss -> id ss = server_id /\ ss ∈ l.
Proof.
  induction l as [|s rest IH]; simpl; [discriminate|].
  destruct (String.eqb_spec (id s) server_id) as [He|He].
  - intros H. injection H as <-. split; [exact He | apply elem_of_cons; auto].
  - intros H. destruct (IH H) as [H1 H2].
    split; [exact H1 | apply elem_of_cons; auto].
Qed.

Lemma find_ss_by_id_None (l : list StorageServer) (server_id : string) :
  find_ss_by_id l server_id = None <-> server_id ∉ id <$> l.
Proof.
  induction l as [|s rest IH]; simpl.
  - split; [intros _; apply not_elem_of_nil | reflexivity].
  - rewrite not_elem_of_cons.
    destruct (String.eqb_spec (id s) server_id) as [He|He].
    + split; [discriminate | intros [H _]; congruence].
    + rewrite IH. split; [intros H; split; [congruence | exact H] | tauto].
Qed.

Lemma update_ss_ids (l : list StorageServer) (server_id : string)
    (f : StorageServer -> StorageServer) :
  (forall ss, id (f ss) = id ss) ->
  id <$> update_ss l server_id f = id <$> l.
Proof.
  intros Hf. induction l as [|s rest IH]; simpl; [reflexivity|].
  destruct (String.eqb (id s) server_id); rewrite !fmap_cons.
  - rewrite Hf. reflexivity.
  - rewrite IH. reflexivity.
Qed.

Lemma find_update_ss (l : list StorageServer) (server_id other : string)
    (f : StorageServer -> StorageServer) :
  (forall ss, id (f ss) = id ss) ->
  find_ss_by_id (update_ss l server_id f) other
  = if String.eqb server_id other then f <$> find_ss_by_id l other
    else find_ss_by_id l other.
Proof.
  intros Hf. induction l as [|s rest IH]; simpl.
  - destruct (String.eqb server_id other); reflexivity.
  - destruct (String.eqb_spec (id s) server_id) as [Hs|Hs]; simpl.
    + rewrite Hf. subst server_id.
      destruct (String.eqb (id s) other); reflexivity.
    + destruct (String.eqb_spec (id s) other) as [Ho|Ho].
      * destruct (String.eqb_spec server_id other); [congruence|reflexivity].
      * exact IH.
Qed.

Lemma handle_register_ss_servers (st : State) (reg : SSRegistration)
    (socket : Z) (other : string) :
  let st' := snd (NamingServerModular.handle_register_ss st reg socket) in
  id <$> storage_servers st'
  = match find_ss_by_id (storage_servers st) (ss_id reg) with
    | Some _ => id <$> storage_servers st
    | None => ss_id reg :: (id <$> storage_servers st)
    end
  /\ find_ss_by_id (storage_servers st') other
     = if String.eqb (ss_id reg) other
       then Some (mkStorageServer (ss_id reg) (reg_ip reg) (reg_nm_port reg)
                    (reg_client_port reg) socket 1 0)
       else find_ss_by_id (storage_servers st) other.
Proof.
  unfold NamingServerModular.handle_register_ss, register_storage_server.
  destruct (find_ss_by_id (storage_servers st) (ss_id reg)) as [old|] eqn:Hold;
    cbn [snd storage_servers with_storage_servers].
  - split.
    + rewrite !update_ss_ids by reflexivity. reflexivity.
    + rewrite !find_update_ss by reflexivity.
      destruct (String.eqb_spec (ss_id reg) other) as [<-|]; [|reflexivity].
      rewrite Hold. cbn. apply find_ss_by_id_Some in Hold as [-> _].
      reflexivity.
  - split.
    + rewrite update_ss_ids by reflexivity. reflexivity.
    + rewrite find_update_ss by reflexivity.
      cbn [find_ss_by_id new_storage_server id].
      destruct (String.eqb (ss_id reg) other) eqn:He; reflexivity.
Qed.

Lemma run_registrations_ids (l : list (SSRegistration * Z)) (st : State) :
  NoDup (id <$> storage_servers st) ->
  NoDup (id <$> storage_servers (run_registrations st l)).
Proof.
  unfold run_registrations. revert st.
  induction l as [|[reg socket] l IH]; intros st Hnd; simpl; [exact Hnd|].
  apply IH. unfold registration_step. cbn [fst snd].
  destruct (handle_register_ss_servers st reg socket EmptyString) as [-> _].
  destruct (find_ss_by_id (storage_servers st) (ss_id reg)) eqn:Hfind;
    [exact Hnd|].
  apply NoDup_cons. split; [|exact Hnd].
  apply find_ss_by_id_None. exact Hfind.
Qed.

(** X22. The node list of naming_server_modular.c is a map from node
    id to record: after any sequence of registrations from an empty list
    no id occurs twice, and a registration leaves, under its id, a
    record that is active, not failed, has the address and ports of the
    request and the socket the request came on, and leaves the record
    found under every other id as it was. *)
Theorem node_registry_is_a_map (table : gmap string AccessControl.FileEntry)
    (users : list string) (sessions : list ActiveSession) (next : Z)
    (files : gmap string string) (history : list (SSRegistration * Z))
    (reg : SSRegistration) (socket : Z) (other : string) :
  let st := run_registrations (mkState table [] users sessions next files)
              history in
  let st' := snd (NamingServerModular.handle_register_ss st reg socket) in
  NoDup (id <$> storage_servers st)
  /\ find_ss_by_id (storage_servers st') other
     = if String.eqb (ss_id reg) other
       then Some (mkStorageServer (ss_id reg) (reg_ip reg) (reg_nm_port reg)
                    (reg_client_port reg) socket 1 0)
       else find_ss_by_id (storage_servers st) other.
Proof.
  split.
  - apply run_registrations_ids. constructor.
  - apply handle_register_ss_servers.
Qed.


Lemma foldl_add_file (files : list string) (server_id : string)
    (table : gmap string AccessControl.FileEntry) (filename : string) :
  foldl (fun t f => add_file t f "system" server_id) table files !! filename
  = if bool_decide (filename ∈ files)
    then Some (AccessControl.mkFileEntry filename "system" server_id [] [])
    else table !! filename.
Proof.
  revert table. induction files as [|f files IH]; intros table; simpl.
  - reflexivity.
  - rewrite IH. unfold add_file.
    destruct (decide (filename ∈ files)) as [Hin|Hin].
    + rewrite !bool_decide_eq_true_2;
        [reflexivity | apply elem_of_cons; auto | exact Hin].
    + rewrite (bool_decide_eq_false_2 _ Hin).
      destruct (decide (filename = f)) as [->|Hne].
      * rewrite bool_decide_eq_true_2 by (apply elem_of_cons; auto).
        apply lookup_insert_eq.
      * rewrite bool_decide_eq_false_2
          by (rewrite elem_of_cons; intros [?|?]; contradiction).
        apply lookup_insert_ne. congruence.
Qed.

Lemma foldl_adopt_file (files : list string) (server_id : string)
    (table : gmap string AccessControl.FileEntry) (filename : string) :
  foldl (adopt_file server_id) table files !! filename
  = if bool_decide (filename ∈ files)
    then match table !! filename with
         | Some entry =>
             Some (AccessControl.with_storage_server_id entry server_id)
         | None =>
             Some (AccessControl.mkFileEntry filename "system" server_id
                     [] [])
         end
    else table !! filename.
Proof.
  revert table. induction files as [|f files IH]; intros table; simpl.
  - reflexivity.
  - rewrite IH.
    destruct (decide (filename = f)) as [->|Hne].
    + rewrite (bool_decide_eq_true_2 (f ∈ f :: files))
        by (apply elem_of_cons; auto).
      unfold adopt_file, add_file.
      destruct (table !! f) as [entry|]; rewrite lookup_insert_eq;
        destruct (bool_decide (f ∈ files)); reflexivity.
    + assert (adopt_file server_id table f !! filename = table !! filename)
        as ->.
      { unfold adopt_file, add_file.
        destruct (table !! f); apply lookup_insert_ne; congruence. }
      destruct (decide (filename ∈ files)) as [Hin|Hin].
      * rewrite !bool_decide_eq_true_2;
          [reflexivity | apply elem_of_cons; auto | exact Hin].
      * rewrite !bool_decide_eq_false_2;
          [reflexivity
          | rewrite elem_of_cons; intros [?|?]; contradiction | exact Hin].
Qed.

(** X23. What a node registration does to the registry of files.  A
    file the node does not announce keeps its record.  For an announced
    file, [register_storage_server] of storage_server_manager.c keeps
    the record (owner, ACL, requests) and points it to the node when the
    node is known and the file has a record, and otherwise makes a new
    record owned by "system" with an empty ACL: also when a node
    unknown so far announces a name that has a record.  The function of
    naming_server.c always makes the new record. *)
Theorem registration_adopts_files (st : State) (reg : SSRegistration)
    (filename : string) :
  let announced := bool_decide (filename ∈ reg_files reg) in
  let fresh :=
    AccessControl.mkFileEntry filename "system" (ss_id reg) [] [] in
  lookup_file (register_storage_server st reg) filename
  = (if announced
     then match find_ss_by_id (storage_servers st) (ss_id reg),
                lookup_file st filename with
          | Some _, Some entry =>
              Some (AccessControl.with_storage_server_id entry (ss_id reg))
          | _, _ => Some fresh
          end
     else lookup_file st filename)
  /\ lookup_file (NamingServer.register_storage_server st reg) filename
     = (if announced then Some fresh else lookup_file st filename).
Proof.
  intros announced fresh. subst announced fresh. split.
  - unfold register_storage_server, lookup_file.
    destruct (find_ss_by_id (storage_servers st) (ss_id reg)) as [old|]
      eqn:Hold; cbn [file_table].
    + apply find_ss_by_id_Some in Hold as [-> _].
      rewrite foldl_adopt_file.
      destruct (bool_decide _); [|reflexivity].
      destruct (file_table st !! filename); reflexivity.
    + rewrite foldl_add_file. destruct (bool_decide _); [|reflexivity].
      destruct (file_table st !! filename); reflexivity.
  - unfold NamingServer.register_storage_server, lookup_file.
    cbn [file_table]. apply foldl_add_file.
Qed.

Lemma cache_paths_differ (a b : string) :
  "./cache/" +:+ a <> "../cache/" +:+ b.
Proof. discriminate. Qed.

Lemma foldl_delete_cache (files : list string) (d : gmap string string)
    (name : string) :
  foldl (fun d f => delete ("../cache/" +:+ f) d) d files
    !! ("./cache/" +:+ name)
  = d !! ("./cache/" +:+ name).
Proof.
  revert d. induction files as [|f files IH]; intros d; simpl;
    [reflexivity|].
  rewrite IH. apply lookup_delete_ne. apply not_eq_sym, cache_paths_differ.
Qed.

(** X24. The cache that READ fills is not the cache that a
    registration cleans: registering a node, with any list of files,
    leaves every path under [./cache/] as it was (the paths removed are
    under [../cache/]), so a READ that falls back to the cache is
    answered with the bytes cached before the node came back. *)
Theorem registration_keeps_read_cache (st : State) (reg : SSRegistration)
    (socket : Z) (name : string) :
  let st' := snd (NamingServerModular.handle_register_ss st reg socket) in
  disk st' !! ("./cache/" +:+ name) = disk st !! ("./cache/" +:+ name)
  /\ forall entry,
       match disk st !! ("./cache/" +:+ name) with
       | Some bytes =>
           fst (NamingServerModular.read_fallback st' entry name)
           = mkReply RESP_SUCCESS (NamingServerModular.fread_data bytes) None
       | None => True
       end.
Proof.
  intros st'.
  assert (disk st' !! ("./cache/" +:+ name) = disk st !! ("./cache/" +:+ name))
    as Hdisk.
  { subst st'.
    unfold NamingServerModular.handle_register_ss, register_storage_server.
    destruct (find_ss_by_id (storage_servers st) (ss_id reg));
      cbn [snd disk with_storage_servers]; [|reflexivity].
    apply foldl_delete_cache. }
  split; [exact Hdisk|]. intros entry.
  destruct (disk st !! ("./cache/" +:+ name)) as [bytes|] eqn:Hc; [|exact I].
  unfold NamingServerModular.read_fallback. rewrite Hdisk. reflexivity.
Qed.


Lemma substring_prefix_idem (n : nat) (s : string) :
  String.substring 0 n (String.substring 0 n s) = String.substring 0 n s.
Proof.
  revert s. induction n as [|n IH]; intros s.
  - destruct s; simpl; [reflexivity|]. reflexivity.
  - destruct s as [|c s]; [reflexivity|].
    change (String.substring 0 (S n) (String c s))
      with (String c (String.substring 0 n s)).
    change (String.substring 0 (S n) (String c (String.substring 0 n s)))
      with (String c (String.substring 0 n (String.substring 0 n s))).
    rewrite IH. reflexivity.
Qed.

Lemma fread_data_idem (bytes : string) :
  NamingServerModular.fread_data (NamingServerModular.fread_data bytes)
  = NamingServerModular.fread_data bytes.
Proof. apply substring_prefix_idem. Qed.

(** X25. READ served from the backup directory,
    naming_server_modular.c, for a file name without folder part (the
    cached copy then lies in [./cache] itself, which the handler
    makes): when the node of the file is down, the file is not cached
    and a backup copy exists, the reply is SUCCESS with the first
    [MAX_DATA - 1] bytes of the copy, these bytes are now the cached
    copy, the registry is unchanged, and the same READ again gets the
    same reply, from the cache, and changes nothing. *)
Theorem read_from_backup_fills_cache (st : State)
    (entry : AccessControl.FileEntry) (user filename bytes : string) :
  Buffers.plain_name filename = true ->
  lookup_file st filename = Some entry ->
  AccessControl.check_permission entry user 0 <> 0 ->
  NamingServerModular.owner_node st entry = None ->
  disk st !! ("./cache/" +:+ filename) = None ->
  disk st !! ("./backups/" +:+ AccessControl.storage_server_id entry
              +:+ "/" +:+ filename) = Some bytes ->
  let answer := mkReply RESP_SUCCESS (NamingServerModular.fread_data bytes)
                  None in
  let '(reply1, st1) := NamingServerModular.handle_read st user filename in
  reply1 = answer
  /\ disk st1 !! ("./cache/" +:+ filename)
     = Some (NamingServerModular.fread_data bytes)
  /\ file_table st1 = file_table st
  /\ NamingServerModular.handle_read st1 user filename = (answer, st1).
Proof.
  intros _ Hlook Hperm Hnode Hcache Hbackup answer.
  unfold NamingServerModular.handle_read at 1. rewrite Hlook.
  apply Z.eqb_neq in Hperm as Hp. rewrite Hp, Hnode.
  unfold NamingServerModular.read_fallback. rewrite Hcache, Hbackup.
  set (st1 := with_disk st _).
  split; [reflexivity|].
  assert (disk st1 !! ("./cache/" +:+ filename)
          = Some (NamingServerModular.fread_data bytes)) as Hc1
    by apply lookup_insert_eq.
  split; [exact Hc1|]. split; [reflexivity|].
  unfold NamingServerModular.handle_read.
  change (lookup_file st1 filename) with (lookup_file st filename).
  rewrite Hlook, Hp.
  change (NamingServerModular.owner_node st1 entry)
    with (NamingServerModular.owner_node st entry).
  rewrite Hnode. unfold NamingServerModular.read_fallback.
  rewrite Hc1, fread_data_idem. reflexivity.
Qed.

Lemma read_from_backup_fills_cache_witness :
  let '(reply1, st1) :=
    NamingServerModular.handle_read coordinator_backup_only "alice" "X" in
  data reply1 = "saved bytes"%string
  /\ disk st1 !! "./cache/X"%string = Some "saved bytes"%string.
Proof.
  pose proof (read_from_backup_fills_cache coordinator_backup_only
                (AccessControl.mkFileEntry "X" "alice" "SS1" [] [])
                "alice" "X" "saved bytes" eq_refl eq_refl) as H.
  cbv zeta in H.
  destruct (NamingServerModular.handle_read coordinator_backup_only
              "alice" "X") as [reply1 st1].
  destruct H as (H1 & H2 & _); try reflexivity; [discriminate|].
  split; [rewrite H1; reflexivity | exact H2].
Defined.

Lemma get_available_ss_Some (l : list StorageServer) (ss : StorageServer) :
  get_available_ss l = Some ss -> ss ∈ l /\ (is_active ss =? 0) = false.
Proof.
  induction l as [|s rest IH]; simpl; [discriminate|].
  destruct (is_active s =? 0) eqn:Ha.
  - intros H. destruct (IH H) as [H1 H2].
    split; [apply elem_of_cons; auto | exact H2].
  - intros H. injection H as <-. split; [apply elem_of_cons; auto | exact Ha].
Qed.

Lemma find_ss_by_id_member (l : list StorageServer) (ss : StorageServer) :
  NoDup (id <$> l) -> ss ∈ l -> find_ss_by_id l (id ss) = Some ss.
Proof.
  induction l as [|s rest IH]; simpl; intros Hnd Hin.
  - apply elem_of_nil in Hin. contradiction.
  - apply NoDup_cons in Hnd as [Hs Hrest].
    apply elem_of_cons in Hin as [->|Hin].
    + rewrite String.eqb_refl. reflexivity.
    + destruct (String.eqb_spec (id s) (id ss)) as [He|He]; [|auto].
      exfalso. apply Hs. rewrite He. apply list_elem_of_fmap.
      exists ss. split; [reflexivity | exact Hin].
Qed.

(** X26. READ failover, naming_server_modular.c: when the node of
    the file is down, neither cache nor backup holds the file, some
    node is active and node ids are distinct, the reply refers the
    client to the first active node, the record of the file (and no
    other) now names that node, and the same READ again refers to the
    same address and changes nothing. *)
Theorem read_failover_moves_the_file (st : State)
    (entry : AccessControl.FileEntry) (user filename : string)
    (failover_ss : StorageServer) :
  lookup_file st filename = Some entry ->
  AccessControl.check_permission entry user 0 <> 0 ->
  NamingServerModular.owner_node st entry = None ->
  disk st !! ("./cache/" +:+ filename) = None ->
  disk st !! ("./backups/" +:+ AccessControl.storage_server_id entry
              +:+ "/" +:+ filename) = None ->
  get_available_ss (storage_servers st) = Some failover_ss ->
  NoDup (id <$> storage_servers st) ->
  let '(reply1, st1) := NamingServerModular.handle_read st user filename in
  error_code reply1 = RESP_SS_INFO
  /\ referral reply1 = Some (ip failover_ss, client_port failover_ss)
  /\ lookup_file st1 filename
     = Some (AccessControl.with_storage_server_id entry (id failover_ss))
  /\ (forall other, other <> filename ->
                    lookup_file st1 other = lookup_file st other)
  /\ let '(reply2, st2) :=
       NamingServerModular.handle_read st1 user filename in
     error_code reply2 = RESP_SS_INFO
     /\ referral reply2 = referral reply1
     /\ st2 = st1.
Proof.
  intros Hlook Hperm Hnode Hcache Hbackup Hfo Hnd.
  unfold NamingServerModular.handle_read at 1. rewrite Hlook.
  apply Z.eqb_neq in Hperm as Hp. rewrite Hp, Hnode.
  unfold NamingServerModular.read_fallback.
  rewrite Hcache, Hbackup, Hfo.
  set (entry1 := AccessControl.with_storage_server_id entry (id failover_ss)).
  set (st1 := with_file_table st _).
  assert (lookup_file st1 filename = Some entry1) as Hlook1
    by apply lookup_insert_eq.
  split; [reflexivity|]. split; [reflexivity|]. split; [exact Hlook1|].
  split.
  { intros other Hne. apply lookup_insert_ne. congruence. }
  unfold NamingServerModular.handle_read. rewrite Hlook1.
  change (AccessControl.check_permission entry1 user 0)
    with (AccessControl.check_permission entry user 0).
  rewrite Hp.
  apply get_available_ss_Some in Hfo as [Hin Hactive].
  unfold NamingServerModular.owner_node.
  change (storage_servers st1) with (storage_servers st).
  change (AccessControl.storage_server_id entry1) with (id failover_ss).
  rewrite (find_ss_by_id_member _ _ Hnd Hin), Hactive.
  repeat split.
Qed.

Lemma read_failover_moves_the_file_witness :
  let '(reply1, st1) :=
    NamingServerModular.handle_read coordinator_failover "alice" "X" in
  referral reply1 = Some ("10.0.0.2"%string, 8082)
  /\ AccessControl.storage_server_id <$> lookup_file st1 "X"
     = Some "SS2"%string.
Proof.
  pose proof (read_failover_moves_the_file coordinator_failover
                (AccessControl.mkFileEntry "X" "alice" "SS1" [] [])
                "alice" "X"
                (mkStorageServer "SS2" "10.0.0.2" 9082 8082 6 1 0)
                eq_refl) as H.
  destruct (NamingServerModular.handle_read coordinator_failover
              "alice" "X") as [reply1 st1].
  destruct H as (_ & H1 & H2 & _); try reflexivity; [discriminate| |].
  - repeat constructor; rewrite ?elem_of_cons, ?elem_of_nil;
      intros H; repeat destruct H as [H|H]; try discriminate; exact H.
  - split; [exact H1 | rewrite H2; reflexivity].
Defined.

End NodeFacts.

(** ** The folder list *)

Module FolderFacts.

Import FolderManager ManagerTraces.







End FolderFacts.


(** ** The hash table of file records *)

Module FileTableFacts.

Import AccessControl FileManager.

Lemma hash_function_bound (str : string) :
  (hash_function str < HASH_TABLE_SIZE)%nat.
Proof.
  unfold hash_function.
  change (Z.of_nat HASH_TABLE_SIZE) with 1024.
  pose proof (Z.mod_pos_bound (hash_loop str 5381) 1024 ltac:(lia)) as H.
  unfold HASH_TABLE_SIZE. lia.
Qed.

Lemma find_entry_name (bucket : list FileEntry) (filename : string)
    (entry : FileEntry) :
  find_entry bucket filename = Some entry -> name entry = filename.
Proof.
  induction bucket as [|e rest IH]; simpl; [discriminate|].
  destruct (String.eqb_spec (name e) filename) as [He|He]; [|exact IH].
  intros H. injection H as <-. exact He.
Qed.

Lemma remove_entry_found (bucket : list FileEntry) (filename : string) :
  is_Some (remove_entry bucket filename)
  <-> is_Some (find_entry bucket filename).
Proof.
  induction bucket as [|e rest IH]; simpl.
  - split; intros [x H]; discriminate.
  - destruct (String.eqb (name e) filename); [split; eauto|].
    rewrite <- IH. destruct (remove_entry rest filename); simpl;
      split; intros [x H]; eauto; discriminate.
Qed.

Lemma remove_entry_other (bucket bucket' : list FileEntry)
    (filename other : string) :
  other <> filename ->
  remove_entry bucket filename = Some bucket' ->
  find_entry bucket' other = find_entry bucket other.
Proof.
  intros Hne. revert bucket'.
  induction bucket as [|e rest IH]; intros bucket'; simpl; [discriminate|].
  destruct (String.eqb_spec (name e) filename) as [He|He].
  - intros H. injection H as <-.
    destruct (String.eqb_spec (name e) other); [congruence | reflexivity].
  - destruct (remove_entry rest filename) as [rest'|]; [|discriminate].
    intros H. injection H as <-. simpl.
    destruct (String.eqb (name e) other); [reflexivity|].
    apply IH. reflexivity.
Qed.

(** X28. The hash table of file records (all [HASH_TABLE_SIZE]
    buckets present): [add_file] makes [lookup_file] find the new record
    under its name and changes the answer for no other name;
    [delete_file_entry] right after it returns 1 and gives back the
    table exactly as it was before the [add_file], so a record that the
    new one shadowed is found again; [delete_file_entry] returns 1 when
    [lookup_file] finds the name and 0 when not, and changes the answer
    for no other name. *)
Theorem file_table_add_delete (table : list (list FileEntry))
    (filename file_owner server_id other : string) :
  length table = HASH_TABLE_SIZE ->
  let added := add_file table filename file_owner server_id in
  length added = HASH_TABLE_SIZE
  /\ lookup_file added other
     = (if String.eqb filename other
        then Some (mkFileEntry filename file_owner server_id [] [])
        else lookup_file table other)
  /\ delete_file_entry added filename = (1, table)
  /\ length (snd (delete_file_entry table filename)) = HASH_TABLE_SIZE
  /\ (fst (delete_file_entry table filename) = 1
      <-> is_Some (lookup_file table filename))
  /\ (fst (delete_file_entry table filename) = 0
      <-> lookup_file table filename = None)
  /\ (other <> filename ->
      lookup_file (snd (delete_file_entry table filename)) other
      = lookup_file table other).
Proof.
  intros Hlen added. subst added.
  pose proof (hash_function_bound filename) as Hf.
  pose proof (hash_function_bound other) as Ho.
  unfold add_file, lookup_file, delete_file_entry.
  set (i := hash_function filename) in *.
  set (j := hash_function other) in *.
  split; [rewrite length_insert; exact Hlen|].
  split.
  { destruct (decide (i = j)) as [Hij|Hij].
    - rewrite <- Hij, list_lookup_total_insert_eq by lia. simpl.
      reflexivity.
    - rewrite list_lookup_total_insert_ne by exact Hij.
      destruct (String.eqb_spec filename other) as [He|_]; [|reflexivity].
      exfalso. apply Hij. subst i j. rewrite He. reflexivity. }
  split.
  { rewrite list_lookup_total_insert_eq by lia. simpl.
    rewrite String.eqb_refl, list_insert_insert_eq.
    rewrite list_insert_id; [reflexivity|].
    apply list_lookup_lookup_total_lt. lia. }
  pose proof (remove_entry_found (table !!! i) filename) as Hfound.
  pose proof (fun b => remove_entry_other (table !!! i) b filename other)
    as Hother.
  destruct (remove_entry (table !!! i) filename) as [bucket|]; cbn [fst snd].
  - split; [rewrite length_insert; exact Hlen|].
    split; [split; [intros _; apply Hfound; eauto | reflexivity]|].
    split.
    { split; [discriminate|]. intros Hnone.
      destruct Hfound as [Hfound _]. destruct Hfound as [x Hx]; [eauto|].
      congruence. }
    intros Hne. destruct (decide (i = j)) as [Hij|Hij].
    + rewrite <- Hij, list_lookup_total_insert_eq by lia.
      apply Hother; [exact Hne | reflexivity].
    + rewrite list_lookup_total_insert_ne by exact Hij. reflexivity.
  - split; [exact Hlen|].
    split.
    { split; [discriminate|]. intros Hsome. apply Hfound in Hsome.
      destruct Hsome as [x Hx]. discriminate. }
    split; [|reflexivity].
    split; [intros _|reflexivity].
    destruct (find_entry (table !!! i) filename) eqn:Hfind; [|reflexivity].
    destruct Hfound as [_ Hfound]. destruct Hfound as [x Hx]; [eauto|].
    discriminate.
Qed.

Lemma file_table_add_delete_witness :
  lookup_file (add_file init_file_table "notes" "alice" "SS1") "notes"
  = Some (mkFileEntry "notes" "alice" "SS1" [] [])
  /\ delete_file_entry (add_file init_file_table "notes" "alice" "SS1")
       "notes"
     = (1, init_file_table).
Proof.
  destruct (file_table_add_delete init_file_table "notes" "alice" "SS1"
              "notes" eq_refl) as (_ & H1 & H2 & _).
  split; [exact H1 | exact H2].
Defined.

End FileTableFacts.


(** ** The cache of search results *)

Module SearchCacheFacts.

Import SearchManager ManagerTraces.

Lemma refresh_entry_shape (l l' : list SearchCacheEntry) (q r : string)
    (now : Z) :
  refresh_entry l q r now = Some l' ->
  length l' = length l /\ query <$> l' = query <$> l
  /\ forall now', fst <$> touch_entry l' q now' = Some r.
Proof.
  revert l'. induction l as [|e rest IH]; intros l'; simpl; [discriminate|].
  destruct (String.eqb (query e) q) eqn:He.
  - intros H. injection H as <-. simpl. rewrite He.
    repeat split.
  - destruct (refresh_entry rest q r now) as [rest'|]; [|discriminate].
    intros H. injection H as <-.
    destruct (IH rest' eq_refl) as (H1 & H2 & H3).
    split; [simpl; lia|]. split; [rewrite !fmap_cons, H2; reflexivity|].
    intros now'. simpl. rewrite He. specialize (H3 now').
    destruct (touch_entry rest' q now') as [[r' l'']|]; [|discriminate].
    exact H3.
Qed.

Lemma refresh_entry_absent (l : list SearchCacheEntry) (q r : string)
    (now : Z) :
  refresh_entry l q r now = None -> q ∉ query <$> l.
Proof.
  induction l as [|e rest IH]; simpl; [intros _; apply not_elem_of_nil|].
  destruct (String.eqb_spec (query e) q) as [|Hne]; [discriminate|].
  destruct (refresh_entry rest q r now); [discriminate|].
  intros _. apply not_elem_of_cons. split; [congruence | auto].
Qed.

Lemma touch_entry_shape (l l' : list SearchCacheEntry) (q r : string)
    (now : Z) :
  touch_entry l q now = Some (r, l') ->
  length l' = length l /\ query <$> l' = query <$> l.
Proof.
  revert l'. induction l as [|e rest IH]; intros l'; simpl; [discriminate|].
  destruct (String.eqb (query e) q).
  - intros H. injection H as <- <-. split; reflexivity.
  - destruct (touch_entry rest q now) as [[r' rest']|]; [|discriminate].
    intros H. injection H as <- <-.
    destruct (IH rest' eq_refl) as (H1 & H2).
    split; [simpl; lia | rewrite !fmap_cons, H2; reflexivity].
Qed.

Lemma oldest_scan_spec (l : list SearchCacheEntry) (i : nat)
    (oldest_time : Z) (oldest : nat) :
  (oldest_scan l i oldest_time oldest = oldest
   /\ Forall (fun e => oldest_time <= timestamp e) l)
  \/ exists k victim,
       l !! k = Some victim
       /\ oldest_scan l i oldest_time oldest = (i + k)%nat
       /\ timestamp victim < oldest_time
       /\ Forall (fun e => timestamp victim <= timestamp e) l.
Proof.
  revert i oldest_time oldest.
  induction l as [|c next IH]; intros i t o; simpl.
  - left. split; [reflexivity | constructor].
  - destruct (Z.ltb_spec (timestamp c) t) as [Hlt|Hge].
    + right.
      destruct (IH (S i) (timestamp c) i) as [[Ho Hall]|(k & v & Hk & Ho & Hv & Hall)].
      * exists 0%nat, c. repeat split; [rewrite Ho; lia | exact Hlt |].
        constructor; [lia | exact Hall].
      * exists (S k), v. repeat split; [exact Hk | rewrite Ho; lia | lia |].
        constructor; [lia | exact Hall].
    + destruct (IH (S i) t o) as [[Ho Hall]|(k & v & Hk & Ho & Hv & Hall)].
      * left. split; [exact Ho|]. constructor; [lia | exact Hall].
      * right. exists (S k), v.
        repeat split; [exact Hk | rewrite Ho; lia | exact Hv |].
        constructor; [lia | exact Hall].
Qed.

Lemma oldest_index_spec (l : list SearchCacheEntry) :
  l <> [] ->
  exists victim,
    l !! oldest_index l = Some victim
    /\ Forall (fun e => timestamp victim <= timestamp e) l.
Proof.
  destruct l as [|head rest]; [contradiction|]. intros _.
  unfold oldest_index.
  destruct (oldest_scan_spec (head :: rest) 0 (timestamp head) 0)
    as [[Ho Hall]|(k & v & Hk & Ho & _ & Hall)].
  - exists head. rewrite Ho. split; [reflexivity | exact Hall].
  - exists v. rewrite Ho. split; [exact Hk | exact Hall].
Qed.

Lemma cache_step_ok (c : Cache) (op : CacheOp) :
  cache_ok c -> cache_ok (cache_step c op).
Proof.
  unfold cache_ok. intros (Hcount & Hsize & Hnd).
  destruct op as [q r now|q now|]; simpl.
  - unfold cache_search_result.
    destruct (refresh_entry (search_cache c) q r now) as [l|] eqn:Href.
    + destruct (refresh_entry_shape _ _ _ _ _ Href) as (H1 & H2 & _).
      cbn [search_cache search_cache_count].
      rewrite H1, H2. repeat split; assumption.
    + apply refresh_entry_absent in Href.
      destruct (Z.geb_spec (search_cache_count c) SEARCH_CACHE_SIZE)
        as [Hfull|Hroom]; cbn [search_cache search_cache_count].
      * unfold SEARCH_CACHE_SIZE in *.
        destruct (oldest_index_spec (search_cache c)) as (v & Hv & _).
        { intros Hnil. rewrite Hnil in Hcount. simpl in Hcount. lia. }
        assert (length (delete (oldest_index (search_cache c))
                          (search_cache c))
                = (length (search_cache c) - 1)%nat) as Hlen
          by (apply length_delete; eauto).
        assert (query <$> delete (oldest_index (search_cache c))
                            (search_cache c)
                `sublist_of` query <$> search_cache c) as Hsub
          by (apply (fmap_sublist query), sublist_delete).
        repeat split.
        -- simpl. rewrite Hlen. lia.
        -- lia.
        -- rewrite fmap_cons. apply NoDup_cons. split.
           ++ intros Hin. apply Href.
              eapply elem_of_sublist; [exact Hin | exact Hsub].
           ++ eapply sublist_NoDup; [exact Hnd | exact Hsub].
      * unfold SEARCH_CACHE_SIZE in *. repeat split.
        -- simpl. lia.
        -- lia.
        -- rewrite fmap_cons. apply NoDup_cons. split; assumption.
  - unfold get_cached_search.
    destruct (touch_entry (search_cache c) q now) as [[r l]|] eqn:Ht;
      cbn [snd search_cache search_cache_count].
    + destruct (touch_entry_shape _ _ _ _ _ Ht) as (H1 & H2).
      rewrite H1, H2. repeat split; assumption.
    + repeat split; assumption.
  - repeat split; [unfold SEARCH_CACHE_SIZE; lia | constructor].
Qed.

Lemma run_cache_ops_ok (ops : list CacheOp) (c : Cache) :
  cache_ok c -> cache_ok (fold_left cache_step ops c).
Proof.
  revert c. induction ops as [|op ops IH]; intros c Hok; simpl;
    [exact Hok|].
  apply IH, cache_step_ok, Hok.
Qed.

(** X29. The search cache, after any sequence of
    [cache_search_result], [get_cached_search] and
    [invalidate_search_cache] calls from the empty cache, every query
    stored shorter than [MAX_FILENAME - 1] bytes and every result
    shorter than [MAX_DATA - 1] bytes, so that the entry holds them
    whole: [search_cache_count] is the length of the list and at most
    [SEARCH_CACHE_SIZE], no query is cached twice, and a result stored
    is the result fetched for that query; when the cache is full the
    list is not empty and the entry that the eviction scan picks has the
    least time stamp. *)
Theorem search_cache_is_bounded_map (ops : list CacheOp) (q r : string)
    (now now' : Z) :
  forallb Buffers.store_fits ops = true ->
  Buffers.fits_cache_entry q r = true ->
  let c := run_cache_ops ops in
  search_cache_count c = Z.of_nat (length (search_cache c))
  /\ search_cache_count c <= SEARCH_CACHE_SIZE
  /\ NoDup (query <$> search_cache c)
  /\ fst (get_cached_search (cache_search_result c q r now) q now') = Some r
  /\ (search_cache_count c >= SEARCH_CACHE_SIZE ->
      exists victim,
        search_cache c !! oldest_index (search_cache c) = Some victim
        /\ Forall (fun e => timestamp victim <= timestamp e)
             (search_cache c)).
Proof.
  intros _ _ c.
  assert (cache_ok c) as (Hcount & Hsize & Hnd).
  { apply run_cache_ops_ok.
    split; [reflexivity|]. split; [discriminate | constructor]. }
  split; [exact Hcount|]. split; [exact Hsize|]. split; [exact Hnd|].
  split.
  - unfold cache_search_result, get_cached_search.
    destruct (refresh_entry (search_cache c) q r now) as [l|] eqn:Href.
    + destruct (refresh_entry_shape _ _ _ _ _ Href) as (_ & _ & H).
      specialize (H now'). cbn [search_cache].
      destruct (touch_entry l q now') as [[r' l']|]; [|discriminate].
      simpl in H. injection H as ->. reflexivity.
    + cbn [search_cache touch_entry query]. rewrite String.eqb_refl.
      reflexivity.
  - intros Hfull. apply oldest_index_spec.
    intros Hnil. rewrite Hnil in Hcount. simpl in Hcount.
    unfold SEARCH_CACHE_SIZE in Hfull. lia.
Qed.

(** X29 on a cache that has seen one search and one invalidation: the
    result stored for "*.txt" is the result fetched. *)
Lemma search_cache_is_bounded_map_witness :
  let c := run_cache_ops [Store "notes" "notes" 10; Invalidate;
                          Store "*.c" "main.c" 20] in
  search_cache_count c = 1
  /\ fst (get_cached_search (cache_search_result c "*.txt" "a.txt" 30)
            "*.txt" 40)
     = Some "a.txt"%string.
Proof.
  intros c.
  destruct (search_cache_is_bounded_map
              [Store "notes" "notes" 10; Invalidate; Store "*.c" "main.c" 20]
              "*.txt" "a.txt" 30 40 eq_refl eq_refl) as (H1 & _ & _ & H2 & _).
  split; [exact H1 | exact H2].
Defined.

End SearchCacheFacts.


(** ** Files of a node: create, first WRITE, delete *)

Module NodeFileFacts.

Import Protocol Node StorageServer FileOperations.



End NodeFileFacts.

(** ** The checkpoints of a file *)

Module CheckpointFacts.

Import CheckpointManager CheckpointTraces.

Lemma find_checkpoint_absent (l : list CheckpointEntry) (t : string) :
  find_checkpoint l t = None <-> t ∉ tag <$> l.
Proof.
  induction l as [|cp rest IH]; simpl.
  - split; [intros _; apply not_elem_of_nil | reflexivity].
  - rewrite not_elem_of_cons.
    destruct (String.eqb_spec (tag cp) t) as [He|He].
    + split; [discriminate | intros [H _]; congruence].
    + rewrite IH. split; [intros H; split; [congruence | exact H] | tauto].
Qed.

Lemma checkpoint_step_find (l : list CheckpointEntry) (op : CheckpointEntry)
    (t : string) :
  find_checkpoint (checkpoint_step l op) t
  = match find_checkpoint l t with
    | Some cp => Some cp
    | None => if String.eqb (tag op) t then Some op else None
    end.
Proof.
  unfold checkpoint_step, add_checkpoint.
  destruct (find_checkpoint l (tag op)) as [old|] eqn:Hold; cbn [snd].
  - destruct (find_checkpoint l t) as [cp|] eqn:Ht; [reflexivity|].
    destruct (String.eqb_spec (tag op) t) as [He|_]; [|reflexivity].
    congruence.
  - simpl. destruct (String.eqb_spec (tag op) t) as [He|_].
    + subst t. rewrite Hold. destruct op; reflexivity.
    + destruct (find_checkpoint l t); reflexivity.
Qed.

Lemma fold_checkpoint_step (ops : list CheckpointEntry)
    (l : list CheckpointEntry) (t : string) :
  NoDup (tag <$> l) ->
  NoDup (tag <$> fold_left checkpoint_step ops l)
  /\ find_checkpoint (fold_left checkpoint_step ops l) t
     = match find_checkpoint l t with
       | Some cp => Some cp
       | None => first_checkpoint ops t
       end.
Proof.
  revert l. induction ops as [|op ops IH]; intros l Hnd; simpl.
  - split; [exact Hnd|]. destruct (find_checkpoint l t); reflexivity.
  - destruct (IH (checkpoint_step l op)) as [IH1 IH2].
    { unfold checkpoint_step, add_checkpoint.
      destruct (find_checkpoint l (tag op)) eqn:Hold; cbn [snd];
        [exact Hnd|].
      rewrite fmap_cons. apply NoDup_cons. split; [|exact Hnd].
      apply find_checkpoint_absent. exact Hold. }
    split; [exact IH1|]. rewrite IH2, checkpoint_step_find.
    destruct (find_checkpoint l t); [reflexivity|].
    destruct (String.eqb (tag op) t); reflexivity.
Qed.

(** X7. A checkpoint tag is taken once: after any sequence of
    [add_checkpoint] calls on a file without checkpoints, no tag is
    listed twice and [find_checkpoint] gives, for a tag, the checkpoint
    of the first call made with it (creator, time and size of that
    call); a further [add_checkpoint] with a tag used before returns -1
    and changes nothing, and with a new tag returns 0 and puts the
    checkpoint at the head. *)
Theorem checkpoint_tag_is_taken_once (ops : list CheckpointEntry)
    (t who : string) (now file_size : Z) :
  let checkpoints := run_checkpoint_ops ops in
  NoDup (tag <$> checkpoints)
  /\ find_checkpoint checkpoints t = first_checkpoint ops t
  /\ add_checkpoint checkpoints t who now file_size
     = match first_checkpoint ops t with
       | Some _ => (-1, checkpoints)
       | None => (0, mkCheckpointEntry t who now file_size :: checkpoints)
       end.
Proof.
  intros checkpoints.
  destruct (fold_checkpoint_step ops [] t) as [H1 H2]; [constructor|].
  fold (run_checkpoint_ops ops) in H1, H2. fold checkpoints in H1, H2.
  simpl in H2. split; [exact H1|]. split; [exact H2|].
  unfold add_checkpoint. rewrite H2.
  destruct (first_checkpoint ops t); reflexivity.
Qed.

End CheckpointFacts.
